(** * Zendesk Help Center client: request building, field projection and
      HTML clean-up

    A shallow embedding of [ZendeskClient] (zendesk-client.ts): the
    constructor, [makeRequest], [cleanHtmlContent], [searchArticles],
    [getArticle] and the command handling of [chatLoop], together with the
    part of the JavaScript runtime these methods rely on (strings as
    sequences of UTF-16 code units, regular expressions with the [g] and
    [i] flags, [String.prototype.replace], [Number.parseInt], object
    literals and property reads). *)

From Stdlib Require Import String Ascii DecimalString DecimalPos List NArith ZArith Bool Arith Lia.
Import ListNotations.

Set Implicit Arguments.

(** ** JavaScript strings *)

(** A JavaScript string is a sequence of UTF-16 code units. *)
Definition code_unit := N.
Definition jsstring := list code_unit.

(** [js "abc"] is the JavaScript string literal ["abc"] (ASCII text). *)
Definition js (s : string) : jsstring :=
  map N_of_ascii (list_ascii_of_string s).

(** The line feed and the character [<]. *)
Definition LF : code_unit := 10%N.
Definition LT : code_unit := 60%N.

Fixpoint jseqb (a b : jsstring) : bool :=
  match a, b with
  | [], [] => true
  | x :: a', y :: b' => N.eqb x y && jseqb a' b'
  | _, _ => false
  end.

(** ** Regular expressions *)

Module RegExp.

Local Open Scope N_scope.

(** White space and line terminators, the set matched by [\s]. *)
Definition is_space (c : code_unit) : bool :=
  (9 <=? c) && (c <=? 13)
  || (c =? 32) || (c =? 160) || (c =? 5760)
  || (8192 <=? c) && (c <=? 8202)
  || (c =? 8232) || (c =? 8233) || (c =? 8239) || (c =? 8287)
  || (c =? 12288) || (c =? 65279).

(** Line terminators, the characters [.] does not match. *)
Definition is_line_terminator (c : code_unit) : bool :=
  (c =? 10) || (c =? 13) || (c =? 8232) || (c =? 8233).

Definition to_upper (c : code_unit) : code_unit :=
  if (97 <=? c) && (c <=? 122) then c - 32 else c.

Definition to_lower (c : code_unit) : code_unit :=
  if (65 <=? c) && (c <=? 90) then c + 32 else c.

(** Canonicalize of the language specification, without the [u] flag: with
    [i] a code unit is compared through its upper-case form.  Only the ASCII
    letters are folded here.  The language never canonicalizes a code unit
    above 127 to an ASCII one, and in the patterns below every pattern
    character, class member and back-referenced text is ASCII, so their
    matches are the same as with the full case folding. *)
Definition canonicalize (ignoreCase : bool) (c : code_unit) : code_unit :=
  if ignoreCase then to_upper c else c.

(** The members of a character class [[...]]. *)
Inductive class_item :=
| CChar (c : code_unit)          (* a single character *)
| CRange (lo hi : code_unit)     (* lo-hi *)
| CSpace                         (* \s *)
| CNotSpace.                     (* \S *)

(** Atoms match exactly one code unit. *)
Inductive atom :=
| AChar (c : code_unit)                          (* a pattern character *)
| ADot                                           (* . *)
| AClass (invert : bool) (items : list class_item).  (* [...] and [^...] *)

(** The patterns of the client quantify single-character atoms only. *)
Inductive node :=
| Empty
| Atom (a : atom)
| Seq (r1 r2 : node)
| Rep (min : nat) (greedy : bool) (a : atom)     (* a*  a+  a*? *)
| Group (n : nat) (r : node)                     (* ( r ), the n-th group *)
| Backref (n : nat).                             (* \n *)

Definition in_item (i : class_item) (c : code_unit) : bool :=
  match i with
  | CChar x => c =? x
  | CRange lo hi => (lo <=? c) && (c <=? hi)
  | CSpace => is_space c
  | CNotSpace => negb (is_space c)
  end.

(** The code units with the same canonical form as [c]. *)
Definition variants (ignoreCase : bool) (c : code_unit) : list code_unit :=
  if ignoreCase then [c; to_upper c; to_lower c] else [c].

(** A class holds [c] when one of its members canonicalizes like [c]. *)
Definition in_class (ignoreCase : bool) (items : list class_item)
    (c : code_unit) : bool :=
  existsb (fun i => existsb (in_item i) (variants ignoreCase c)) items.

Definition atom_matches (ignoreCase : bool) (a : atom) (c : code_unit) : bool :=
  match a with
  | AChar x => canonicalize ignoreCase x =? canonicalize ignoreCase c
  | ADot => negb (is_line_terminator c)
  | AClass invert items => xorb invert (in_class ignoreCase items c)
  end.

(** Captures: the text of each group that has matched, newest first. *)
Definition captures := list (nat * jsstring).

Fixpoint capture (n : nat) (caps : captures) : option jsstring :=
  match caps with
  | [] => None
  | (k, v) :: rest => if Nat.eqb k n then Some v else capture n rest
  end.

(** A match leaves the rest of the input and the captures. *)
Definition result := option (jsstring * captures).
Definition continuation := jsstring -> captures -> result.

Definition orelse (a b : result) : result :=
  match a with Some _ => a | None => b end.

(** [starts_with ic v s]: [s] begins with [v] up to canonicalization; the
    answer is the rest of [s]. *)
Fixpoint starts_with (ic : bool) (v s : jsstring) : option jsstring :=
  match v, s with
  | [], _ => Some s
  | x :: v', y :: s' =>
      if canonicalize ic x =? canonicalize ic y then starts_with ic v' s'
      else None
  | _ :: _, [] => None
  end.

(** The repeat matcher: [a] at least [min] times, then the continuation;
    greedy repetition tries one more [a] first, lazy repetition tries the
    continuation first. *)
Fixpoint repeat_matcher (ic : bool) (a : atom) (greedy : bool)
    (s : jsstring) (min : nat) (k : jsstring -> result) : result :=
  let more :=
    match s with
    | [] => None
    | c :: t =>
        if atom_matches ic a c
        then repeat_matcher ic a greedy t (Nat.pred min) k
        else None
    end in
  match min with
  | S _ => more
  | O => if greedy then orelse more (k s) else orelse (k s) more
  end.

(** The backtracking matcher, in continuation-passing style as in the
    language specification: [matcher ic r s caps k] matches [r] at the start
    of [s] and hands the rest to [k]; the first success wins. *)
Fixpoint matcher (ic : bool) (r : node) (s : jsstring) (caps : captures)
    (k : continuation) : result :=
  match r with
  | Empty => k s caps
  | Atom a =>
      match s with
      | c :: t => if atom_matches ic a c then k t caps else None
      | [] => None
      end
  | Seq r1 r2 =>
      matcher ic r1 s caps (fun s1 caps1 => matcher ic r2 s1 caps1 k)
  | Rep min greedy a =>
      repeat_matcher ic a greedy s min (fun s1 => k s1 caps)
  | Group n r1 =>
      matcher ic r1 s caps
        (fun s1 caps1 =>
           k s1 ((n, firstn (length s - length s1)%nat s) :: caps1))
  | Backref n =>
      match capture n caps with
      | None => k s caps
      | Some v =>
          match starts_with ic v s with
          | Some s1 => k s1 caps
          | None => None
          end
      end
  end.

(** A regular expression literal [/source/flags]; every pattern of the
    client carries the [g] flag. *)
Record regexp := { source : node; ignoreCase : bool }.

(** One match attempt at the start of [s]. *)
Definition exec_at (re : regexp) (s : jsstring) : result :=
  matcher (ignoreCase re) (source re) s [] (fun s1 caps1 => Some (s1, caps1)).

(** Replacement templates: literal text and [$n]. *)
Inductive template_item :=
| TText (t : jsstring)
| TGroup (n : nat).

Definition template := list template_item.

Definition substitute (tpl : template) (caps : captures) : jsstring :=
  flat_map (fun i =>
              match i with
              | TText t => t
              | TGroup n => match capture n caps with
                            | Some v => v
                            | None => []
                            end
              end) tpl.

(** [String.prototype.replace] with a global pattern: the matches are
    searched from left to right, each search starting where the previous
    match ended (one code unit further after an empty match); the text
    between matches is kept.  [skip] counts the code units of the current
    match that are still to be passed over. *)
Fixpoint replace_from (re : regexp) (tpl : template) (s : jsstring)
    (skip : nat) : jsstring :=
  match skip with
  | S n =>
      match s with
      | [] => []
      | _ :: t => replace_from re tpl t n
      end
  | O =>
      match exec_at re s with
      | Some (rest, caps) =>
          substitute tpl caps ++
          match s with
          | [] => []
          | c :: t =>
              match (length s - length rest)%nat with
              | O => c :: replace_from re tpl t 0
              | S n => replace_from re tpl t n
              end
          end
      | None =>
          match s with
          | [] => []
          | c :: t => c :: replace_from re tpl t 0
          end
      end
  end.

Definition replace (re : regexp) (tpl : template) (s : jsstring) : jsstring :=
  replace_from re tpl s 0.

(** Pattern syntax helpers. *)
Fixpoint seqs (rs : list node) : node :=
  match rs with
  | [] => Empty
  | [r] => r
  | r :: rest => Seq r (seqs rest)
  end.

Definition lit (s : string) : node :=
  seqs (map (fun c => Atom (AChar c)) (js s)).

Definition chr (s : string) : code_unit :=
  match js s with c :: _ => c | [] => 0 end.

End RegExp.

(** ** The HTML clean-up of [cleanHtmlContent] *)

Module Html.

Import RegExp.

Definition space : atom := AClass false [CSpace].                 (* \s *)
Definition any_char : atom := AClass false [CSpace; CNotSpace].   (* [\s\S] *)
(** The double quote (code unit 34) and the single quote (code unit 39). *)
Definition DQUOTE : code_unit := 34%N.
Definition SQUOTE : code_unit := 39%N.
(** The class of the two quote characters, and its complement. *)
Definition quote : atom := AClass false [CChar DQUOTE; CChar SQUOTE].
Definition not_quote : atom := AClass true [CChar DQUOTE; CChar SQUOTE].
Definition not_gt : atom := AClass true [CChar (chr ">")].        (* [^>] *)
Definition letter : atom :=                                       (* [a-z] *)
  AClass false [CRange (chr "a") (chr "z")].
Definition alnum : atom :=                                        (* [a-z0-9] *)
  AClass false [CRange (chr "a") (chr "z"); CRange (chr "0") (chr "9")].

Definition star (a : atom) : node := Rep 0 true a.
Definition plus (a : atom) : node := Rep 1 true a.
Definition lazy_star (a : atom) : node := Rep 0 false a.

(** [/<( [a-z][a-z0-9]* )[^>]*>\s*<\/\1>/gi] (the group is written with
    spaces here, the pattern has none). *)
Definition emptyTagPattern : regexp :=
  {| source :=
       seqs [lit "<"; Group 1 (Seq (Atom letter) (star alnum));
             star not_gt; lit ">"; star space; lit "</"; Backref 1; lit ">"];
     ignoreCase := true |}.

(** The attribute patterns: [\s+NAME=], a quote character (double or
    single), a group of [*]-repeated non-quote characters, a quote
    character; flags [gi]; NAME is one of style, id, class, target and
    border. *)
Definition attributePattern (name : string) : regexp :=
  {| source :=
       seqs [plus space; lit name; lit "="; Atom quote;
             Group 1 (star not_quote); Atom quote];
     ignoreCase := true |}.

Definition styleAttributePattern := attributePattern "style".
Definition idAttributePattern := attributePattern "id".
Definition classAttributePattern := attributePattern "class".
Definition targetAttributePattern := attributePattern "target".
Definition borderAttributePattern := attributePattern "border".

(** [/<NAME[^>]*>([\s\S]*?)<\/NAME>/gi], for NAME span and font. *)
Definition wrapperTagPattern (name : string) : regexp :=
  {| source :=
       seqs [lit "<"; lit name; star not_gt; lit ">";
             Group 1 (lazy_star any_char); lit "</"; lit name; lit ">"];
     ignoreCase := true |}.

Definition spanTagPattern := wrapperTagPattern "span".
Definition fontTagPattern := wrapperTagPattern "font".

(** [/\n\s*\n/g] *)
Definition multipleLineBreaksPattern : regexp :=
  {| source := seqs [Atom (AChar LF); star space; Atom (AChar LF)];
     ignoreCase := false |}.

(** [/<td>\s*<p>(.*?)<\/p>\s*<\/td>/gi] *)
Definition tableCellPattern : regexp :=
  {| source :=
       seqs [lit "<td>"; star space; lit "<p>"; Group 1 (lazy_star ADot);
             lit "</p>"; star space; lit "</td>"];
     ignoreCase := true |}.

(** The body of [cleanHtmlContent] after the guard, one [replace] per
    statement of the source. *)
Definition clean (html : jsstring) : jsstring :=
  let cleanedHtml := replace emptyTagPattern [] html in
  let cleanedHtml := replace styleAttributePattern [] cleanedHtml in
  let cleanedHtml := replace idAttributePattern [] cleanedHtml in
  let cleanedHtml := replace classAttributePattern [] cleanedHtml in
  let cleanedHtml := replace targetAttributePattern [] cleanedHtml in
  let cleanedHtml := replace borderAttributePattern [] cleanedHtml in
  let cleanedHtml := replace spanTagPattern [TGroup 1] cleanedHtml in
  let cleanedHtml := replace fontTagPattern [TGroup 1] cleanedHtml in
  let cleanedHtml :=
    replace multipleLineBreaksPattern [TText [LF]] cleanedHtml in
  let cleanedHtml :=
    replace tableCellPattern
      [TText (js "<td>"); TGroup 1; TText (js "</td>")] cleanedHtml in
  cleanedHtml.

End Html.

(** ** JavaScript values *)

(** The numbers the client computes with are integers (identifiers, page
    numbers, results of [parseInt]) and NaN.  [Int z] stands for the double
    of that value: it is one for the integers a double holds exactly,
    [safe_integer] below, and statements about numbers that are read or
    printed are made for those. *)
Inductive number :=
| NaN
| Int (z : Z).

(** Values: what [JSON.parse] yields, and [undefined].  An object is the
    list of its own properties in insertion order. *)
#[warnings="-register-all"] Inductive value :=
| VUndefined
| VNull
| VBool (b : bool)
| VNumber (n : number)
| VString (s : jsstring)
| VArray (elements : list value)
| VObject (properties : list (string * value)).

Definition object := list (string * value).

(** ToBoolean. *)
Definition truthy (v : value) : bool :=
  match v with
  | VUndefined | VNull => false
  | VBool b => b
  | VNumber NaN => false
  | VNumber (Int z) => negb (Z.eqb z 0)
  | VString [] => false
  | VString (_ :: _) => true
  | VArray _ | VObject _ => true
  end.

(** [a || b] *)
Definition or_else (a b : value) : value := if truthy a then a else b.

(** A destructuring default [{ x = d }]: [d] replaces [undefined] only. *)
Definition default_to (d v : value) : value :=
  match v with VUndefined => d | _ => v end.

(** The own property [name] of an object, [undefined] when it has none. *)
Fixpoint lookup (name : string) (o : object) : value :=
  match o with
  | [] => VUndefined
  | (k, v) :: rest => if String.eqb k name then v else lookup name rest
  end.

(** The names of the own properties. *)
Definition keys (o : object) : list string := map fst o.

(** [o.name = v] on an object: an existing property keeps its place. *)
Fixpoint assign (name : string) (v : value) (o : object) : object :=
  match o with
  | [] => [(name, v)]
  | (k, w) :: rest =>
      if String.eqb k name then (k, v) :: rest
      else (k, w) :: assign name v rest
  end.

(** Exceptions are values; [TypeError] stands for the error object the
    runtime throws when a property of [undefined] or [null] is read or a
    non-function is called. *)
Definition TypeError : value :=
  VObject [("name"%string, VString (js "TypeError"))].

(** A property read [v.name], for the property names the client uses (none
    of them exists on a primitive or an array). *)
Definition get_property (v : value) (name : string) : value + value :=
  match v with
  | VUndefined | VNull => inr TypeError
  | VObject o => inl (lookup name o)
  | _ => inl VUndefined
  end.

(** ToString of a number: decimal digits for an integer.  JavaScript
    prints the digits up to 1e21 and an exponent from there on, which
    [safe_integer] keeps away from. *)
Definition number_to_string (n : number) : jsstring :=
  match n with
  | NaN => js "NaN"
  | Int z => js (NilZero.string_of_int (Z.to_int z))
  end.

Fixpoint join (sep : jsstring) (parts : list jsstring) : jsstring :=
  match parts with
  | [] => []
  | [p] => p
  | p :: rest => p ++ sep ++ join sep rest
  end.

(** ToString, as a template literal applies it. *)
Fixpoint to_string (v : value) : jsstring :=
  match v with
  | VUndefined => js "undefined"
  | VNull => js "null"
  | VBool true => js "true"
  | VBool false => js "false"
  | VNumber n => number_to_string n
  | VString s => s
  | VArray elements =>
      join (js ",")
        (map (fun e => match e with
                       | VUndefined | VNull => []
                       | _ => to_string e
                       end) elements)
  | VObject _ => js "[object Object]"
  end.

(** ** [Number.parseInt] with no radix argument *)

Module ParseInt.

Local Open Scope Z_scope.

Fixpoint trim_start (s : jsstring) : jsstring :=
  match s with
  | c :: t => if RegExp.is_space c then trim_start t else s
  | [] => []
  end.

(** The value of a digit in the given radix. *)
Definition digit (radix : Z) (c : code_unit) : option Z :=
  let c := Z.of_N c in
  let d := if (48 <=? c) && (c <=? 57) then c - 48
           else if (97 <=? c) && (c <=? 122) then c - 87
           else if (65 <=? c) && (c <=? 90) then c - 55
           else radix in
  if d <? radix then Some d else None.

(** The longest prefix of digits, read from the left; [None] when the
    first character is not a digit. *)
Fixpoint digits (radix : Z) (s : jsstring) (acc : option Z) : option Z :=
  match s with
  | [] => acc
  | c :: t =>
      match digit radix c with
      | Some d =>
          digits radix t
            (Some (match acc with Some a => a * radix + d | None => d end))
      | None => acc
      end
  end.

(** A leading [-] (code unit 45) or [+] (code unit 43). *)
Definition strip_sign (s : jsstring) : Z * jsstring :=
  match s with
  | c :: t =>
      if N.eqb c 45 then (-1, t)
      else if N.eqb c 43 then (1, t)
      else (1, s)
  | [] => (1, s)
  end.

(** A leading [0x] or [0X] selects radix 16. *)
Definition strip_prefix (s : jsstring) : Z * jsstring :=
  match s with
  | c :: d :: t =>
      if N.eqb c 48 && (N.eqb d 120 || N.eqb d 88) then (16, t)
      else (10, s)
  | _ => (10, s)
  end.

(** [parseInt] of a string: the integer read, before it is rounded to a
    double; NaN when no digit is found.  The integer read is the result of
    JavaScript when it is a [safe_integer]; a larger one is rounded there
    to the nearest double, which this model does not do. *)
Definition parse (input : jsstring) : number :=
  let '(sign, s) := strip_sign (trim_start input) in
  let '(radix, s) := strip_prefix s in
  match digits radix s None with
  | Some n => Int (sign * n)
  | None => NaN
  end.

(** [Number.parseInt(v)] first converts [v] to a string. *)
Definition parseInt (v : value) : number := parse (to_string v).

End ParseInt.

(** ** Effects: the HTTP transport, the console and exceptions *)

Record auth := { username : jsstring; password : jsstring }.

(** What [axios.get(url, { params, auth })] is called with. *)
Record request := { url : jsstring; params : object; req_auth : auth }.

(** Console output: text, a value, or the JSON text of a value. *)
Inductive printed :=
| PText (s : jsstring)
| PValue (v : value)
| PJson (v : value).

Inductive console_entry :=
| ConsoleLog (args : list printed)
| ConsoleError (args : list printed).

(** The world a method runs in.  [transport n req] is what the [n]-th call
    of [axios.get] does with [req]: it resolves with the response data
    ([inl]) or rejects with an error ([inr]); the transport is the remote
    service and the HTTP library, which the client does not control. *)
Record world := {
  transport : nat -> request -> value + value;
  calls : list request;
  console : list console_entry
}.

(** A computation returns a value or throws, and changes the world. *)
Definition M (A : Type) : Type := world -> (A + value) * world.

Definition ret {A} (a : A) : M A := fun w => (inl a, w).

Definition throw {A} (e : value) : M A := fun w => (inr e, w).

Definition bind {A B} (m : M A) (f : A -> M B) : M B :=
  fun w => match m w with
           | (inl a, w1) => f a w1
           | (inr e, w1) => (inr e, w1)
           end.

(** [try { m } catch (error) { handler error }] *)
Definition try_catch {A} (m : M A) (handler : value -> M A) : M A :=
  fun w => match m w with
           | (inl a, w1) => (inl a, w1)
           | (inr e, w1) => handler e w1
           end.

(** A pure step that may throw. *)
Definition lift {A} (r : A + value) : M A :=
  match r with inl a => ret a | inr e => throw e end.

Declare Scope js_scope.
Delimit Scope js_scope with js.
Notation "x <- m ;; k" := (bind m (fun x => k))
  (at level 61, m at next level, right associativity) : js_scope.
Notation "m ;; k" := (bind m (fun _ => k))
  (at level 61, right associativity) : js_scope.
(** The same for a pure step that may throw. *)
Notation "x <-? r ;; k" :=
  (match r with inl x => k | inr e => inr e end)
  (at level 61, r at next level, right associativity) : js_scope.

Definition axios_get (req : request) : M value :=
  fun w =>
    (transport w (length (calls w)) req,
     {| transport := transport w;
        calls := calls w ++ [req];
        console := console w |}).

Definition console_write (e : console_entry) : M unit :=
  fun w =>
    (inl tt,
     {| transport := transport w;
        calls := calls w;
        console := console w ++ [e] |}).

(** [mapM f l]: [l.map(f)] for a callback that may throw. *)
Fixpoint map_throwing {A B} (f : A -> B + value) (l : list A)
    : list B + value :=
  match l with
  | [] => inl []
  | a :: rest =>
      match f a with
      | inr e => inr e
      | inl b =>
          match map_throwing f rest with
          | inr e => inr e
          | inl bs => inl (b :: bs)
          end
      end
  end.

(** ** The client *)

Module ZendeskClient.

Local Open Scope string_scope.
Local Open Scope list_scope.
Local Open Scope js_scope.

Record ZendeskConfig := {
  subdomain : jsstring;
  email : jsstring;
  apiToken : jsstring;
  defaultLocale : option jsstring      (* defaultLocale?: string *)
}.

(** The private fields of a [ZendeskClient]. *)
Record t := {
  baseUrl : jsstring;
  config : ZendeskConfig;
  this_defaultLocale : jsstring
}.

Definition constructor (config : ZendeskConfig) : t :=
  {| config := config;
     baseUrl :=
       js "https://" ++ subdomain config ++
       js ".zendesk.com/api/v2/help_center";
     this_defaultLocale :=
       match defaultLocale config with
       | Some (c :: l) => c :: l
       | Some [] | None => js "en"          (* config.defaultLocale || "en" *)
       end |}.

(** The argument of [axios.get] in [makeRequest]. *)
Definition request_of (this : t) (url : jsstring) (params : object)
    : request :=
  {| url := url;
     params := params;
     req_auth := {| username := email (config this) ++ js "/token";
                    password := apiToken (config this) |} |}.

Definition makeRequest (this : t) (url : jsstring) (params : object)
    : M value :=
  try_catch
    (data <- axios_get (request_of this url params) ;;
     ret data)
    (fun error =>
       console_write
         (ConsoleError [PText (js "Request error:"); PValue error]) ;;
       throw error).

(** [cleanHtmlContent(html)]: the guard [if (!html) return html] returns a
    falsy argument as it is; [html.replace] exists on strings only. *)
Definition cleanHtmlContent (html : value) : value + value :=
  if negb (truthy html) then inl html
  else match html with
       | VString s => inl (VString (Html.clean s))
       | _ => inr TypeError
       end.

(** The eight properties both object literals start with: each property is
    defined, with [undefined] when the article does not have it; reading a
    property of [undefined] or [null] throws. *)
Definition filteredFields (article : value) : object + value :=
  id <-? get_property article "id" ;;
  url <-? get_property article "url" ;;
  html_url <-? get_property article "html_url" ;;
  author_id <-? get_property article "author_id" ;;
  created_at <-? get_property article "created_at" ;;
  updated_at <-? get_property article "updated_at" ;;
  title <-? get_property article "title" ;;
  label_names <-? get_property article "label_names" ;;
  inl [("id", id); ("url", url); ("html_url", html_url);
       ("author_id", author_id); ("created_at", created_at);
       ("updated_at", updated_at); ("title", title);
       ("label_names", label_names)].

(** The callback of [data.results.map] in [searchArticles]. *)
Definition filterSearchResult (article : value) : value + value :=
  filteredArticle <-? filteredFields article ;;
  inl (VObject filteredArticle).

(** The arguments of [searchArticles]; an omitted property reads as
    [undefined]. *)
Record search_params := {
  query : value;
  locale : value;
  page : value;
  per_page : value
}.

Definition search_request (this : t) (p : search_params) : request :=
  let locale := default_to (VString (this_defaultLocale this)) (locale p) in
  let page := default_to (VNumber (Int 1)) (page p) in
  let per_page := default_to (VNumber (Int 20)) (per_page p) in
  let searchUrl := baseUrl this ++ js "/articles/search.json" in
  request_of this searchUrl
    [("query", query p); ("locale", locale); ("page", page);
     ("per_page", per_page)].

Definition searchArticles (this : t) (p : search_params) : M value :=
  let req := search_request this p in
  data <- makeRequest this (url req) (params req) ;;
  results <- lift (get_property data "results") ;;
  match results, data with
  | VArray articles, VObject o =>
      filtered <- lift (map_throwing filterSearchResult articles) ;;
      ret (VObject (assign "results" (VArray filtered) o))
  | _, _ => ret data
  end.

Record article_params := {
  id : value;
  article_locale : value
}.

Definition article_request (this : t) (p : article_params) : request :=
  let locale :=
    default_to (VString (this_defaultLocale this)) (article_locale p) in
  let articleUrl :=
    baseUrl this ++ js "/articles/" ++ to_string (id p) ++ js ".json" in
  request_of this articleUrl [("locale", locale)].

(** The object literal of [getArticle]. *)
Definition filterArticle (article : value) : value + value :=
  fields <-? filteredFields article ;;
  body <-? get_property article "body" ;;
  cleaned <-? cleanHtmlContent body ;;
  inl (VObject (fields ++ [("body", cleaned)])).

Definition getArticle (this : t) (p : article_params) : M value :=
  let req := article_request this p in
  data <- makeRequest this (url req) (params req) ;;
  article <- lift (get_property data "article") ;;
  match truthy article, data with
  | true, VObject o =>
      filtered <- lift (filterArticle article) ;;
      ret (VObject (assign "article" filtered o))
  | _, _ => ret data
  end.

(** *** [chatLoop]: one command of the console *)

(** [toLowerCase]; only the ASCII letters matter for the comparison with
    the command words. *)
Definition toLowerCase (s : jsstring) : jsstring := map RegExp.to_lower s.

(** [input.split(" ")] *)
Fixpoint split (input : jsstring) : list jsstring :=
  match input with
  | [] => [[]]
  | c :: t =>
      if N.eqb c 32 then [] :: split t
      else match split t with
           | first :: rest => (c :: first) :: rest
           | [] => [[c]]
           end
  end.

(** [parts[i]] *)
Definition part (parts : list jsstring) (i : nat) : value :=
  match nth_error parts i with
  | Some p => VString p
  | None => VUndefined
  end.

(** The arguments the [search] command passes to [searchArticles]. *)
Definition chat_search_params (this : t) (parts : list jsstring)
    : search_params :=
  {| query := part parts 1;
     locale := or_else (part parts 2) (VString (this_defaultLocale this));
     page :=
       or_else (VNumber (ParseInt.parseInt (part parts 3)))
               (VNumber (Int 1));
     per_page :=
       or_else (VNumber (ParseInt.parseInt (part parts 4)))
               (VNumber (Int 20)) |}.

(** The arguments the [article] command passes to [getArticle]. *)
Definition chat_article_params (this : t) (parts : list jsstring)
    : article_params :=
  {| id := VNumber (ParseInt.parseInt (part parts 1));
     article_locale :=
       or_else (part parts 2) (VString (this_defaultLocale this)) |}.

Inductive next_step :=
| AskQuestion        (* the loop prompts again *)
| Close.             (* rl.close() *)

(** The body of the [rl.question] callback for one line of input. *)
Definition handle_input (this : t) (input : jsstring) : M next_step :=
  try_catch
    (if jseqb (toLowerCase input) (js "quit") then ret Close
     else
       let parts := split input in
       let command := toLowerCase (hd [] parts) in
       (if jseqb command (js "search") then
          if Nat.ltb (length parts) 2 then
            console_write
              (ConsoleLog
                 [PText (js "Usage: search <keyword> [locale] [page] [per_page]")])
          else
            results <- searchArticles this (chat_search_params this parts) ;;
            console_write (ConsoleLog [PJson results])
        else if jseqb command (js "article") then
          if Nat.ltb (length parts) 2 then
            console_write
              (ConsoleLog [PText (js "Usage: article <articleID> [locale]")])
          else
            article <- getArticle this (chat_article_params this parts) ;;
            console_write (ConsoleLog [PJson article])
        else
          console_write
            (ConsoleLog
               [PText
                  (js "Unknown command. Available commands: search, article, quit")])) ;;
       ret AskQuestion)
    (fun error =>
       console_write (ConsoleError [PText (LF :: js "Error:"); PValue error]) ;;
       ret AskQuestion).

End ZendeskClient.

(** * Vocabulary of the statements *)

Import ZendeskClient.
Local Open Scope string_scope.
Local Open Scope list_scope.

(** The allow-list of the field projection. *)
Definition allowList : list string :=
  ["id"; "url"; "html_url"; "author_id"; "created_at"; "updated_at";
   "title"; "label_names"].

(** The claim on the search projection as it is worded: the field set of
    the output is the set of allow-listed fields present in R, and holds no
    body. *)
Definition keeps_present_fields_only (R : object) : Prop :=
  forall out,
    filterSearchResult (VObject R) = inl (VObject out) ->
    (forall name, In name (keys out) <-> In name allowList /\ In name (keys R))
    /\ ~ In "body" (keys out).

Definition omitted (q : value) : search_params :=
  {| query := q; locale := VUndefined; page := VUndefined;
     per_page := VUndefined |}.

(** A configuration and a transport that fails every call, to run the
    statements on. *)
Definition example_config : ZendeskConfig :=
  {| subdomain := js "acme"; email := js "agent@acme.test";
     apiToken := js "secret"; defaultLocale := Some (js "ja") |}.

Definition network_error : value :=
  VObject [("message", VString (js "Network Error"))].

Definition failing_world : world :=
  {| transport := fun _ _ => inr network_error; calls := []; console := [] |}.


(** A transport that answers every call with [data], and two payloads of
    the shape the Help Center API returns. *)
Definition answering_world (data : value) : world :=
  {| transport := fun _ _ => inl data; calls := []; console := [] |}.

Definition example_hit : object :=
  [("id", VNumber (Int 7)); ("title", VString (js "Billing"));
   ("vote_sum", VNumber (Int 3))].

Definition example_page : object :=
  [("count", VNumber (Int 1)); ("results", VArray [VObject example_hit]);
   ("next_page", VNull)].

Definition example_article : object :=
  [("id", VNumber (Int 7)); ("body", VString (js "<p></p>Hello"))].

Definition example_reply : object :=
  [("article", VObject example_article)].

Definition example_id : article_params :=
  {| id := VNumber (Int 7); article_locale := VUndefined |}.


(** ** Matches, declaratively *)

Module Match.

Import RegExp.

(** [test re s]: the pattern matches somewhere in [s]. *)
Fixpoint test (re : regexp) (s : jsstring) : bool :=
  match exec_at re s with
  | Some _ => true
  | None =>
      match s with
      | [] => false
      | _ :: t => test re t
      end
  end.

(** Two texts that a case-insensitive back-reference identifies. *)
Definition canon_eq (ic : bool) (v w : jsstring) : Prop :=
  map (canonicalize ic) v = map (canonicalize ic) w.

(** [matches ic r caps w caps']: the node [r] can match exactly the text
    [w], turning the captures [caps] into [caps'].  The relation says which
    matches exist, not which one the backtracking matcher finds first. *)
Inductive matches (ic : bool) : node -> captures -> jsstring -> captures -> Prop :=
| MEmpty caps : matches ic Empty caps [] caps
| MAtom a c caps :
    atom_matches ic a c = true -> matches ic (Atom a) caps [c] caps
| MSeq r1 r2 caps w1 caps1 w2 caps2 :
    matches ic r1 caps w1 caps1 ->
    matches ic r2 caps1 w2 caps2 ->
    matches ic (Seq r1 r2) caps (w1 ++ w2) caps2
| MRep min greedy a caps w :
    Forall (fun c => atom_matches ic a c = true) w ->
    min <= length w ->
    matches ic (Rep min greedy a) caps w caps
| MGroup n r caps w caps1 :
    matches ic r caps w caps1 ->
    matches ic (Group n r) caps w ((n, w) :: caps1)
| MBackrefUndefined n caps :
    capture n caps = None -> matches ic (Backref n) caps [] caps
| MBackref n caps v w :
    capture n caps = Some v -> canon_eq ic v w ->
    matches ic (Backref n) caps w caps.

(** One more repetition of the atom, as [repeat_matcher] tries it. *)
Definition one_more (ic : bool) (a : atom) (greedy : bool) (c : code_unit)
    (t : jsstring) (min : nat) (k : jsstring -> result) : result :=
  if atom_matches ic a c
  then repeat_matcher ic a greedy t (Nat.pred min) k else None.

(** The least number of code units a match of [r] takes. *)
Fixpoint min_length (r : node) : nat :=
  match r with
  | Empty => 0
  | Atom _ => 1
  | Seq r1 r2 => min_length r1 + min_length r2
  | Rep min _ _ => min
  | Group _ r1 => min_length r1
  | Backref _ => 0
  end.

(** The text of a template without group references. *)
Fixpoint template_text (tpl : template) : option jsstring :=
  match tpl with
  | [] => Some []
  | TText t :: rest =>
      match template_text rest with
      | Some u => Some (t ++ u)
      | None => None
      end
  | TGroup _ :: _ => None
  end.

(** [first_char c r]: every match of [r] begins with the pattern character
    [c]. *)
Fixpoint first_char (c : code_unit) (r : node) : bool :=
  match r with
  | Atom (AChar x) => N.eqb x c
  | Seq r1 _ => first_char c r1
  | Group _ r1 => first_char c r1
  | _ => false
  end.

(** [squeezed x y]: [y] is [x] with some runs "line feed, white space, line
    feed" replaced by one line feed each. *)
Inductive squeezed : jsstring -> jsstring -> Prop :=
| squeezed_nil : squeezed [] []
| squeezed_keep c x y : squeezed x y -> squeezed (c :: x) (c :: y)
| squeezed_run w x y :
    Forall (fun c => is_space c = true) w ->
    squeezed x y ->
    squeezed (LF :: w ++ LF :: x) (LF :: y).

(** No match of [r] holds a line feed. *)
Fixpoint lf_free (ic : bool) (r : node) : Prop :=
  match r with
  | Empty => True
  | Atom a => atom_matches ic a LF = false
  | Seq r1 r2 => lf_free ic r1 /\ lf_free ic r2
  | Rep _ _ a => atom_matches ic a LF = false
  | Group _ r1 => lf_free ic r1
  | Backref _ => False
  end.

Definition absorbs_space (ic : bool) (a : atom) : Prop :=
  forall c, is_space c = true -> atom_matches ic a c = true.

(** [stable ic G r]: the shape of a pattern whose matches survive the
    widening of blank-line runs: single atoms do not match a line feed,
    repeated atoms match every white space or no line feed, and a
    back-reference points to a group of [G], whose matches hold no line
    feed. *)
Fixpoint stable (ic : bool) (G : nat -> bool) (r : node) : Prop :=
  match r with
  | Empty => True
  | Atom a => atom_matches ic a LF = false
  | Seq r1 r2 => stable ic G r1 /\ stable ic G r2
  | Rep _ _ a => absorbs_space ic a \/ atom_matches ic a LF = false
  | Group n r1 => stable ic G r1 /\ (G n = true -> lf_free ic r1)
  | Backref n => G n = true
  end.

(** Captures that agree on the groups of [G], which hold no line feed. *)
Definition captures_agree (G : nat -> bool) (cx cy : captures) : Prop :=
  forall n, G n = true ->
    capture n cx = capture n cy /\
    forall v, capture n cy = Some v -> ~ In LF v.

(** [blank_prefix s]: [s] begins with white space up to a line feed. *)
Definition blank_prefix (s : jsstring) : Prop :=
  exists w t, Forall (fun c => is_space c = true) w /\ s = w ++ LF :: t.

End Match.

(** ** Vocabulary of the statements on [cleanHtmlContent] *)

Import RegExp Match Html.

(** No pattern of the list matches anywhere in [x]. *)
Definition free_of (patterns : list regexp) (x : jsstring) : bool :=
  forallb (fun re => negb (test re x)) patterns.

Definition attributePatterns : list regexp :=
  [styleAttributePattern; idAttributePattern; classAttributePattern;
   targetAttributePattern; borderAttributePattern].

(** Free of style/id/class/target/border attributes and of span/font
    wrapper tags. *)
Definition presentationPatterns : list regexp :=
  attributePatterns ++ [spanTagPattern; fontTagPattern].

(** Free, moreover, of tag pairs with white space only and of paragraphs
    that wrap a table cell. *)
Definition markupPatterns : list regexp :=
  emptyTagPattern :: presentationPatterns ++ [tableCellPattern].

(** One application reaches a fixed point at [x]. *)
Definition idempotent_at (x : jsstring) : Prop :=
  exists y,
    cleanHtmlContent (VString x) = inl y /\ cleanHtmlContent y = inl y.

(** The double quote as a string. *)
Definition dq : jsstring := [DQUOTE].

(** The characters [>] and [/]. *)
Definition GT : code_unit := 62%N.
Definition SLASH : code_unit := 47%N.

(** A tag name: an ASCII letter, then ASCII letters and digits. *)
Definition is_tag_name (name : jsstring) : bool :=
  match name with
  | c :: rest =>
      atom_matches true letter c && forallb (atom_matches true alnum) rest
  | [] => false
  end.

(** The text [<name attrs>ws</closing>]. *)
Definition tag_pair (name attrs ws closing : jsstring) : jsstring :=
  LT :: name ++ attrs ++ GT :: ws ++ LT :: SLASH :: closing ++ [GT].

(** ** The tool server (index.ts) *)

Module Server.

Local Open Scope string_scope.
Local Open Scope list_scope.
Local Open Scope js_scope.

(** [process.env]: a variable is a string or is not set. *)
Definition env := string -> option jsstring.

(** [process.env.NAME || fallback] *)
Definition env_or (v : option jsstring) (fallback : jsstring) : jsstring :=
  match v with
  | Some (c :: l) => c :: l
  | Some [] | None => fallback
  end.

Definition is_empty (s : jsstring) : bool :=
  match s with [] => true | _ :: _ => false end.

(** The constants of the module once it has started. *)
Record t := {
  DEFAULT_LOCALE : jsstring;
  zendeskClient : ZendeskClient.t
}.

Inductive startup :=
| Exit (code : Z) (message : console_entry)     (* process.exit(code) *)
| Running (server : t).

(** The top of index.ts: the configuration is read from the environment,
    the process exits when a credential is missing, the client is built. *)
Definition start (e : env) : startup :=
  let subdomain := env_or (e "ZENDESK_SUBDOMAIN") [] in
  let email := env_or (e "ZENDESK_EMAIL") [] in
  let apiToken := env_or (e "ZENDESK_API_TOKEN") [] in
  let DEFAULT_LOCALE := env_or (e "DEFAULT_LOCALE") (js "en") in
  if is_empty subdomain || is_empty email || is_empty apiToken then
    Exit 1
      (ConsoleError
         [PText (js "Environment variables are not set. Please check your .env file.")])
  else
    Running
      {| DEFAULT_LOCALE := DEFAULT_LOCALE;
         zendeskClient :=
           ZendeskClient.constructor
             {| ZendeskClient.subdomain := subdomain;
                ZendeskClient.email := email;
                ZendeskClient.apiToken := apiToken;
                ZendeskClient.defaultLocale := Some DEFAULT_LOCALE |} |}.

(** The text of a tool result: [JSON.stringify(v, null, 2)] or the template
    literal [`prefix${v}`]. *)
Inductive tool_text :=
| JsonText (v : value)
| TemplateText (prefix : jsstring) (v : value).

(** [{ type: "text", text }] *)
Record content_item := { type : jsstring; text : tool_text }.

(** [{ content: [...] }] *)
Record tool_result := { content : list content_item }.

(** The handler of the [searchArticles] tool, called with arguments the
    schema has accepted. *)
Definition searchArticlesTool (server : t) (args : ZendeskClient.search_params)
    : M tool_result :=
  let query := ZendeskClient.query args in
  let locale :=
    default_to (VString (DEFAULT_LOCALE server)) (ZendeskClient.locale args) in
  let page := default_to (VNumber (Int 1)) (ZendeskClient.page args) in
  let per_page := default_to (VNumber (Int 20)) (ZendeskClient.per_page args) in
  try_catch
    (data <- ZendeskClient.searchArticles (zendeskClient server)
               {| ZendeskClient.query := query;
                  ZendeskClient.locale := locale;
                  ZendeskClient.page := page;
                  ZendeskClient.per_page := per_page |} ;;
     ret {| content := [{| type := js "text"; text := JsonText data |}] |})
    (fun error =>
       ret {| content :=
                [{| type := js "text";
                    text := TemplateText (js "Search error: ") error |}] |}).

(** The handler of the [getArticle] tool. *)
Definition getArticleTool (server : t) (args : ZendeskClient.article_params)
    : M tool_result :=
  let id := ZendeskClient.id args in
  let locale :=
    default_to (VString (DEFAULT_LOCALE server))
      (ZendeskClient.article_locale args) in
  try_catch
    (data <- ZendeskClient.getArticle (zendeskClient server)
               {| ZendeskClient.id := id;
                  ZendeskClient.article_locale := locale |} ;;
     ret {| content := [{| type := js "text"; text := JsonText data |}] |})
    (fun error =>
       ret {| content :=
                [{| type := js "text";
                    text := TemplateText (js "Article retrieval error: ")
                              error |}] |}).

End Server.

(** ** Vocabulary of the further statements *)

(** The ten patterns of [cleanHtmlContent], in the order they are applied. *)
Definition cleanPatterns : list RegExp.regexp :=
  [emptyTagPattern; styleAttributePattern; idAttributePattern;
   classAttributePattern; targetAttributePattern; borderAttributePattern;
   spanTagPattern; fontTagPattern; multipleLineBreaksPattern;
   tableCellPattern].

(** The credentials every request of a client carries. *)
Definition credentials (this : ZendeskClient.t) : auth :=
  {| username := email (config this) ++ js "/token";
     password := apiToken (config this) |}.

(** A world that has made the calls of [w] and [more], and written [out]
    after the console output of [w]. *)
Definition extends (w w1 : world) (more : list request)
    (out : list console_entry) : Prop :=
  transport w1 = transport w /\
  calls w1 = calls w ++ more /\
  console w1 = console w ++ out.

(** What may follow the digits of a number for [parseInt] to stop there:
    nothing, or a character that is neither a decimal digit nor [x] or [X]
    (which after a lone 0 would announce a hexadecimal number). *)
Definition ends_number (rest : jsstring) : Prop :=
  match rest with
  | [] => True
  | c :: _ => ParseInt.digit 10 c = None /\ c <> 120%N /\ c <> 88%N
  end.

(** The integers a JavaScript number holds exactly. *)
Definition safe_integer (z : Z) : Prop :=
  (Z.abs z <= 9007199254740991)%Z.

(** What [parseInt] returns in JavaScript as it does here: NaN, or an
    integer that needs no rounding. *)
Definition read_exactly (n : number) : Prop :=
  match n with
  | NaN => True
  | Int z => safe_integer z
  end.

(** A transport that rejects the search request and answers every other
    one. *)
Definition search_only_fails : world :=
  {| transport := fun _ r =>
       if jseqb (url r)
            (js "https://acme.zendesk.com/api/v2/help_center/articles/search.json")
       then inr network_error
       else inl (VObject example_reply);
     calls := []; console := [] |}.

(** An environment variable that is set to a text that is not empty. *)
Definition set_to (v : option jsstring) (s : jsstring) : Prop :=
  v = Some s /\ s <> [].

(** An environment with the three credentials and no default locale. *)
Definition example_env : Server.env :=
  fun name =>
    if String.eqb name "ZENDESK_SUBDOMAIN" then Some (js "acme")
    else if String.eqb name "ZENDESK_EMAIL" then Some (js "agent@acme.test")
    else if String.eqb name "ZENDESK_API_TOKEN" then Some (js "secret")
    else None.

(** The result of a tool for the outcome of the operation it calls. *)
Definition tool_outcome (prefix : jsstring) (outcome : value + value)
    : Server.tool_result :=
  {| Server.content :=
       [{| Server.type := js "text";
           Server.text :=
             match outcome with
             | inl data => Server.JsonText data
             | inr error => Server.TemplateText prefix error
             end |}] |}.

(** The replacements of [clean], in order: each pattern with its template. *)
Definition cleanSteps : list (RegExp.regexp * RegExp.template) :=
  [(emptyTagPattern, []);
   (styleAttributePattern, []); (idAttributePattern, []);
   (classAttributePattern, []); (targetAttributePattern, []);
   (borderAttributePattern, []);
   (spanTagPattern, [TGroup 1]); (fontTagPattern, [TGroup 1]);
   (multipleLineBreaksPattern, [TText [LF]]);
   (tableCellPattern, [TText (js "<td>"); TGroup 1; TText (js "</td>")])].

(** A sequence of replacements, each applied to the result of the one
    before. *)
Definition run (steps : list (RegExp.regexp * RegExp.template))
    (s : jsstring) : jsstring :=
  fold_left (fun text step => replace (fst step) (snd step) text) steps s.

(** A replacement whose every match is longer than what replaces it. *)
Definition shrinking (step : RegExp.regexp * RegExp.template) : Prop :=
  1 <= min_length (source (fst step)) /\
  forall w caps,
    matches (ignoreCase (fst step)) (source (fst step)) [] w caps ->
    length (substitute (snd step) caps) < length w.

(** The character [=]. *)
Definition EQUALS : code_unit := 61%N.

(** Content that no rule of [cleanHtmlContent] touches on its own: no [<],
    no [=] and no line terminator in it, and a character that is not white
    space. *)
Definition plain (content : jsstring) : bool :=
  forallb (fun c => negb (N.eqb c LT) && negb (N.eqb c EQUALS)
                    && negb (is_line_terminator c)) content
  && existsb (fun c => negb (is_space c)) content.

(** White space with at most one line feed: a line break and the
    indentation between two tags. *)
Definition padding (ws : jsstring) : bool :=
  forallb is_space ws && Nat.leb (count_occ N.eq_dec ws LF) 1.

(** A table cell whose content is one paragraph. *)
Definition table_cell (before content after : jsstring) : jsstring :=
  js "<td>" ++ before ++ js "<p>" ++ content ++ js "</p>" ++ after ++
  js "</td>".

(** A span with the class and style attributes of the example of the
    specification around [content]. *)
Definition span_wrapper (content : jsstring) : jsstring :=
  js "<span class=" ++ dq ++ js "x" ++ dq ++ js " style=" ++ dq ++
  js "color:red" ++ dq ++ js ">" ++ content ++ js "</span>".
(** * Properties *)

Example parseInt_abc : ParseInt.parseInt (VString (js "abc")) = NaN.
Proof. reflexivity. Qed.

Example parseInt_12px : ParseInt.parseInt (VString (js " -12px")) = Int (-12).
Proof. reflexivity. Qed.

Example parseInt_hex : ParseInt.parseInt (VString (js "0x1f")) = Int 31.
Proof. reflexivity. Qed.

Example parseInt_undefined : ParseInt.parseInt VUndefined = NaN.
Proof. reflexivity. Qed.


(** ** Field projection *)

Lemma filteredFields_object (R : object) :
  filteredFields (VObject R) =
  inl (map (fun name => (name, lookup name R)) allowList).
Proof. reflexivity. Qed.

(** C1 as it is worded fails for an article that lacks an allow-listed
    field: the object literal defines all eight properties whatever the
    article holds. *)
Lemma search_projection_keeps_missing_fields :
  ~ keeps_present_fields_only [("id", VNumber (Int 1))].
Proof.
  intros H. destruct (H _ eq_refl) as [H1 _].
  destruct (H1 "title") as [H2 _].
  destruct H2 as [_ [H2|[]]].
  - simpl. tauto.
  - discriminate H2.
Qed.

(** C1 (as amended): for every raw article R the search projection is an
    object whose field set is exactly the eight allow-listed fields, in the
    order of the literal; each field holds what reading it from R gives
    (the value R has, [undefined] when R has no such field); body is not
    in the field set. *)
Theorem search_projection_fields (R : object) :
  exists out,
    filterSearchResult (VObject R) = inl (VObject out) /\
    keys out = allowList /\
    Forall (fun name => lookup name out = lookup name R) allowList /\
    ~ In "body" (keys out).
Proof.
  eexists. split; [reflexivity|]. split; [reflexivity|]. split.
  - repeat constructor.
  - simpl. intros H.
    repeat (destruct H as [H|H]; [discriminate H|]). exact H.
Qed.

(** C2: for every raw article R, [getArticle]'s object literal either
    yields an object whose body is [cleanHtmlContent] of R's body and whose
    eight allow-listed fields are read from R unchanged, or throws what
    [cleanHtmlContent] throws on R's body. *)
Theorem article_projection_body (R : object) :
  match filterArticle (VObject R) with
  | inl out =>
      exists o,
        out = VObject o /\
        cleanHtmlContent (lookup "body" R) = inl (lookup "body" o) /\
        Forall (fun name => lookup name o = lookup name R) allowList /\
        keys o = allowList ++ ["body"]
  | inr e => cleanHtmlContent (lookup "body" R) = inr e
  end.
Proof.
  unfold filterArticle. rewrite filteredFields_object.
  cbn [get_property].
  destruct (cleanHtmlContent (lookup "body" R)) as [cleaned|e]; [|reflexivity].
  eexists. split; [reflexivity|]. split; [reflexivity|]. split.
  - repeat constructor.
  - reflexivity.
Qed.

(** The projection succeeds whenever R's body is a string or is missing, as
    the type of a raw article says. *)
Lemma article_projection_total (R : object) :
  (lookup "body" R = VUndefined \/ exists s, lookup "body" R = VString s) ->
  exists o, filterArticle (VObject R) = inl (VObject o).
Proof.
  intros H. unfold filterArticle. rewrite filteredFields_object.
  cbn [get_property].
  destruct H as [H|[s H]]; rewrite H.
  - eexists; reflexivity.
  - destruct s; eexists; reflexivity.
Qed.

(** [searchArticles] applies the search projection to every member of
    [results], and [getArticle] the article projection to [article]. *)
Lemma searchArticles_projects (this : t) (p : search_params) (w : world)
    (o : object) (articles : list value) :
  transport w (length (calls w)) (search_request this p) = inl (VObject o) ->
  lookup "results" o = VArray articles ->
  fst (searchArticles this p w) =
  match map_throwing filterSearchResult articles with
  | inl filtered => inl (VObject (assign "results" (VArray filtered) o))
  | inr e => inr e
  end.
Proof.
  intros Ht Hr.
  unfold searchArticles, makeRequest, bind, try_catch, axios_get, ret, lift.
  cbn -[search_request].
  change (request_of this (url (search_request this p))
            (params (search_request this p)))
    with (search_request this p).
  rewrite Ht. cbn -[search_request]. rewrite Hr.
  destruct (map_throwing filterSearchResult articles); reflexivity.
Qed.

Lemma getArticle_projects (this : t) (p : article_params) (w : world)
    (o : object) (article : value) :
  transport w (length (calls w)) (article_request this p) = inl (VObject o) ->
  lookup "article" o = article ->
  truthy article = true ->
  fst (getArticle this p w) =
  match filterArticle article with
  | inl filtered => inl (VObject (assign "article" filtered o))
  | inr e => inr e
  end.
Proof.
  intros Ht Ha Hy.
  unfold getArticle, makeRequest, bind, try_catch, axios_get, ret, lift.
  cbn -[article_request filterArticle].
  change (request_of this (url (article_request this p))
            (params (article_request this p)))
    with (article_request this p).
  rewrite Ht. cbn -[article_request filterArticle]. rewrite Ha, Hy.
  destruct (filterArticle article); reflexivity.
Qed.

(** ** Requests *)

(** C6: [searchArticles({query: q})] builds the request to
    [{base}/articles/search.json] with query = q, locale = the default
    locale of the client, page = 1, per_page = 20 and Basic auth
    [{email}/token] with the API token; this is the request the method
    issues; the default locale is the configured one, or "en" when none is
    configured. *)
Theorem search_request_defaults (cfg : ZendeskConfig) (q : value) :
  let this := constructor cfg in
  search_request this (omitted q) =
    {| url := js "https://" ++ subdomain cfg ++
              js ".zendesk.com/api/v2/help_center" ++
              js "/articles/search.json";
       params := [("query", q);
                  ("locale", VString (this_defaultLocale this));
                  ("page", VNumber (Int 1));
                  ("per_page", VNumber (Int 20))];
       req_auth := {| username := email cfg ++ js "/token";
                      password := apiToken cfg |} |}
  /\ (forall w,
        calls (snd (searchArticles this (omitted q) w)) =
        calls w ++ [search_request this (omitted q)])
  /\ this_defaultLocale this =
       match defaultLocale cfg with
       | Some [] | None => js "en"
       | Some configured => configured
       end.
Proof.
  intros this. split; [|split].
  - unfold search_request, request_of. cbn. rewrite <- !app_assoc. reflexivity.
  - intros w. unfold searchArticles, makeRequest, bind, try_catch, axios_get.
    cbn -[search_request get_property].
    destruct (transport w (length (calls w)) _) as [data|e]; cbn -[search_request].
    + destruct data; cbn -[search_request]; try reflexivity.
      destruct (lookup "results" properties); cbn -[search_request];
        try reflexivity.
      destruct (map_throwing filterSearchResult elements); reflexivity.
    + reflexivity.
  - cbn. destruct (defaultLocale cfg) as [[|c l]|]; reflexivity.
Qed.

(** C5: when the transport rejects the call of [searchArticles] with an
    error, [searchArticles] throws that same error, and when it rejects the
    call of [getArticle], [getArticle] throws that same error, each
    whatever happens to any other call; exactly one call has been issued,
    the error has been written to the console, and nothing is returned. *)
Theorem request_failure_propagates (this : t) (w : world) (error : value)
    (ps : search_params) (pa : article_params) :
  (transport w (length (calls w)) (search_request this ps) = inr error ->
   searchArticles this ps w =
     (inr error,
      {| transport := transport w;
         calls := calls w ++ [search_request this ps];
         console := console w ++
           [ConsoleError [PText (js "Request error:"); PValue error]] |}))
  /\
  (transport w (length (calls w)) (article_request this pa) = inr error ->
   getArticle this pa w =
     (inr error,
      {| transport := transport w;
         calls := calls w ++ [article_request this pa];
         console := console w ++
           [ConsoleError [PText (js "Request error:"); PValue error]] |})).
Proof.
  split.
  - intros Hs.
    unfold searchArticles, makeRequest, bind, try_catch, axios_get,
      console_write, throw.
    cbn -[search_request].
    change (request_of this (url (search_request this ps))
              (params (search_request this ps)))
      with (search_request this ps).
    rewrite Hs. reflexivity.
  - intros Ha.
    unfold getArticle, makeRequest, bind, try_catch, axios_get,
      console_write, throw.
    cbn -[article_request].
    change (request_of this (url (article_request this pa))
              (params (article_request this pa)))
      with (article_request this pa).
    rewrite Ha. reflexivity.
Qed.

Lemma request_failure_propagates_witness :
  (searchArticles (constructor example_config)
     (omitted (VString (js "billing"))) search_only_fails =
     (inr network_error,
      {| transport := transport search_only_fails;
         calls := [search_request (constructor example_config)
                     (omitted (VString (js "billing")))];
         console :=
           [ConsoleError [PText (js "Request error:");
                          PValue network_error]] |})
   /\
   exists data,
     fst (getArticle (constructor example_config)
            {| id := VNumber (Int 999); article_locale := VUndefined |}
            search_only_fails) = inl data)
  /\
  getArticle (constructor example_config)
    {| id := VNumber (Int 999); article_locale := VUndefined |}
    failing_world =
    (inr network_error,
     {| transport := transport failing_world;
        calls := [article_request (constructor example_config)
                    {| id := VNumber (Int 999);
                       article_locale := VUndefined |}];
        console :=
          [ConsoleError [PText (js "Request error:");
                         PValue network_error]] |}).
Proof.
  split; [split|].
  - exact (proj1 (request_failure_propagates (constructor example_config)
                    search_only_fails network_error
                    (omitted (VString (js "billing")))
                    {| id := VNumber (Int 999); article_locale := VUndefined |})
             eq_refl).
  - eexists. vm_compute. reflexivity.
  - exact (proj2 (request_failure_propagates (constructor example_config)
                    failing_world network_error
                    (omitted (VString (js "billing")))
                    {| id := VNumber (Int 999); article_locale := VUndefined |})
             eq_refl).
Defined.

(** ** The page and per_page fallback *)

(** A word whose first character is neither white space, a sign nor a
    decimal digit has no integer to read. *)
Lemma parse_non_numeric (c : code_unit) (rest : jsstring) :
  RegExp.is_space c = false ->
  c <> 45%N -> c <> 43%N ->
  ParseInt.digit 10 c = None ->
  ParseInt.parse (c :: rest) = NaN.
Proof.
  intros Hsp Hm Hp Hd. unfold ParseInt.parse. cbn [ParseInt.trim_start].
  rewrite Hsp. unfold ParseInt.strip_sign.
  apply N.eqb_neq in Hm, Hp. rewrite Hm, Hp.
  assert (Hz : N.eqb c 48 = false).
  { apply N.eqb_neq. intros ->. discriminate Hd. }
  unfold ParseInt.strip_prefix.
  destruct rest as [|d rest]; [|rewrite Hz; cbn [andb]];
    cbn [ParseInt.digits]; rewrite Hd; reflexivity.
Qed.

(** C4 as it is worded fails: the search operation given the non-numeric
    page "abc" sends it as it is. *)
Lemma search_keeps_non_numeric_page :
  lookup "page"
    (params (search_request (constructor example_config)
               {| query := VString (js "billing"); locale := VUndefined;
                  page := VString (js "abc"); per_page := VUndefined |}))
  <> VNumber (Int 1).
Proof. cbn. discriminate. Qed.

(** C4 (as amended): the fallback belongs to the console's search command.
    There the page sent is 1 when [parseInt] of the fourth word is NaN (no
    integer to read, as for "abc" or a missing word) or 0, and the integer
    read otherwise, for the integers [parseInt] reads without rounding;
    per_page likewise with the fifth word and 20.  [searchArticles] itself
    replaces only an omitted page or per_page, by 1 or 20, and sends any
    other value unchanged. *)
Theorem page_fallback (this : t) (parts : list jsstring) (p : search_params) :
  let console_request := search_request this (chat_search_params this parts) in
  let request := search_request this p in
  (read_exactly (ParseInt.parseInt (part parts 3)) ->
   lookup "page" (params console_request) =
     match ParseInt.parseInt (part parts 3) with
     | NaN => VNumber (Int 1)
     | Int z => if Z.eqb z 0 then VNumber (Int 1) else VNumber (Int z)
     end)
  /\ (read_exactly (ParseInt.parseInt (part parts 4)) ->
      lookup "per_page" (params console_request) =
        match ParseInt.parseInt (part parts 4) with
        | NaN => VNumber (Int 20)
        | Int z => if Z.eqb z 0 then VNumber (Int 20) else VNumber (Int z)
        end)
  /\ lookup "page" (params request) =
       match page p with VUndefined => VNumber (Int 1) | v => v end
  /\ lookup "per_page" (params request) =
       match per_page p with VUndefined => VNumber (Int 20) | v => v end
  /\ ParseInt.parseInt (VString (js "abc")) = NaN
  /\ ParseInt.parseInt VUndefined = NaN.
Proof.
  cbn -[ParseInt.parseInt part read_exactly].
  repeat split.
  - intros _.
    destruct (ParseInt.parseInt (part parts 3)) as [|z]; [reflexivity|].
    unfold or_else. cbn [truthy]. destruct (Z.eqb z 0); reflexivity.
  - intros _.
    destruct (ParseInt.parseInt (part parts 4)) as [|z]; [reflexivity|].
    unfold or_else. cbn [truthy]. destruct (Z.eqb z 0); reflexivity.
  - destruct (page p); reflexivity.
  - destruct (per_page p); reflexivity.
Qed.

Lemma page_fallback_witness :
  let console_request :=
    search_request (constructor example_config)
      (chat_search_params (constructor example_config)
         (split (js "search billing en abc 50"))) in
  lookup "page" (params console_request) = VNumber (Int 1) /\
  lookup "per_page" (params console_request) = VNumber (Int 50).
Proof.
  pose proof (page_fallback (constructor example_config)
                (split (js "search billing en abc 50"))
                (omitted (VString (js "billing")))) as H.
  cbv zeta in H. destruct H as (Hpage & Hper & _).
  split.
  - apply Hpage. vm_compute. exact I.
  - apply Hper. vm_compute. intros H. discriminate H.
Defined.

Lemma jseqb_eq (a b : jsstring) : jseqb a b = true -> a = b.
Proof.
  revert b. induction a as [|x a IH]; intros [|y b] H; try discriminate H.
  - reflexivity.
  - cbn in H. apply andb_true_iff in H as [H1 H2].
    apply N.eqb_eq in H1. subst y. f_equal. apply IH, H2.
Qed.

Lemma split_no_space (input : jsstring) :
  (forall c, In c input -> c <> 32%N) -> split input = [input].
Proof.
  induction input as [|c t IH]; intros H; [reflexivity|].
  cbn [split]. destruct (N.eqb_spec c 32) as [->|_].
  - exfalso. apply (H 32%N); [left; reflexivity|reflexivity].
  - rewrite IH; [reflexivity|]. intros d Hd. apply H. right. exact Hd.
Qed.

(** The [search] command of the console issues the request built from its
    words. *)
Lemma console_search_request (this : t) (input : jsstring) (w : world) :
  jseqb (toLowerCase (hd [] (split input))) (js "search") = true ->
  Nat.ltb (length (split input)) 2 = false ->
  calls (snd (handle_input this input w)) =
  calls w ++ [search_request this (chat_search_params this (split input))].
Proof.
  intros Hc Hl. unfold handle_input, try_catch, bind.
  destruct (jseqb (toLowerCase input) (js "quit")) eqn:Hq.
  { exfalso. clear Hl. apply jseqb_eq in Hq.
    assert (Hs : split input = [input]).
    { apply split_no_space. intros c Hin Hc32. subst c.
      apply (in_map RegExp.to_lower) in Hin. fold (toLowerCase input) in Hin.
      rewrite Hq in Hin. vm_compute in Hin.
      repeat (destruct Hin as [Hin|Hin]; [discriminate Hin|]). exact Hin. }
    rewrite Hs in Hc. cbn [hd] in Hc. rewrite Hq in Hc. discriminate Hc. }
  rewrite Hc, Hl.
  unfold searchArticles, makeRequest, bind, try_catch, axios_get,
    console_write, throw, ret, lift.
  set (p := chat_search_params this (split input)).
  cbn -[search_request get_property p].
  change (request_of this (url (search_request this p))
            (params (search_request this p)))
    with (search_request this p).
  destruct (transport w (length (calls w)) (search_request this p))
    as [data|e]; cbn -[search_request p]; [|reflexivity].
  destruct data; cbn -[search_request p]; try reflexivity.
  destruct (lookup "results" properties); cbn -[search_request p];
    try reflexivity.
  destruct (map_throwing filterSearchResult elements); reflexivity.
Qed.


(** ** The matcher and the matches it finds *)

Section MatcherFacts.

Import RegExp Match.

Variable ic : bool.

Lemma starts_with_sound (v s s1 : jsstring) :
  starts_with ic v s = Some s1 ->
  exists w, s = w ++ s1 /\ canon_eq ic v w.
Proof.
  revert s. induction v as [|x v IH]; intros s H.
  - exists []. cbn in H. injection H as ->. split; reflexivity.
  - destruct s as [|y s]; [discriminate H|]. cbn in H.
    destruct (N.eqb_spec (canonicalize ic x) (canonicalize ic y)) as [E|_];
      [|discriminate H].
    destruct (IH _ H) as (w & -> & Hw).
    exists (y :: w). split; [reflexivity|].
    unfold canon_eq in *. cbn. rewrite E, Hw. reflexivity.
Qed.

Lemma starts_with_complete (v w s1 : jsstring) :
  canon_eq ic v w -> starts_with ic v (w ++ s1) = Some s1.
Proof.
  revert w. induction v as [|x v IH]; intros [|y w] H; try discriminate H.
  - reflexivity.
  - unfold canon_eq in H. cbn in H. injection H as E H. cbn.
    rewrite E, N.eqb_refl. apply IH, H.
Qed.

Lemma repeat_matcher_nil (a : atom) (greedy : bool) (min : nat)
    (k : jsstring -> result) :
  repeat_matcher ic a greedy [] min k =
  match min with S _ => None | O => k [] end.
Proof.
  destruct min; [|reflexivity]. cbn. destruct greedy; [reflexivity|].
  unfold orelse. destruct (k []); reflexivity.
Qed.

Lemma repeat_matcher_cons (a : atom) (greedy : bool) (c : code_unit)
    (t : jsstring) (min : nat) (k : jsstring -> result) :
  repeat_matcher ic a greedy (c :: t) min k =
  match min with
  | S _ => one_more ic a greedy c t min k
  | O => if greedy then orelse (one_more ic a greedy c t min k) (k (c :: t))
         else orelse (k (c :: t)) (one_more ic a greedy c t min k)
  end.
Proof. reflexivity. Qed.

Lemma repeat_matcher_sound (a : atom) (greedy : bool) (s : jsstring)
    (min : nat) (k : jsstring -> result) (res : jsstring * captures) :
  repeat_matcher ic a greedy s min k = Some res ->
  exists w s1,
    s = w ++ s1 /\ Forall (fun c => atom_matches ic a c = true) w /\
    min <= length w /\ k s1 = Some res.
Proof.
  revert min. induction s as [|c t IH]; intros min H.
  - rewrite repeat_matcher_nil in H.
    destruct min as [|min]; [|discriminate H].
    exists [], []. repeat split; auto.
  - assert (Hmore : one_more ic a greedy c t min k = Some res ->
      exists w s1, c :: t = w ++ s1 /\
        Forall (fun c => atom_matches ic a c = true) w /\
        min <= length w /\ k s1 = Some res).
    { unfold one_more. intros Hm.
      destruct (atom_matches ic a c) eqn:Ha; [|discriminate Hm].
      destruct (IH _ Hm) as (w & s1 & -> & Hw & Hl & Hk).
      exists (c :: w), s1. repeat split; auto. cbn. lia. }
    rewrite repeat_matcher_cons in H.
    destruct min as [|min]; [|apply Hmore, H].
    assert (Hhere : k (c :: t) = Some res ->
      exists w s1, c :: t = w ++ s1 /\
        Forall (fun c => atom_matches ic a c = true) w /\
        0 <= length w /\ k s1 = Some res).
    { intros Hk. exists [], (c :: t). repeat split; auto. }
    destruct greedy; unfold orelse in H.
    + destruct (one_more ic a true c t 0 k); [apply Hmore, H|apply Hhere, H].
    + destruct (k (c :: t)); [apply Hhere, H|apply Hmore, H].
Qed.

Lemma repeat_matcher_complete (a : atom) (greedy : bool) (w s1 : jsstring)
    (min : nat) (k : jsstring -> result) :
  Forall (fun c => atom_matches ic a c = true) w ->
  min <= length w ->
  k s1 <> None ->
  repeat_matcher ic a greedy (w ++ s1) min k <> None.
Proof.
  intros Hw. revert min. induction Hw as [|c w Hc Hw IH]; intros min Hl Hk.
  - destruct min as [|min]; [|cbn in Hl; lia].
    cbn [app]. destruct s1 as [|c t].
    + rewrite repeat_matcher_nil. exact Hk.
    + rewrite repeat_matcher_cons. destruct greedy; unfold orelse.
      * destruct (one_more ic a true c t 0 k); [discriminate|exact Hk].
      * destruct (k (c :: t)); [discriminate|contradiction].
  - cbn [app]. rewrite repeat_matcher_cons.
    assert (Hm : one_more ic a greedy c (w ++ s1) min k <> None).
    { unfold one_more. rewrite Hc. apply IH; [cbn in Hl; lia|exact Hk]. }
    destruct min as [|min]; [|exact Hm].
    destruct greedy; unfold orelse.
    + destruct (one_more ic a true c (w ++ s1) 0 k); [discriminate|contradiction].
    + destruct (k (c :: w ++ s1)); [discriminate|exact Hm].
Qed.

Lemma firstn_consumed (w s1 : jsstring) :
  firstn (length (w ++ s1) - length s1) (w ++ s1) = w.
Proof.
  rewrite length_app. replace (length w + length s1 - length s1) with (length w) by lia.
  rewrite firstn_app, Nat.sub_diag, firstn_all. cbn. apply app_nil_r.
Qed.

(** Every result of the matcher comes from a match. *)
Lemma matcher_sound (r : node) (s : jsstring) (caps : captures)
    (k : continuation) (res : jsstring * captures) :
  matcher ic r s caps k = Some res ->
  exists w s1 caps1,
    s = w ++ s1 /\ matches ic r caps w caps1 /\ k s1 caps1 = Some res.
Proof.
  revert s caps k. induction r as [|a|r1 IH1 r2 IH2|min greedy a|n r1 IH1|n];
    intros s caps k H; cbn [matcher] in H.
  - exists [], s, caps. repeat split; [constructor|exact H].
  - destruct s as [|c t]; [discriminate H|].
    destruct (atom_matches ic a c) eqn:Ha; [|discriminate H].
    exists [c], t, caps. repeat split; [constructor; exact Ha|exact H].
  - destruct (IH1 _ _ _ H) as (w1 & s1 & caps1 & -> & M1 & H1).
    destruct (IH2 _ _ _ H1) as (w2 & s2 & caps2 & -> & M2 & H2).
    exists (w1 ++ w2), s2, caps2. repeat split.
    + apply app_assoc.
    + econstructor; eassumption.
    + exact H2.
  - destruct (repeat_matcher_sound _ _ _ _ _ H) as (w & s1 & -> & Hw & Hl & Hk).
    exists w, s1, caps. repeat split; [constructor; assumption|exact Hk].
  - destruct (IH1 _ _ _ H) as (w & s1 & caps1 & -> & M1 & H1).
    rewrite firstn_consumed in H1.
    exists w, s1, ((n, w) :: caps1). repeat split; [constructor; exact M1|exact H1].
  - destruct (capture n caps) as [v|] eqn:Hv.
    + destruct (starts_with ic v s) as [s1|] eqn:Hs; [|discriminate H].
      destruct (starts_with_sound _ _ Hs) as (w & -> & Hw).
      exists w, s1, caps. repeat split; [|exact H].
      eapply MBackref; eassumption.
    + exists [], s, caps. repeat split; [|exact H].
      apply MBackrefUndefined, Hv.
Qed.

(** Where a match exists and the continuation accepts it, the matcher
    finds a result (that of the first match it tries with success). *)
Lemma matcher_complete (r : node) (caps : captures) (w : jsstring)
    (caps1 : captures) :
  matches ic r caps w caps1 ->
  forall (s1 : jsstring) (k : continuation),
    k s1 caps1 <> None -> matcher ic r (w ++ s1) caps k <> None.
Proof.
  induction 1 as [caps|a c caps Ha|r1 r2 caps w1 caps1 w2 caps2 _ IH1 _ IH2
                 |min greedy a caps w Hw Hl|n r caps w caps1 _ IH
                 |n caps Hn|n caps v w Hn Hv];
    intros s1 k Hk; cbn [matcher].
  - exact Hk.
  - cbn. rewrite Ha. exact Hk.
  - rewrite <- app_assoc. apply IH1. apply IH2. exact Hk.
  - apply repeat_matcher_complete; assumption.
  - apply IH. rewrite firstn_consumed. exact Hk.
  - rewrite Hn. exact Hk.
  - rewrite Hn, (starts_with_complete _ Hv). exact Hk.
Qed.

Lemma matches_min_length (r : node) (caps : captures) (w : jsstring)
    (caps1 : captures) :
  matches ic r caps w caps1 -> min_length r <= length w.
Proof.
  induction 1; cbn; try lia.
  rewrite length_app. lia.
Qed.

End MatcherFacts.

(** ** Searching and replacing *)

Section ReplaceFacts.

Import RegExp Match.

Variable re : regexp.

Lemma exec_at_sound (s rest : jsstring) (caps : captures) :
  exec_at re s = Some (rest, caps) ->
  exists w, s = w ++ rest /\ matches (ignoreCase re) (source re) [] w caps.
Proof.
  intros H. apply matcher_sound in H as (w & s1 & caps1 & -> & M & H).
  injection H as -> ->. exists w. split; [reflexivity|exact M].
Qed.

Lemma exec_at_complete (w rest : jsstring) (caps : captures) :
  matches (ignoreCase re) (source re) [] w caps ->
  exec_at re (w ++ rest) <> None.
Proof.
  intros M. unfold exec_at. apply (matcher_complete M). discriminate.
Qed.

Lemma test_sound (s : jsstring) :
  test re s = true ->
  exists pre w post caps,
    s = pre ++ w ++ post /\ matches (ignoreCase re) (source re) [] w caps.
Proof.
  induction s as [|c t IH]; cbn [test]; intros H.
  - destruct (exec_at re []) as [[rest caps]|] eqn:E; [|discriminate H].
    apply exec_at_sound in E as (w & E & M).
    exists [], w, rest, caps. split; [exact E|exact M].
  - destruct (exec_at re (c :: t)) as [[rest caps]|] eqn:E.
    + apply exec_at_sound in E as (w & E & M).
      exists [], w, rest, caps. split; [exact E|exact M].
    + destruct (IH H) as (pre & w & post & caps & -> & M).
      exists (c :: pre), w, post, caps. split; [reflexivity|exact M].
Qed.

Lemma test_complete (pre w post : jsstring) (caps : captures) :
  matches (ignoreCase re) (source re) [] w caps ->
  test re (pre ++ w ++ post) = true.
Proof.
  intros M. induction pre as [|c pre IH].
  - cbn [app]. pose proof (exec_at_complete post M) as H.
    destruct (w ++ post); cbn [test]; destruct (exec_at re _);
      try reflexivity; contradiction.
  - cbn [app test]. destruct (exec_at re _); [reflexivity|exact IH].
Qed.

Lemma test_false_here (s : jsstring) :
  test re s = false -> exec_at re s = None.
Proof.
  destruct s; cbn [test]; destruct (exec_at re _); try discriminate; reflexivity.
Qed.

Lemma test_false_tail (c : code_unit) (t : jsstring) :
  test re (c :: t) = false -> test re t = false.
Proof. cbn [test]. destruct (exec_at re _); [discriminate|auto]. Qed.

Variable tpl : template.

Lemma replace_nil : exec_at re [] = None -> replace re tpl [] = [].
Proof. unfold replace. cbn. intros ->. reflexivity. Qed.

Lemma replace_no_match_here (c : code_unit) (t : jsstring) :
  exec_at re (c :: t) = None ->
  replace re tpl (c :: t) = c :: replace re tpl t.
Proof. unfold replace. cbn [replace_from]. intros ->. reflexivity. Qed.

Lemma replace_from_skip (w rest : jsstring) :
  replace_from re tpl (w ++ rest) (length w) = replace_from re tpl rest 0.
Proof. induction w as [|c w IH]; [reflexivity|exact IH]. Qed.

Lemma replace_match (w rest : jsstring) (caps : captures) :
  w <> [] ->
  exec_at re (w ++ rest) = Some (rest, caps) ->
  replace re tpl (w ++ rest) = substitute tpl caps ++ replace re tpl rest.
Proof.
  intros Hw H. destruct w as [|c w]; [contradiction|].
  unfold replace. cbn [app replace_from]. cbn [app] in H. rewrite H.
  f_equal. cbn [length]. rewrite length_app.
  replace (S (length w + length rest) - length rest)
    with (S (length w)) by lia.
  apply replace_from_skip.
Qed.

(** A text without a match is left as it is. *)
Lemma replace_no_match (s : jsstring) :
  test re s = false -> replace re tpl s = s.
Proof.
  induction s as [|c t IH]; intros H.
  - apply replace_nil, test_false_here, H.
  - rewrite replace_no_match_here by (apply test_false_here, H).
    f_equal. apply IH. eapply test_false_tail, H.
Qed.

(** Replacement with a pattern that takes at least one code unit follows
    the text: a position without a match is copied, a match is replaced and
    the search goes on after it. *)
Hypothesis nonempty : 1 <= min_length (source re).

Lemma exec_at_nonempty (s rest : jsstring) (caps : captures) :
  exec_at re s = Some (rest, caps) ->
  exists w, w <> [] /\ s = w ++ rest /\
            matches (ignoreCase re) (source re) [] w caps.
Proof.
  intros H. apply exec_at_sound in H as (w & -> & M).
  exists w. repeat split; [|exact M].
  apply matches_min_length in M. destruct w; [cbn in M; lia|discriminate].
Qed.

Lemma test_nil : test re [] = false.
Proof.
  cbn [test]. destruct (exec_at re []) as [[rest caps]|] eqn:E; [|reflexivity].
  apply exec_at_nonempty in E as (w & Hw & E & _).
  destruct w; [contradiction|discriminate E].
Qed.

Lemma replace_ind (P : jsstring -> jsstring -> Prop) :
  P [] [] ->
  (forall c t, exec_at re (c :: t) = None ->
     P t (replace re tpl t) -> P (c :: t) (c :: replace re tpl t)) ->
  (forall w rest caps, w <> [] ->
     exec_at re (w ++ rest) = Some (rest, caps) ->
     matches (ignoreCase re) (source re) [] w caps ->
     P rest (replace re tpl rest) ->
     P (w ++ rest) (substitute tpl caps ++ replace re tpl rest)) ->
  forall s, P s (replace re tpl s).
Proof.
  intros Hnil Hcopy Hmatch s.
  remember (length s) as n eqn:Hn. revert s Hn.
  induction n as [n IH] using lt_wf_ind. intros s Hn.
  destruct s as [|c t].
  - rewrite replace_nil; [exact Hnil|].
    destruct (exec_at re []) as [[rest caps]|] eqn:E; [|reflexivity].
    apply exec_at_nonempty in E as (w & Hw & E & _).
    destruct w; [contradiction|discriminate E].
  - destruct (exec_at re (c :: t)) as [[rest caps]|] eqn:E.
    + destruct (exec_at_nonempty _ E) as (w & Hw & Es & M).
      rewrite Es in E |- *. rewrite (replace_match Hw E).
      apply Hmatch; try assumption.
      apply (IH (length rest)); [|reflexivity].
      subst n. rewrite Es, length_app. destruct w; [contradiction|cbn; lia].
    + rewrite (replace_no_match_here c t E). apply Hcopy; [exact E|].
      apply (IH (length t)); [subst n; cbn; lia|reflexivity].
Qed.

End ReplaceFacts.

(** ** Widening blank-line runs *)

Section Squeezed.

Import RegExp Match.

Lemma squeezed_refl (x : jsstring) : squeezed x x.
Proof. induction x; constructor; assumption. Qed.

Lemma squeezed_nil_inv (x : jsstring) : squeezed x [] -> x = [].
Proof. inversion 1. reflexivity. Qed.

Lemma squeezed_split (x y1 y2 : jsstring) :
  squeezed x (y1 ++ y2) ->
  exists x1 x2, x = x1 ++ x2 /\ squeezed x1 y1 /\ squeezed x2 y2.
Proof.
  revert x. induction y1 as [|c y1 IH]; intros x H.
  - exists [], x. repeat split; [constructor|exact H].
  - cbn [app] in H. inversion H as [|c' x' y' H'|w x' y' Hw H']; subst.
    + destruct (IH _ H') as (x1 & x2 & -> & H1 & H2).
      exists (c :: x1), x2. repeat split; [constructor; exact H1|exact H2].
    + destruct (IH _ H') as (x1 & x2 & -> & H1 & H2).
      exists (LF :: w ++ LF :: x1), x2. repeat split.
      * cbn. rewrite <- app_assoc. reflexivity.
      * constructor; assumption.
      * exact H2.
Qed.

Lemma squeezed_no_lf (x y : jsstring) :
  squeezed x y -> ~ In LF y -> x = y.
Proof.
  induction 1 as [|c x y _ IH|w x y _ _ _]; intros Hy.
  - reflexivity.
  - f_equal. apply IH. intros Hin. apply Hy. right. exact Hin.
  - exfalso. apply Hy. left. reflexivity.
Qed.

Lemma squeezed_length (x y : jsstring) :
  squeezed x y -> length y <= length x.
Proof.
  induction 1 as [|c x y _ IH|w x y _ _ IH]; cbn; try lia.
  rewrite length_app. cbn. lia.
Qed.

Lemma squeezed_Forall (P : code_unit -> Prop) (x y : jsstring) :
  (forall c, is_space c = true -> P c) ->
  squeezed x y -> Forall P y -> Forall P x.
Proof.
  intros Hsp. induction 1 as [|c x y _ IH|w x y Hw _ IH]; intros Hy.
  - constructor.
  - inversion Hy; subst. constructor; auto.
  - inversion Hy; subst. constructor; [assumption|].
    apply Forall_app. split.
    + eapply Forall_impl; [|exact Hw]. exact Hsp.
    + constructor; auto.
Qed.

Variable ic : bool.

Lemma canonicalize_lf (c : code_unit) :
  canonicalize ic c = LF -> c = LF.
Proof.
  unfold canonicalize, to_upper, LF. destruct ic; [|auto].
  destruct ((97 <=? c)%N && (c <=? 122)%N) eqn:E; [|auto].
  apply andb_true_iff in E as [E1 E2].
  apply N.leb_le in E1, E2. lia.
Qed.

Lemma canon_eq_no_lf (v w : jsstring) :
  canon_eq ic v w -> ~ In LF v -> ~ In LF w.
Proof.
  unfold canon_eq. intros E Hv Hw.
  apply (in_map (canonicalize ic)) in Hw. rewrite <- E in Hw.
  apply in_map_iff in Hw as (c & Hc & Hin).
  assert (canonicalize ic LF = LF) as HLF by (destruct ic; reflexivity).
  rewrite HLF in Hc. apply canonicalize_lf in Hc. subst c. contradiction.
Qed.

Lemma matches_lf_free (r : node) (caps : captures) (w : jsstring)
    (caps1 : captures) :
  matches ic r caps w caps1 -> lf_free ic r -> ~ In LF w.
Proof.
  induction 1 as [caps|a c caps Ha|r1 r2 caps w1 caps1 w2 caps2 _ IH1 _ IH2
                 |min greedy a caps w Hw Hl|n r caps w caps1 _ IH
                 |n caps Hn|n caps v w Hn Hv];
    cbn [lf_free]; intros Hf.
  - intros [].
  - intros [->|[]]. congruence.
  - destruct Hf as [Hf1 Hf2]. intros Hin. apply in_app_or in Hin as [Hin|Hin].
    + exact (IH1 Hf1 Hin).
    + exact (IH2 Hf2 Hin).
  - intros Hin. rewrite Forall_forall in Hw. apply Hw in Hin. congruence.
  - apply IH, Hf.
  - contradiction.
  - contradiction.
Qed.

Variable G : nat -> bool.

(** A match in the squeezed text has a match in the original text. *)
Lemma stable_squeezed (r : node) (cy : captures) (wy : jsstring)
    (cy1 : captures) :
  matches ic r cy wy cy1 ->
  stable ic G r ->
  forall wx cx,
    squeezed wx wy -> captures_agree G cx cy ->
    exists cx1, matches ic r cx wx cx1 /\ captures_agree G cx1 cy1.
Proof.
  induction 1 as [caps|a c caps Ha|r1 r2 caps w1 caps1 w2 caps2 _ IH1 _ IH2
                 |min greedy a caps w Hw Hl|n r caps w caps1 M IH
                 |n caps Hn|n caps v w Hn Hv];
    cbn [stable]; intros Hst wx cx Hsq Hag.
  - apply squeezed_nil_inv in Hsq. subst wx. exists cx. split; [constructor|exact Hag].
  - assert (E : wx = [c]).
    { apply squeezed_no_lf; [exact Hsq|]. intros [->|[]]. congruence. }
    subst wx. exists cx. split; [constructor; exact Ha|exact Hag].
  - destruct Hst as [Hst1 Hst2].
    apply squeezed_split in Hsq as (x1 & x2 & -> & Hsq1 & Hsq2).
    destruct (IH1 Hst1 _ _ Hsq1 Hag) as (cx1 & M1 & Hag1).
    destruct (IH2 Hst2 _ _ Hsq2 Hag1) as (cx2 & M2 & Hag2).
    exists cx2. split; [econstructor; eassumption|exact Hag2].
  - exists cx. split; [|exact Hag]. destruct Hst as [Hab|Hlf].
    + constructor.
      * eapply squeezed_Forall; [exact Hab|exact Hsq|exact Hw].
      * apply squeezed_length in Hsq. lia.
    + assert (E : wx = w).
      { apply squeezed_no_lf; [exact Hsq|]. intros Hin.
        rewrite Forall_forall in Hw. apply Hw in Hin. congruence. }
      subst wx. constructor; assumption.
  - destruct Hst as [Hst Hfree].
    destruct (IH Hst _ _ Hsq Hag) as (cx1 & M1 & Hag1).
    exists ((n, wx) :: cx1). split; [constructor; exact M1|].
    intros m Hm. cbn [capture]. destruct (Nat.eqb_spec n m) as [->|_].
    + assert (Hlf : ~ In LF w) by (eapply matches_lf_free; eauto).
      rewrite (squeezed_no_lf Hsq Hlf). split; [reflexivity|].
      intros v' [= <-]. exact Hlf.
    + apply Hag1, Hm.
  - apply squeezed_nil_inv in Hsq. subst wx. exists cx. split; [|exact Hag].
    apply MBackrefUndefined. destruct (Hag n Hst) as [-> _]. exact Hn.
  - destruct (Hag n Hst) as [Hc Hlf]. specialize (Hlf _ Hn).
    assert (E : wx = w).
    { apply squeezed_no_lf; [exact Hsq|]. eapply canon_eq_no_lf; eassumption. }
    subst wx. exists cx. split; [|exact Hag].
    eapply MBackref; [rewrite Hc; exact Hn|exact Hv].
Qed.

End Squeezed.

Section SqueezedTest.

Import RegExp Match.

Lemma test_squeezed (re : regexp) (G : nat -> bool) (x y : jsstring) :
  stable (ignoreCase re) G (source re) ->
  squeezed x y ->
  test re y = true -> test re x = true.
Proof.
  intros Hst Hsq Hy.
  apply test_sound in Hy as (pre & w & post & caps & -> & M).
  apply squeezed_split in Hsq as (px & x2 & -> & _ & Hsq).
  apply squeezed_split in Hsq as (wx & qx & -> & Hsq & _).
  destruct (stable_squeezed (G:=G) M Hst (cx:=[]) Hsq) as (cx1 & Mx & _).
  - intros n _. split; [reflexivity|discriminate].
  - eapply test_complete, Mx.
Qed.

Lemma is_space_cases (c : code_unit) :
  is_space c = true ->
  In c [9; 10; 11; 12; 13; 32; 160; 5760; 8192; 8193; 8194; 8195; 8196;
        8197; 8198; 8199; 8200; 8201; 8202; 8232; 8233; 8239; 8287;
        12288; 65279]%N.
Proof.
  unfold is_space. rewrite !orb_true_iff, !andb_true_iff, !N.leb_le, !N.eqb_eq.
  cbn [In]. lia.
Qed.

(** A pattern that begins with [<] has no match in a text without [<]. *)
Lemma first_char_matches (ic : bool) (c : code_unit) (r : node)
    (caps : captures) (w : jsstring) (caps1 : captures) :
  first_char c r = true ->
  matches ic r caps w caps1 ->
  exists d w1, w = d :: w1 /\ canonicalize ic c = canonicalize ic d.
Proof.
  intros Hf M. induction M as [caps|a d caps Ha|r1 r2 caps w1 caps1 w2 caps2 _ IH1 _ _
                 |min greedy a caps w Hw Hl|n r caps w caps1 _ IH
                 |n caps Hn|n caps v w Hn Hv];
    cbn [first_char] in Hf; try discriminate Hf.
  - destruct a as [x| |]; try discriminate Hf.
    apply N.eqb_eq in Hf. subst x. cbn in Ha. apply N.eqb_eq in Ha.
    exists d, []. split; [reflexivity|exact Ha].
  - destruct (IH1 Hf) as (d & w & -> & E).
    exists d, (w ++ w2). split; [reflexivity|exact E].
  - apply IH, Hf.
Qed.

Lemma canonicalize_lt (ic : bool) (d : code_unit) :
  canonicalize ic LT = canonicalize ic d -> d = LT.
Proof.
  unfold canonicalize, to_upper, LT. destruct ic; [|auto].
  cbn. destruct ((97 <=? d)%N && (d <=? 122)%N) eqn:E; [|auto].
  apply andb_true_iff in E as [E1 E2].
  apply N.leb_le in E1, E2. lia.
Qed.

Lemma test_without_lt (re : regexp) (s : jsstring) :
  first_char LT (source re) = true ->
  ~ In LT s -> test re s = false.
Proof.
  intros Hf Hs. destruct (test re s) eqn:E; [|reflexivity].
  apply test_sound in E as (pre & w & post & caps & -> & M).
  destruct (@first_char_matches _ _ _ _ _ _ Hf M) as (d & w1 & -> & Hd).
  apply canonicalize_lt in Hd. subst d.
  exfalso. apply Hs. apply in_or_app. right. left. reflexivity.
Qed.

End SqueezedTest.

(** ** The patterns of [cleanHtmlContent] *)

Section Patterns.

Import RegExp Match Html.

Ltac by_space_cases :=
  let c := fresh "c" in
  let H := fresh "H" in
  intros c H; apply is_space_cases in H;
  repeat (destruct H as [<-|H]; [reflexivity|]); destruct H.

Lemma absorbs_space_not_gt : absorbs_space true not_gt.
Proof. by_space_cases. Qed.

Lemma absorbs_space_space (ic : bool) : absorbs_space ic space.
Proof. destruct ic; by_space_cases. Qed.

Lemma absorbs_space_not_quote : absorbs_space true not_quote.
Proof. by_space_cases. Qed.

Lemma absorbs_space_any_char : absorbs_space true any_char.
Proof. by_space_cases. Qed.

Ltac stable_pattern :=
  cbv [emptyTagPattern attributePattern wrapperTagPattern tableCellPattern
       multipleLineBreaksPattern source seqs lit js map list_ascii_of_string
       stable star plus lazy_star lf_free];
  repeat match goal with
  | |- _ /\ _ => split
  | |- True => exact I
  | |- Nat.eqb _ _ = true => reflexivity
  | |- _ = true -> _ => intros; try discriminate
  | |- atom_matches _ _ _ = false => reflexivity
  | |- absorbs_space _ _ \/ _ => first [right; reflexivity | left]
  | |- absorbs_space _ not_gt => exact absorbs_space_not_gt
  | |- absorbs_space _ space => apply absorbs_space_space
  | |- absorbs_space _ not_quote => exact absorbs_space_not_quote
  | |- absorbs_space _ any_char => exact absorbs_space_any_char
  end.

Lemma stable_emptyTagPattern :
  stable true (fun n => Nat.eqb n 1) (source emptyTagPattern).
Proof. stable_pattern. Qed.

Lemma stable_styleAttributePattern :
  stable true (fun _ => false) (source styleAttributePattern).
Proof. unfold styleAttributePattern. stable_pattern. Qed.

Lemma stable_idAttributePattern :
  stable true (fun _ => false) (source idAttributePattern).
Proof. unfold idAttributePattern. stable_pattern. Qed.

Lemma stable_classAttributePattern :
  stable true (fun _ => false) (source classAttributePattern).
Proof. unfold classAttributePattern. stable_pattern. Qed.

Lemma stable_targetAttributePattern :
  stable true (fun _ => false) (source targetAttributePattern).
Proof. unfold targetAttributePattern. stable_pattern. Qed.

Lemma stable_borderAttributePattern :
  stable true (fun _ => false) (source borderAttributePattern).
Proof. unfold borderAttributePattern. stable_pattern. Qed.

Lemma stable_spanTagPattern :
  stable true (fun _ => false) (source spanTagPattern).
Proof. unfold spanTagPattern. stable_pattern. Qed.

Lemma stable_fontTagPattern :
  stable true (fun _ => false) (source fontTagPattern).
Proof. unfold fontTagPattern. stable_pattern. Qed.

Lemma stable_tableCellPattern :
  stable true (fun _ => false) (source tableCellPattern).
Proof. stable_pattern. Qed.

(** *** The blank-line pattern *)

Lemma atom_space (c : code_unit) :
  atom_matches false space c = true -> is_space c = true.
Proof.
  cbn [atom_matches space xorb in_class variants existsb in_item].
  rewrite !orb_false_r. auto.
Qed.

Lemma space_atom (ic : bool) (c : code_unit) :
  is_space c = true -> atom_matches ic space c = true.
Proof. apply absorbs_space_space. Qed.

Lemma atom_lf (c : code_unit) :
  atom_matches false (AChar LF) c = true -> c = LF.
Proof.
  unfold atom_matches, canonicalize. intros H. apply N.eqb_eq in H. auto.
Qed.

Lemma blank_matches_inv (caps : captures) (w : jsstring) (caps1 : captures) :
  matches false (source multipleLineBreaksPattern) caps w caps1 ->
  exists ws, w = LF :: ws ++ [LF] /\ Forall (fun c => is_space c = true) ws.
Proof.
  cbn [multipleLineBreaksPattern source seqs]. intros M.
  inversion M as [| |? ? ? w1 ? w2 ? M1 M2| | | |]; subst.
  inversion M1 as [|? c ? Ha| | | | |]; subst.
  inversion M2 as [| |? ? ? w3 ? w4 ? M3 M4| | | |]; subst.
  inversion M3 as [| | |? ? ? ? ? Hw Hl| | |]; subst.
  inversion M4 as [|? c' ? Ha'| | | | |]; subst.
  apply atom_lf in Ha, Ha'. subst.
  exists w3. split; [reflexivity|].
  eapply Forall_impl; [|exact Hw]. intros c. apply atom_space.
Qed.

Lemma blank_matches_intro (ws : jsstring) :
  Forall (fun c => is_space c = true) ws ->
  matches false (source multipleLineBreaksPattern) [] (LF :: ws ++ [LF]) [].
Proof.
  intros Hws. cbn [multipleLineBreaksPattern source seqs].
  change (LF :: ws ++ [LF]) with ([LF] ++ ws ++ [LF]).
  econstructor; [constructor; reflexivity|].
  econstructor; [|constructor; reflexivity].
  constructor; [|cbn; lia].
  eapply Forall_impl; [|exact Hws]. intros c. apply space_atom.
Qed.

Lemma blank_exec_prefix (t rest : jsstring) (caps : captures) :
  exec_at multipleLineBreaksPattern (LF :: t) = Some (rest, caps) -> blank_prefix t.
Proof.
  intros H. apply exec_at_sound in H as (w & E & M).
  apply blank_matches_inv in M as (ws & -> & Hws).
  cbn in E. injection E as E. exists ws, rest. split; [exact Hws|].
  rewrite E, <- app_assoc. reflexivity.
Qed.

Lemma blank_prefix_exec (t : jsstring) :
  blank_prefix t -> exec_at multipleLineBreaksPattern (LF :: t) <> None.
Proof.
  intros (ws & q & Hws & ->).
  replace (LF :: ws ++ LF :: q) with ((LF :: ws ++ [LF]) ++ q)
    by (cbn; rewrite <- app_assoc; reflexivity).
  eapply exec_at_complete, blank_matches_intro, Hws.
Qed.

Lemma blank_exec_first (c : code_unit) (t rest : jsstring) (caps : captures) :
  exec_at multipleLineBreaksPattern (c :: t) = Some (rest, caps) -> c = LF.
Proof.
  intros H. apply exec_at_sound in H as (w & E & M).
  apply blank_matches_inv in M as (ws & -> & _).
  cbn in E. injection E as E _. exact E.
Qed.

(** The matcher takes the longest run: what is left after a match does not
    begin with white space up to a line feed. *)
Lemma blank_repeat_rest (t : jsstring) (res : jsstring * captures) :
  repeat_matcher false space true t 0
    (fun s1 => matcher false (Atom (AChar LF)) s1 []
                 (fun s2 caps2 => Some (s2, caps2))) = Some res ->
  ~ blank_prefix (fst res).
Proof.
  set (k := fun s1 => matcher false (Atom (AChar LF)) s1 []
                        (fun s2 caps2 => Some (s2, caps2))).
  induction t as [|c t IH]; intros H.
  - rewrite repeat_matcher_nil in H. discriminate H.
  - rewrite repeat_matcher_cons in H. unfold orelse in H.
    destruct (one_more false space true c t 0 k) as [r|] eqn:Hm.
    + injection H as <-. unfold one_more in Hm.
      destruct (atom_matches false space c); [|discriminate Hm].
      apply IH, Hm.
    + unfold k in H at 1. cbn [matcher] in H.
      destruct (atom_matches false (AChar LF) c) eqn:Hc; [|discriminate H].
      injection H as <-. cbn [fst]. apply atom_lf in Hc. subst c.
      unfold one_more in Hm.
      change (atom_matches false space LF) with true in Hm. cbn [Nat.pred] in Hm.
      intros (ws & q & Hws & ->).
      revert Hm. apply repeat_matcher_complete.
      * eapply Forall_impl; [|exact Hws]. intros c. apply space_atom.
      * lia.
      * unfold k. cbn. discriminate.
Qed.

Lemma blank_exec_rest (s rest : jsstring) (caps : captures) :
  exec_at multipleLineBreaksPattern s = Some (rest, caps) -> ~ blank_prefix rest.
Proof.
  unfold exec_at. cbn [multipleLineBreaksPattern source seqs ignoreCase matcher]. intros H.
  destruct s as [|c t]; [discriminate H|].
  destruct (atom_matches false (AChar LF) c); [|discriminate H].
  apply blank_repeat_rest in H. exact H.
Qed.

End Patterns.

(** ** Replacement: what it keeps and how it shrinks *)

Section ReplaceText.

Import RegExp Match.

Variables (re : regexp) (tpl : template) (text : jsstring).
Hypothesis tpl_text : template_text tpl = Some text.

Lemma substitute_text (caps : captures) : substitute tpl caps = text.
Proof.
  revert text tpl_text. induction tpl as [|[t|n] rest IH]; intros u H.
  - injection H as <-. reflexivity.
  - cbn in H. destruct (template_text rest) as [u'|]; [|discriminate H].
    injection H as <-. cbn. f_equal. apply IH. reflexivity.
  - discriminate H.
Qed.

(** A property of the code units of the text and of the replacement holds
    of the result. *)
Lemma replace_from_Forall (P : code_unit -> Prop) (s : jsstring) (skip : nat) :
  Forall P text -> Forall P s -> Forall P (replace_from re tpl s skip).
Proof.
  intros Ht. revert skip. induction s as [|c t IH]; intros skip Hs.
  - destruct skip; cbn [replace_from]; [|constructor].
    destruct (exec_at re []) as [[rest caps]|]; [|constructor].
    rewrite substitute_text, app_nil_r. exact Ht.
  - inversion Hs as [|? ? Hc Ht']; subst.
    destruct skip as [|n]; cbn [replace_from]; [|apply IH, Ht'].
    destruct (exec_at re (c :: t)) as [[rest caps]|].
    + rewrite substitute_text. apply Forall_app. split; [exact Ht|].
      destruct (length (c :: t) - length rest); [constructor; auto|]; apply IH, Ht'.
    + constructor; auto.
Qed.

Lemma replace_Forall (P : code_unit -> Prop) (s : jsstring) :
  Forall P text -> Forall P s -> Forall P (replace re tpl s).
Proof. apply replace_from_Forall. Qed.

(** When the replacement is shorter than any match, the result is no
    longer than the text, and shorter when there is a match. *)
Hypothesis shorter : length text < min_length (source re).

Lemma replace_shrinks (s : jsstring) :
  length (replace re tpl s) <= length s /\
  (test re s = true -> length (replace re tpl s) < length s).
Proof.
  apply replace_ind with (P := fun s y =>
    length y <= length s /\ (test re s = true -> length y < length s)).
  - lia.
  - split; [cbn; lia|]. rewrite test_nil by lia. discriminate.
  - intros c t E [IH1 IH2]. split; [cbn; lia|].
    cbn [test]. rewrite E. intros Ht. cbn. apply IH2 in Ht. lia.
  - intros w rest caps Hw E M [IH1 _].
    apply matches_min_length in M.
    rewrite substitute_text, !length_app. split; intros; lia.
Qed.

End ReplaceText.

(** ** Collapsing blank lines *)

Section Collapse.

Import RegExp Match Html.

Lemma blank_nonempty : 1 <= min_length (source multipleLineBreaksPattern).
Proof. cbn. lia. Qed.

Lemma collapse_squeezed (x : jsstring) :
  squeezed x (replace multipleLineBreaksPattern [TText [LF]] x).
Proof.
  apply replace_ind with (P := squeezed).
  - exact blank_nonempty.
  - constructor.
  - intros c t _ IH. constructor. exact IH.
  - intros w rest caps _ _ M IH.
    apply blank_matches_inv in M as (ws & -> & Hws).
    cbn [substitute flat_map app]. rewrite <- app_assoc. cbn [app].
    constructor; assumption.
Qed.

Lemma blank_prefix_cons (c : code_unit) (t : jsstring) :
  is_space c = true -> blank_prefix t -> blank_prefix (c :: t).
Proof.
  intros Hc (w & q & Hw & ->). exists (c :: w), q.
  split; [constructor; assumption|reflexivity].
Qed.

Lemma blank_prefix_inv (c : code_unit) (t : jsstring) :
  blank_prefix (c :: t) -> c = LF \/ (is_space c = true /\ blank_prefix t).
Proof.
  intros (w & q & Hw & E). destruct w as [|d w]; cbn in E; injection E as -> E.
  - left. reflexivity.
  - right. inversion Hw; subst. split; [assumption|]. exists w, q. auto.
Qed.

Lemma collapse_no_blank_prefix (x : jsstring) :
  (~ blank_prefix x ->
   ~ blank_prefix (replace multipleLineBreaksPattern [TText [LF]] x)) /\
  test multipleLineBreaksPattern
    (replace multipleLineBreaksPattern [TText [LF]] x) = false.
Proof.
  apply replace_ind with (P := fun x y =>
    (~ blank_prefix x -> ~ blank_prefix y) /\
    test multipleLineBreaksPattern y = false).
  - exact blank_nonempty.
  - split; [auto|reflexivity].
  - intros c t E [IH1 IH2].
    assert (Hkeep : ~ blank_prefix (c :: t) ->
              ~ blank_prefix
                  (c :: replace multipleLineBreaksPattern [TText [LF]] t)).
    { intros Hx Hy. apply blank_prefix_inv in Hy as [->|[Hc Hy]].
      - apply Hx. exists [], t. split; [constructor|reflexivity].
      - revert Hy. apply IH1. intros Ht. apply Hx.
        apply blank_prefix_cons; assumption. }
    split; [exact Hkeep|].
    cbn [test]. rewrite IH2.
    destruct (exec_at multipleLineBreaksPattern
                (c :: replace multipleLineBreaksPattern [TText [LF]] t))
      as [[rest caps]|] eqn:Ey; [|reflexivity].
    exfalso. pose proof Ey as Hc. apply blank_exec_first in Hc. subst c.
    apply blank_exec_prefix in Ey. revert Ey. apply IH1.
    intros Ht. apply blank_prefix_exec in Ht. contradiction.
  - intros w rest caps Hw E M [IH1 IH2].
    pose proof E as Hrest. apply blank_exec_rest in Hrest.
    apply blank_matches_inv in M as (ws & -> & Hws).
    cbn [substitute flat_map app]. split.
    + intros Hx. exfalso. apply Hx.
      exists [], ((ws ++ [LF]) ++ rest). split; [constructor|reflexivity].
    + cbn [test]. rewrite IH2.
      destruct (exec_at multipleLineBreaksPattern
                  (LF :: replace multipleLineBreaksPattern [TText [LF]] rest))
        as [[rest' caps']|] eqn:Ey; [|reflexivity].
      exfalso. apply blank_exec_prefix in Ey. revert Ey. apply IH1, Hrest.
Qed.

End Collapse.

(** ** [cleanHtmlContent] on texts without markup *)

Section Clean.

Import RegExp Match Html.

(** A text in which no pattern matches is returned as it is. *)
Lemma clean_fixed (y : jsstring) :
  free_of markupPatterns y = true ->
  test multipleLineBreaksPattern y = false ->
  clean y = y.
Proof.
  unfold free_of, markupPatterns, presentationPatterns, attributePatterns.
  cbn [forallb app]. rewrite !andb_true_iff, !negb_true_iff.
  intros (He & Hs & Hi & Hc & Ht & Hb & Hsp & Hf & Htd & _) Hbl.
  unfold clean.
  rewrite (replace_no_match _ _ _ He), (replace_no_match _ _ _ Hs),
    (replace_no_match _ _ _ Hi), (replace_no_match _ _ _ Hc),
    (replace_no_match _ _ _ Ht), (replace_no_match _ _ _ Hb),
    (replace_no_match _ _ _ Hsp), (replace_no_match _ _ _ Hf),
    (replace_no_match _ _ _ Hbl), (replace_no_match _ _ _ Htd).
  reflexivity.
Qed.

(** Collapsing blank lines creates no match of a markup pattern. *)
Lemma collapse_keeps_free (x : jsstring) :
  free_of markupPatterns x = true ->
  free_of markupPatterns
    (replace multipleLineBreaksPattern [TText [LF]] x) = true.
Proof.
  pose proof (collapse_squeezed x) as Hsq.
  set (y := replace multipleLineBreaksPattern [TText [LF]] x) in *.
  unfold free_of, markupPatterns, presentationPatterns, attributePatterns.
  cbn [forallb app]. rewrite !andb_true_iff, !negb_true_iff.
  assert (keep : forall re G,
            stable (ignoreCase re) G (source re) ->
            test re x = false -> test re y = false).
  { intros re G Hst Hx. destruct (test re y) eqn:Hy; [|reflexivity].
    rewrite (test_squeezed re G Hst Hsq Hy) in Hx. discriminate Hx. }
  intros (He & Hs & Hi & Hc & Ht & Hb & Hsp & Hf & Htd & _).
  repeat split.
  - exact (keep emptyTagPattern _ stable_emptyTagPattern He).
  - exact (keep styleAttributePattern _ stable_styleAttributePattern Hs).
  - exact (keep idAttributePattern _ stable_idAttributePattern Hi).
  - exact (keep classAttributePattern _ stable_classAttributePattern Hc).
  - exact (keep targetAttributePattern _ stable_targetAttributePattern Ht).
  - exact (keep borderAttributePattern _ stable_borderAttributePattern Hb).
  - exact (keep spanTagPattern _ stable_spanTagPattern Hsp).
  - exact (keep fontTagPattern _ stable_fontTagPattern Hf).
  - exact (keep tableCellPattern _ stable_tableCellPattern Htd).
Qed.

(** On a text free of markup, [clean] collapses the blank lines and does
    nothing else. *)
Lemma clean_free (x : jsstring) :
  free_of markupPatterns x = true ->
  clean x = replace multipleLineBreaksPattern [TText [LF]] x.
Proof.
  intros H. pose proof (collapse_keeps_free x H) as Hy. revert H Hy.
  unfold free_of, markupPatterns, presentationPatterns, attributePatterns.
  cbn [forallb app]. rewrite !andb_true_iff, !negb_true_iff.
  intros (He & Hs & Hi & Hc & Ht & Hb & Hsp & Hf & _ & _)
         (_ & _ & _ & _ & _ & _ & _ & _ & Htd & _).
  unfold clean.
  rewrite (replace_no_match _ _ _ He), (replace_no_match _ _ _ Hs),
    (replace_no_match _ _ _ Hi), (replace_no_match _ _ _ Hc),
    (replace_no_match _ _ _ Ht), (replace_no_match _ _ _ Hb),
    (replace_no_match _ _ _ Hsp), (replace_no_match _ _ _ Hf),
    (replace_no_match _ _ _ Htd).
  reflexivity.
Qed.

Lemma cleanHtmlContent_string (x : jsstring) :
  cleanHtmlContent (VString x) =
  inl (VString (match x with [] => [] | _ :: _ => clean x end)).
Proof. destruct x; reflexivity. Qed.

(** C3 as it is worded fails where a first pass uncovers a tag pair that
    is empty only once its content has been removed: the text below has no
    attribute and no wrapper, one application gives [<p></p>], a second
    one the empty string. *)
Lemma nested_empty_tags_not_idempotent :
  free_of presentationPatterns (js "<p><b></b></p>") = true /\
  ~ idempotent_at (js "<p><b></b></p>").
Proof.
  split; [vm_compute; reflexivity|].
  intros (y & H1 & H2). vm_compute in H1. injection H1 as <-.
  vm_compute in H2. discriminate H2.
Qed.

(** The same happens where the table-cell rule, the last one, leaves an
    empty tag pair behind: the text below is free of attributes, of
    wrappers and of tag pairs with white space only. *)
Lemma table_cell_not_idempotent :
  free_of (emptyTagPattern :: presentationPatterns)
    (js "<td><p></td></p></td>") = true /\
  ~ idempotent_at (js "<td><p></td></p></td>").
Proof.
  split; [vm_compute; reflexivity|].
  intros (y & H1 & H2). vm_compute in H1. injection H1 as <-.
  vm_compute in H2. discriminate H2.
Qed.

(** C3 (as amended): for every text x free of style/id/class/target/border
    attributes and of span/font wrapper tags, and also free of tag pairs
    with white space only and of paragraph-wrapped table cells, one
    application of [cleanHtmlContent] reaches a fixed point. *)
Theorem clean_idempotent_without_markup (x : jsstring) :
  free_of markupPatterns x = true -> idempotent_at x.
Proof.
  intros H. unfold idempotent_at. rewrite cleanHtmlContent_string.
  eexists. split; [reflexivity|]. rewrite cleanHtmlContent_string.
  do 2 f_equal. destruct x as [|c t]; [reflexivity|].
  rewrite (clean_free _ H).
  set (y := replace multipleLineBreaksPattern [TText [LF]] (c :: t)).
  destruct y as [|d y'] eqn:Ey; [reflexivity|]. rewrite <- Ey.
  apply clean_fixed.
  - apply collapse_keeps_free, H.
  - apply collapse_no_blank_prefix.
Qed.

Lemma clean_idempotent_without_markup_witness :
  free_of markupPatterns
    (js "<p>Line one" ++ [LF; 32%N; LF] ++ js "line two</p>") = true /\
  idempotent_at (js "<p>Line one" ++ [LF; 32%N; LF] ++ js "line two</p>").
Proof.
  split; [vm_compute; reflexivity|].
  apply (clean_idempotent_without_markup
           (js "<p>Line one" ++ [LF; 32%N; LF] ++ js "line two</p>")).
  vm_compute. reflexivity.
Defined.

(** *** Plain text *)

Lemma not_in_Forall (s : jsstring) :
  ~ In LT s <-> Forall (fun c => c <> LT) s.
Proof.
  rewrite Forall_forall. split.
  - intros H c Hc ->. contradiction.
  - intros H Hin. exact (H _ Hin eq_refl).
Qed.

(** On a text without [<] only the attribute patterns and the blank-line
    pattern can match. *)
Lemma clean_plain (x : jsstring) :
  ~ In LT x ->
  clean x =
  replace multipleLineBreaksPattern [TText [LF]]
    (replace borderAttributePattern []
       (replace targetAttributePattern []
          (replace classAttributePattern []
             (replace idAttributePattern []
                (replace styleAttributePattern [] x))))).
Proof.
  intros Hx. unfold clean.
  rewrite (replace_no_match emptyTagPattern [] x)
    by (apply test_without_lt; [reflexivity|exact Hx]).
  assert (keep : forall re s,
            Forall (fun c => c <> LT) s ->
            Forall (fun c => c <> LT) (replace re [] s)).
  { intros re s. apply replace_Forall with (text := []);
      [reflexivity|constructor]. }
  apply not_in_Forall in Hx.
  set (s6 := replace borderAttributePattern [] _).
  assert (H6 : Forall (fun c => c <> LT) s6) by (repeat apply keep; exact Hx).
  rewrite (replace_no_match spanTagPattern _ s6)
    by (apply test_without_lt; [reflexivity|apply not_in_Forall, H6]).
  rewrite (replace_no_match fontTagPattern _ s6)
    by (apply test_without_lt; [reflexivity|apply not_in_Forall, H6]).
  set (s9 := replace multipleLineBreaksPattern _ s6).
  assert (H9 : Forall (fun c => c <> LT) s9).
  { apply replace_Forall with (text := [LF]); [reflexivity| |exact H6].
    constructor; [discriminate|constructor]. }
  apply replace_no_match, test_without_lt; [reflexivity|].
  apply not_in_Forall, H9.
Qed.

(** C10: attribute stripping is lexical.  A text without any [<] is
    changed when it holds white space, [style=] and a quoted value; and a
    text without [<] that [cleanHtmlContent] returns unchanged holds no
    match of an attribute pattern and no blank-line run. *)
Theorem attribute_stripping_is_lexical :
  (~ In LT (js "a style=" ++ dq ++ js "red" ++ dq ++ js " b") /\
   cleanHtmlContent
     (VString (js "a style=" ++ dq ++ js "red" ++ dq ++ js " b")) =
   inl (VString (js "a b")))
  /\
  (forall x,
     ~ In LT x ->
     cleanHtmlContent (VString x) = inl (VString x) ->
     free_of attributePatterns x = true /\
     test multipleLineBreaksPattern x = false).
Proof.
  split.
  { split; [|vm_compute; reflexivity].
    vm_compute. intros H.
    repeat (destruct H as [H|H]; [discriminate H|]). exact H. }
  intros x Hx H. destruct x as [|c t]; [split; vm_compute; reflexivity|].
  rewrite cleanHtmlContent_string in H. injection H as H.
  rewrite (clean_plain _ Hx) in H.
  set (x := c :: t) in *. clearbody x.
  assert (shrink : forall re text s,
            length text < min_length (source re) ->
            template_text [TText text] = Some text ->
            length (replace re [TText text] s) <= length s /\
            (test re s = true -> length (replace re [TText text] s) < length s)).
  { intros re text s Hl Ht. apply replace_shrinks with (text := text); assumption. }
  assert (strip : forall re s,
            1 <= min_length (source re) ->
            length (replace re [] s) <= length s /\
            (test re s = true -> length (replace re [] s) < length s)).
  { intros re s Hl. apply replace_shrinks with (text := []);
      [reflexivity|exact Hl]. }
  remember (replace styleAttributePattern [] x) as s1 eqn:D1.
  remember (replace idAttributePattern [] s1) as s2 eqn:D2.
  remember (replace classAttributePattern [] s2) as s3 eqn:D3.
  remember (replace targetAttributePattern [] s3) as s4 eqn:D4.
  remember (replace borderAttributePattern [] s4) as s5 eqn:D5.
  pose proof (strip styleAttributePattern x ltac:(cbn; lia)) as [L1 S1].
  pose proof (strip idAttributePattern s1 ltac:(cbn; lia)) as [L2 S2].
  pose proof (strip classAttributePattern s2 ltac:(cbn; lia)) as [L3 S3].
  pose proof (strip targetAttributePattern s3 ltac:(cbn; lia)) as [L4 S4].
  pose proof (strip borderAttributePattern s4 ltac:(cbn; lia)) as [L5 S5].
  pose proof (shrink multipleLineBreaksPattern [LF] s5 ltac:(cbn; lia)
                ltac:(reflexivity)) as [L6 S6].
  rewrite <- D1 in L1, S1. rewrite <- D2 in L2, S2. rewrite <- D3 in L3, S3.
  rewrite <- D4 in L4, S4. rewrite <- D5 in L5, S5.
  assert (L : length (replace multipleLineBreaksPattern [TText [LF]] s5)
              = length x) by (rewrite H; reflexivity).
  assert (T1 : test styleAttributePattern x = false).
  { destruct (test styleAttributePattern x); [|reflexivity].
    specialize (S1 eq_refl). lia. }
  rewrite (replace_no_match _ _ _ T1) in D1. subst s1.
  assert (T2 : test idAttributePattern x = false).
  { destruct (test idAttributePattern x); [|reflexivity].
    specialize (S2 eq_refl). lia. }
  rewrite (replace_no_match _ _ _ T2) in D2. subst s2.
  assert (T3 : test classAttributePattern x = false).
  { destruct (test classAttributePattern x); [|reflexivity].
    specialize (S3 eq_refl). lia. }
  rewrite (replace_no_match _ _ _ T3) in D3. subst s3.
  assert (T4 : test targetAttributePattern x = false).
  { destruct (test targetAttributePattern x); [|reflexivity].
    specialize (S4 eq_refl). lia. }
  rewrite (replace_no_match _ _ _ T4) in D4. subst s4.
  assert (T5 : test borderAttributePattern x = false).
  { destruct (test borderAttributePattern x); [|reflexivity].
    specialize (S5 eq_refl). lia. }
  rewrite (replace_no_match _ _ _ T5) in D5. subst s5.
  assert (T6 : test multipleLineBreaksPattern x = false).
  { destruct (test multipleLineBreaksPattern x); [|reflexivity].
    specialize (S6 eq_refl). lia. }
  split; [|exact T6].
  unfold free_of, attributePatterns. cbn [forallb].
  rewrite T1, T2, T3, T4, T5. reflexivity.
Qed.

Lemma attribute_stripping_is_lexical_witness :
  ~ In LT (js "plain text") /\
  cleanHtmlContent (VString (js "plain text")) =
    inl (VString (js "plain text")) /\
  free_of attributePatterns (js "plain text") = true /\
  test multipleLineBreaksPattern (js "plain text") = false.
Proof.
  assert (H1 : ~ In LT (js "plain text")).
  { vm_compute. intros H.
    repeat (destruct H as [H|H]; [discriminate H|]). exact H. }
  assert (H2 : cleanHtmlContent (VString (js "plain text")) =
               inl (VString (js "plain text"))) by (vm_compute; reflexivity).
  split; [exact H1|]. split; [exact H2|].
  exact (proj2 attribute_stripping_is_lexical (js "plain text") H1 H2).
Defined.

End Clean.

(** ** Tag pairs with white space only *)

Section EmptyTags.

Import RegExp Match Html.

Ltac inv_matches :=
  repeat match goal with
  | H : matches _ (Seq _ _) _ _ _ |- _ => inversion H; subst; clear H
  | H : matches _ (Atom _) _ _ _ |- _ => inversion H; subst; clear H
  | H : matches _ (Group _ _) _ _ _ |- _ => inversion H; subst; clear H
  | H : matches _ (Rep _ _ _) _ _ _ |- _ => inversion H; subst; clear H
  | H : matches _ (Backref _) _ _ _ |- _ => inversion H; subst; clear H
  end.

Lemma split_at_first (c : code_unit) (l1 r1 l2 r2 : jsstring) :
  ~ In c l1 -> ~ In c l2 ->
  l1 ++ c :: r1 = l2 ++ c :: r2 -> l1 = l2 /\ r1 = r2.
Proof.
  revert l2. induction l1 as [|x l1 IH]; intros [|y l2] H1 H2 E; cbn in E.
  - injection E as E. auto.
  - injection E as E1 E2. subst y. exfalso. apply H2. left. reflexivity.
  - injection E as E1 E2. subst x. exfalso. apply H1. left. reflexivity.
  - injection E as E1 E2. subst y. destruct (IH l2) as [E3 E4]; auto.
    + intros H. apply H1. right. exact H.
    + intros H. apply H2. right. exact H.
    + subst. auto.
Qed.

(** A pattern character that is not a letter matches itself only. *)
Lemma atom_char_exact (x c : code_unit) :
  to_upper x = x -> to_lower x = x ->
  atom_matches true (AChar x) c = true -> c = x.
Proof.
  unfold atom_matches, canonicalize, to_upper, to_lower.
  intros Hu Hl H. apply N.eqb_eq in H.
  destruct ((97 <=? x)%N && (x <=? 122)%N) eqn:E1;
  destruct ((65 <=? x)%N && (x <=? 90)%N) eqn:E2;
  destruct ((97 <=? c)%N && (c <=? 122)%N) eqn:E3;
  rewrite ?andb_true_iff, ?andb_false_iff, ?N.leb_le, ?N.leb_gt in *; lia.
Qed.

Lemma canon_eq_Forall (P : code_unit -> Prop) (v w : jsstring) :
  (forall c d, canonicalize true c = canonicalize true d -> P c -> P d) ->
  canon_eq true v w -> Forall P v -> Forall P w.
Proof.
  intros HP. revert w. induction v as [|x v IH]; intros [|y w] E Hv;
    try discriminate E; [constructor|].
  unfold canon_eq in E. cbn in E. injection E as E1 E2.
  inversion Hv; subst. constructor; [eapply HP; eassumption|]. apply IH; assumption.
Qed.

Lemma canon_not_gt (c d : code_unit) :
  canonicalize true c = canonicalize true d -> c <> GT -> d <> GT.
Proof.
  unfold canonicalize, to_upper, GT. intros E Hc ->.
  destruct ((97 <=? c)%N && (c <=? 122)%N) eqn:E1;
  cbn in E;
  rewrite ?andb_true_iff, ?andb_false_iff, ?N.leb_le, ?N.leb_gt in *; lia.
Qed.

Lemma alnum_not_gt (c : code_unit) :
  atom_matches true alnum c = true -> c <> GT.
Proof. intros H ->. discriminate H. Qed.

Lemma not_gt_not_gt (c : code_unit) :
  atom_matches true not_gt c = true -> c <> GT.
Proof. intros H ->. discriminate H. Qed.

Lemma letter_alnum (c : code_unit) :
  atom_matches true letter c = true -> atom_matches true alnum c = true.
Proof.
  unfold atom_matches, letter, alnum, in_class. cbn [xorb existsb].
  rewrite !orb_false_r. intros ->. reflexivity.
Qed.

Lemma space_not_lt (c : code_unit) :
  is_space c = true -> c <> LT.
Proof. intros H ->. discriminate H. Qed.

Lemma Forall_not_in (c : code_unit) (l : jsstring) :
  Forall (fun d => d <> c) l -> ~ In c l.
Proof. rewrite Forall_forall. intros H Hin. exact (H _ Hin eq_refl). Qed.

Lemma is_space_to_upper (c : code_unit) :
  is_space (to_upper c) = true -> is_space c = true.
Proof.
  unfold to_upper. destruct ((97 <=? c)%N && (c <=? 122)%N) eqn:E; [|auto].
  intros H. exfalso. apply is_space_cases in H.
  apply andb_true_iff in E as [E1 E2]. apply N.leb_le in E1, E2.
  cbn [In] in H. lia.
Qed.

Lemma is_space_to_lower (c : code_unit) :
  is_space (to_lower c) = true -> is_space c = true.
Proof.
  unfold to_lower. destruct ((65 <=? c)%N && (c <=? 90)%N) eqn:E; [|auto].
  intros H. exfalso. apply is_space_cases in H.
  apply andb_true_iff in E as [E1 E2]. apply N.leb_le in E1, E2.
  cbn [In] in H. lia.
Qed.

Lemma atom_space_any (ic : bool) (c : code_unit) :
  atom_matches ic space c = true -> is_space c = true.
Proof.
  destruct ic; cbn [atom_matches space xorb in_class variants existsb in_item];
    rewrite ?orb_false_r, ?orb_true_iff.
  - intros [H|[H|H]]; auto using is_space_to_upper, is_space_to_lower.
  - auto.
Qed.

Lemma emptyTag_matches_inv (caps : captures) (w : jsstring) (caps1 : captures) :
  matches true (source emptyTagPattern) caps w caps1 ->
  exists name attrs ws closing,
    w = tag_pair name attrs ws closing /\
    Forall (fun c => c <> GT) (name ++ attrs) /\
    Forall (fun c => is_space c = true) ws /\
    Forall (fun c => c <> GT) closing.
Proof.
  intros M.
  cbv [emptyTagPattern source seqs lit js map list_ascii_of_string star] in M.
  inv_matches.
  all: repeat match goal with
       | H : atom_matches true (AChar ?x) ?c = true |- _ =>
           apply atom_char_exact in H; [subst c|reflexivity|reflexivity]
       end.
  all: match goal with
       | H : capture 1 _ = _ |- _ => cbn in H; try discriminate H
       end.
  match goal with H : Some _ = Some _ |- _ => injection H as <- end.
  match goal with
  | Hl : atom_matches true letter ?c = true,
    Hn : Forall _ ?n, Ha : Forall (fun c => atom_matches true not_gt c = true) ?a,
    Hs : Forall (fun c => atom_matches true space c = true) ?sp,
    Hc : canon_eq true _ ?cl |- _ =>
      exists (c :: n), a, sp, cl;
      assert (Hname : Forall (fun d => d <> GT) (c :: n))
  end.
  { constructor; [apply alnum_not_gt, letter_alnum; assumption|].
    eapply Forall_impl; [|eassumption]. exact alnum_not_gt. }
  split; [|split; [|split]].
  - unfold tag_pair. cbn [app]. rewrite <- ?app_assoc. reflexivity.
  - apply Forall_app. split; [exact Hname|].
    eapply Forall_impl; [|eassumption]. exact not_gt_not_gt.
  - eapply Forall_impl; [|eassumption]. exact (atom_space_any true).
  - eapply canon_eq_Forall; [exact canon_not_gt|eassumption|exact Hname].
Qed.

Lemma emptyTag_matches_tag_pair (name attrs ws closing : jsstring) :
  is_tag_name name = true ->
  forallb (atom_matches true not_gt) attrs = true ->
  forallb is_space ws = true ->
  canon_eq true name closing ->
  exists caps,
    matches true (source emptyTagPattern) [] (tag_pair name attrs ws closing) caps.
Proof.
  intros Hn Ha Hw Hc. destruct name as [|c n]; [discriminate Hn|].
  cbn [is_tag_name] in Hn. apply andb_true_iff in Hn as [Hl Hn].
  rewrite forallb_forall in Hn, Ha, Hw.
  eexists.
  cbv [emptyTagPattern source seqs lit js map list_ascii_of_string star].
  replace (tag_pair (c :: n) attrs ws closing)
    with ([LT] ++ ([c] ++ n) ++ attrs ++ [GT] ++ ws ++ ([LT] ++ [SLASH]) ++ closing ++ [GT])
    by reflexivity.
  repeat (econstructor; try eassumption); try reflexivity;
    try (cbn; lia); apply Forall_forall; intros d Hd; auto.
  apply space_atom, Hw, Hd.
Qed.

Lemma emptyTag_exec_tag_pair (name attrs ws closing : jsstring) :
  is_tag_name name = true ->
  forallb (atom_matches true not_gt) attrs = true ->
  forallb is_space ws = true ->
  canon_eq true name closing ->
  exists caps,
    exec_at emptyTagPattern (tag_pair name attrs ws closing) = Some ([], caps).
Proof.
  intros Hn Ha Hw Hc.
  destruct (@emptyTag_matches_tag_pair name attrs ws closing Hn Ha Hw Hc) as (caps0 & M0).
  pose proof (@exec_at_complete emptyTagPattern _ [] _ M0) as Hex.
  rewrite app_nil_r in Hex.
  destruct (exec_at emptyTagPattern (tag_pair name attrs ws closing))
    as [[rest caps]|] eqn:E; [|contradiction].
  exists caps. do 2 f_equal.
  apply exec_at_sound in E as (w & E & M).
  apply emptyTag_matches_inv in M as (n & a & sp & n' & -> & Hna & Hsp & Hn').
  assert (Hname : Forall (fun d => d <> GT) (name ++ attrs)).
  { apply Forall_app. split; apply Forall_forall; intros d Hd.
    - destruct name as [|c n0]; [discriminate Hn|]. cbn [is_tag_name] in Hn.
      apply andb_true_iff in Hn as [Hl Hn0]. rewrite forallb_forall in Hn0.
      destruct Hd as [<-|Hd]; [apply alnum_not_gt, letter_alnum, Hl|].
      apply alnum_not_gt, Hn0, Hd.
    - rewrite forallb_forall in Ha. apply not_gt_not_gt, Ha, Hd. }
  assert (Hclosing : Forall (fun d => d <> GT) closing).
  { eapply canon_eq_Forall; [exact canon_not_gt|exact Hc|].
    apply Forall_app in Hname. apply Hname. }
  assert (Hws : Forall (fun d => d <> LT) ws).
  { apply Forall_forall. intros d Hd. rewrite forallb_forall in Hw.
    apply space_not_lt, Hw, Hd. }
  assert (Hsp' : Forall (fun d => d <> LT) sp).
  { eapply Forall_impl; [|exact Hsp]. exact space_not_lt. }
  unfold tag_pair in E. cbn [app] in E. injection E as E.
  assert (E1 : (name ++ attrs) ++ GT :: (ws ++ LT :: SLASH :: closing ++ [GT])
               = (n ++ a) ++ GT :: (sp ++ LT :: SLASH :: n' ++ GT :: rest)).
  { rewrite <- !app_assoc. rewrite E.
    repeat (rewrite <- app_assoc; cbn [app]). reflexivity. }
  apply split_at_first in E1 as [_ E2]; [|apply Forall_not_in; assumption..].
  apply split_at_first in E2 as [_ E3]; [|apply Forall_not_in; assumption..].
  injection E3 as E3.
  apply split_at_first in E3 as [_ E4]; [|apply Forall_not_in; assumption..].
  symmetry. exact E4.
Qed.

Lemma clean_tag_pair (name attrs ws closing : jsstring) :
  is_tag_name name = true ->
  forallb (atom_matches true not_gt) attrs = true ->
  forallb is_space ws = true ->
  canon_eq true name closing ->
  cleanHtmlContent (VString (tag_pair name attrs ws closing)) =
  inl (VString []).
Proof.
  intros Hn Ha Hw Hc.
  destruct (@emptyTag_exec_tag_pair name attrs ws closing Hn Ha Hw Hc) as (caps & E).
  assert (R : replace emptyTagPattern [] (tag_pair name attrs ws closing) = []).
  { rewrite <- (app_nil_r (tag_pair name attrs ws closing)) in E |- *.
    rewrite (@replace_match emptyTagPattern [] (tag_pair name attrs ws closing) [] caps);
      [reflexivity|discriminate|exact E]. }
  assert (C : clean (tag_pair name attrs ws closing) = []).
  { unfold clean. rewrite R. reflexivity. }
  rewrite cleanHtmlContent_string, C. reflexivity.
Qed.

Lemma not_gt_atom (c : code_unit) :
  c <> GT -> atom_matches true not_gt c = true.
Proof.
  intros Hc. cbn [atom_matches not_gt xorb in_class variants existsb in_item].
  rewrite !orb_false_r.
  assert (U : to_upper c <> GT).
  { unfold to_upper, GT in *.
    destruct ((97 <=? c)%N && (c <=? 122)%N) eqn:E; [|exact Hc].
    apply andb_true_iff in E as [E1 E2]. apply N.leb_le in E1, E2. lia. }
  assert (L : to_lower c <> GT).
  { unfold to_lower, GT in *.
    destruct ((65 <=? c)%N && (c <=? 90)%N) eqn:E; [|exact Hc].
    apply andb_true_iff in E as [E1 E2]. apply N.leb_le in E1, E2. lia. }
  apply N.eqb_neq in Hc, U, L. unfold chr, js. cbn [map list_ascii_of_string].
  change (N_of_ascii ">") with GT. rewrite Hc, U, L. reflexivity.
Qed.



End EmptyTags.

(** ** Wrappers and table cells *)

Section Content.

Import RegExp Match Html.

Local Open Scope list_scope.

Ltac inv_matches :=
  repeat match goal with
  | H : matches _ (Seq _ _) _ _ _ |- _ => inversion H; subst; clear H
  | H : matches _ (Atom _) _ _ _ |- _ => inversion H; subst; clear H
  | H : matches _ (Group _ _) _ _ _ |- _ => inversion H; subst; clear H
  | H : matches _ (Rep _ _ _) _ _ _ |- _ => inversion H; subst; clear H
  | H : matches _ (Backref _) _ _ _ |- _ => inversion H; subst; clear H
  end.

Ltac exact_chars :=
  repeat match goal with
  | H : atom_matches true (AChar ?x) ?c = true |- _ =>
      first [ apply atom_char_exact in H; [subst c|reflexivity|reflexivity]
            | revert H ]
  end; intros.

(** *** Where a pattern cannot match *)

Lemma test_skip (re : regexp) (c : code_unit) (s : jsstring) :
  first_char LT (source re) = true -> c <> LT ->
  test re (c :: s) = test re s.
Proof.
  intros Hf Hc. cbn [test].
  destruct (exec_at re (c :: s)) as [[rest caps]|] eqn:E; [|reflexivity].
  exfalso. apply exec_at_sound in E as (w & E & M).
  destruct (@first_char_matches _ _ _ _ _ _ Hf M) as (d & w1 & -> & Hd).
  apply canonicalize_lt in Hd. subst d. injection E as E _. auto.
Qed.

Lemma test_skip_app (re : regexp) (u s : jsstring) :
  first_char LT (source re) = true -> ~ In LT u ->
  test re (u ++ s) = test re s.
Proof.
  intros Hf Hu. induction u as [|c u IH]; [reflexivity|].
  cbn [app]. rewrite test_skip; [|exact Hf|].
  - apply IH. intros H. apply Hu. right. exact H.
  - intros ->. apply Hu. left. reflexivity.
Qed.

(** A text that begins with [<]: no match there, none in the following
    characters up to the next [<]. *)
Lemma test_segment (re : regexp) (u s : jsstring) :
  first_char LT (source re) = true -> ~ In LT u ->
  exec_at re (LT :: u ++ s) = None ->
  test re (LT :: u ++ s) = test re s.
Proof.
  intros Hf Hu E. cbn [test]. rewrite E. apply test_skip_app; assumption.
Qed.

(** *** The empty-tag pattern *)

Lemma emptyTag_matches_shape (caps : captures) (w : jsstring)
    (caps1 : captures) :
  matches true (source emptyTagPattern) caps w caps1 ->
  exists c tagtext ws closing,
    w = LT :: c :: tagtext ++ GT :: ws ++ LT :: SLASH :: closing ++ [GT] /\
    atom_matches true letter c = true /\
    Forall (fun d => d <> GT) (c :: tagtext) /\
    Forall (fun d => is_space d = true) ws.
Proof.
  intros M.
  cbv [emptyTagPattern source seqs lit js map list_ascii_of_string star] in M.
  inv_matches.
  all: repeat match goal with
       | H : atom_matches true (AChar ?x) ?c = true |- _ =>
           apply atom_char_exact in H; [subst c|reflexivity|reflexivity]
       end.
  all: match goal with
       | H : capture 1 _ = _ |- _ => cbn in H; try discriminate H
       end.
  match goal with H : Some _ = Some _ |- _ => injection H as <- end.
  match goal with
  | Hl : atom_matches true letter ?c = true,
    Hn : Forall _ ?n, Ha : Forall (fun c => atom_matches true not_gt c = true) ?a,
    Hs : Forall (fun c => atom_matches true space c = true) ?sp,
    Hc : canon_eq true _ ?cl |- _ =>
      exists c, (n ++ a), sp, cl
  end.
  split; [|split; [assumption|split]].
  - cbn [app]. rewrite <- ?app_assoc. reflexivity.
  - constructor; [apply alnum_not_gt, letter_alnum; assumption|].
    apply Forall_app. split.
    + eapply Forall_impl; [|eassumption]. exact alnum_not_gt.
    + eapply Forall_impl; [|eassumption]. exact not_gt_not_gt.
  - eapply Forall_impl; [|eassumption]. exact (atom_space_any true).
Qed.

(** At an opening tag whose text up to the next [<] is [body]: the pattern
    matches only if [body] is white space and a closing tag follows. *)
Lemma emptyTag_exec_open (tagtext body post rest : jsstring)
    (caps : captures) :
  ~ In GT tagtext -> ~ In LT body ->
  exec_at emptyTagPattern (LT :: tagtext ++ GT :: body ++ LT :: post) =
    Some (rest, caps) ->
  Forall (fun d => is_space d = true) body /\
  exists post1, post = SLASH :: post1.
Proof.
  intros Ht Hb E. apply exec_at_sound in E as (w & E & M).
  apply emptyTag_matches_shape in M
    as (c & text & ws & closing & -> & _ & Htext & Hws).
  cbn [app] in E. injection E as E.
  repeat (rewrite <- app_assoc in E; cbn [app] in E).
  change (c :: text ++ ?r) with ((c :: text) ++ r) in E.
  apply split_at_first in E as [_ E];
    [|exact Ht|apply Forall_not_in; exact Htext].
  apply split_at_first in E as [-> E]; [|exact Hb|].
  - split; [exact Hws|]. eexists. exact E.
  - apply Forall_not_in. eapply Forall_impl; [|exact Hws]. exact space_not_lt.
Qed.

(** Nor does it match at a closing tag. *)
Lemma emptyTag_exec_close (post : jsstring) :
  exec_at emptyTagPattern (LT :: SLASH :: post) = None.
Proof.
  destruct (exec_at emptyTagPattern (LT :: SLASH :: post))
    as [[rest caps]|] eqn:E; [|reflexivity].
  exfalso. apply exec_at_sound in E as (w & E & M).
  apply emptyTag_matches_shape in M
    as (c & text & ws & closing & -> & Hc & _).
  injection E as <-. discriminate Hc.
Qed.

(** *** The attribute patterns *)

(** Every match of an attribute pattern holds the character [=]. *)
Lemma attribute_match_equals (re : regexp) (caps : captures) (w : jsstring)
    (caps1 : captures) :
  In re attributePatterns ->
  matches (ignoreCase re) (source re) caps w caps1 -> In EQUALS w.
Proof.
  intros Hin M. unfold attributePatterns in Hin. cbn [In] in Hin.
  repeat (destruct Hin as [<-|Hin]; [|try contradiction]);
    cbv [styleAttributePattern idAttributePattern classAttributePattern
         targetAttributePattern borderAttributePattern attributePattern
         ignoreCase source seqs lit js map list_ascii_of_string star plus] in M;
    inv_matches;
    repeat match goal with
    | H : atom_matches true (AChar ?x) ?c = true |- _ =>
        apply atom_char_exact in H; [subst c|reflexivity|reflexivity]
    end;
    rewrite !in_app_iff; cbn [In]; unfold EQUALS; cbn; tauto.
Qed.

Lemma test_without_equals (re : regexp) (s : jsstring) :
  In re attributePatterns -> ~ In EQUALS s -> test re s = false.
Proof.
  intros Hre Hs. destruct (test re s) eqn:E; [|reflexivity].
  apply test_sound in E as (pre & w & post & caps & -> & M).
  exfalso. apply Hs. rewrite !in_app_iff. right. left.
  eapply attribute_match_equals; eassumption.
Qed.

(** *** The blank-line pattern *)

Lemma test_blank_skip (u v : jsstring) :
  ~ In LF u ->
  test multipleLineBreaksPattern (u ++ v) = test multipleLineBreaksPattern v.
Proof.
  intros Hu. induction u as [|c u IH]; [reflexivity|].
  cbn [app test].
  destruct (exec_at multipleLineBreaksPattern (c :: u ++ v))
    as [[rest caps]|] eqn:E.
  - apply blank_exec_first in E. exfalso. apply Hu. left. auto.
  - apply IH. intros H. apply Hu. right. exact H.
Qed.

Lemma blank_prefix_padding (ws : jsstring) (c : code_unit) (v : jsstring) :
  is_space c = false -> blank_prefix (ws ++ c :: v) -> In LF ws.
Proof.
  intros Hc (w & t & Hw & E). revert w Hw E.
  induction ws as [|a ws IH]; intros [|x w] Hw E; cbn [app] in E;
    injection E as E1 E2.
  - subst c. discriminate Hc.
  - subst x. inversion Hw; subst. congruence.
  - left. exact E1.
  - right. inversion Hw; subst. eapply IH; eassumption.
Qed.

(** White space with at most one line feed, followed by a character that
    is not white space, holds no blank line. *)
Lemma test_blank_padding (ws : jsstring) (c : code_unit) (v : jsstring) :
  padding ws = true -> is_space c = false ->
  test multipleLineBreaksPattern (ws ++ c :: v) =
  test multipleLineBreaksPattern (c :: v).
Proof.
  intros Hp Hc. induction ws as [|d ws IH]; [reflexivity|].
  unfold padding in Hp. cbn [forallb] in Hp.
  apply andb_true_iff in Hp as [Hs Hn].
  apply andb_true_iff in Hs as [Hd Hs]. apply Nat.leb_le in Hn.
  cbn [count_occ] in Hn.
  cbn [app]. cbn [test].
  destruct (exec_at multipleLineBreaksPattern (d :: ws ++ c :: v))
    as [[rest caps]|] eqn:E.
  - exfalso. pose proof (blank_exec_first _ _ E) as ->.
    apply blank_exec_prefix, blank_prefix_padding in E; [|exact Hc].
    apply (count_occ_In N.eq_dec) in E.
    destruct (N.eq_dec LF LF) as [_|N]; [lia|congruence].
  - apply IH. unfold padding. rewrite Hs. apply Nat.leb_le.
    destruct (N.eq_dec d LF); lia.
Qed.

Lemma padding_space (ws : jsstring) :
  padding ws = true -> Forall (fun d => is_space d = true) ws.
Proof.
  unfold padding. intros H. apply andb_true_iff in H as [H _].
  apply Forall_forall. rewrite forallb_forall in H. exact H.
Qed.

(** *** What is plain *)

Lemma plain_inv (content : jsstring) :
  plain content = true ->
  ~ In LT content /\ ~ In EQUALS content /\
  Forall (fun c => atom_matches true ADot c = true) content /\
  ~ In LF content /\
  ~ Forall (fun c => is_space c = true) content.
Proof.
  unfold plain. intros H. apply andb_true_iff in H as [Hall Hex].
  rewrite forallb_forall in Hall.
  assert (Hc : forall c, In c content ->
             c <> LT /\ c <> EQUALS /\ is_line_terminator c = false).
  { intros c Hin. apply Hall in Hin.
    apply andb_true_iff in Hin as [Hin H3].
    apply andb_true_iff in Hin as [H1 H2].
    rewrite negb_true_iff in H1, H2, H3. apply N.eqb_neq in H1, H2. auto. }
  repeat split.
  - intros Hin. exact (proj1 (Hc _ Hin) eq_refl).
  - intros Hin. exact (proj1 (proj2 (Hc _ Hin)) eq_refl).
  - apply Forall_forall. intros c Hin. cbn [atom_matches].
    rewrite (proj2 (proj2 (Hc _ Hin))). reflexivity.
  - intros Hin. pose proof (proj2 (proj2 (Hc _ Hin))) as H. discriminate H.
  - intros Hsp. apply existsb_exists in Hex as (c & Hin & Hn).
    rewrite Forall_forall in Hsp. rewrite (Hsp _ Hin) in Hn. discriminate Hn.
Qed.

(** *** The wrapper patterns *)

Lemma split_first_occurrence (c : code_unit) (l1 r1 l2 r2 : jsstring) :
  ~ In c l2 -> l1 ++ c :: r1 = l2 ++ c :: r2 ->
  (l1 = l2 /\ r1 = r2) \/
  exists y, l1 = l2 ++ c :: y /\ r2 = y ++ c :: r1.
Proof.
  revert l1. induction l2 as [|a l2 IH]; intros [|x l1] H E; cbn [app] in E.
  - injection E as E. left. auto.
  - injection E as E1 E2. subst x. right. exists l1. auto.
  - injection E as E1 E2. subst a. exfalso. apply H. left. reflexivity.
  - injection E as E1 E2. subst a.
    destruct (IH l1) as [[-> ->]|(y & -> & ->)]; [| |left; auto|].
    + intros Hin. apply H. right. exact Hin.
    + exact E2.
    + right. exists y. auto.
Qed.

Lemma any_char_all (c : code_unit) : atom_matches true any_char c = true.
Proof.
  cbn [atom_matches any_char xorb in_class variants existsb in_item].
  destruct (is_space c); cbn; rewrite ?orb_true_r; reflexivity.
Qed.

Lemma span_matches_shape (caps : captures) (w : jsstring) (caps1 : captures) :
  matches true (source spanTagPattern) caps w caps1 ->
  exists c1 c2 c3 c4 attrs content d1 d2 d3 d4,
    w = LT :: c1 :: c2 :: c3 :: c4 :: attrs ++ GT :: content ++
        LT :: SLASH :: d1 :: d2 :: d3 :: d4 :: [GT] /\
    to_upper c1 = 83%N /\
    ~ In GT attrs /\
    caps1 = (1, content) :: caps.
Proof.
  intros M.
  cbv [spanTagPattern wrapperTagPattern source seqs lit js map
       list_ascii_of_string star lazy_star] in M.
  inv_matches.
  repeat match goal with
  | H : atom_matches true (AChar ?x) ?c = true |- _ =>
      apply atom_char_exact in H; [subst c|reflexivity|reflexivity]
  end.
  match goal with
  | H : atom_matches true (AChar 115%N) ?c = true,
    Ha : Forall (fun c => atom_matches true not_gt c = true) ?a |- 
    _ :: (_ ++ _) ++ _ = _ /\ _ => idtac
  | _ => idtac
  end.
  match goal with
  | |- exists c1 c2 c3 c4 attrs content d1 d2 d3 d4,
         [_] ++ ([?x1] ++ [?x2] ++ [?x3] ++ [?x4]) ++ ?a ++ [_] ++ ?ct ++
         ([_] ++ [_]) ++ ([?y1] ++ [?y2] ++ [?y3] ++ [?y4]) ++ [_] = _ /\ _ =>
      exists x1, x2, x3, x4, a, ct, y1, y2, y3, y4
  end.
  split; [|split; [|split; [|reflexivity]]].
  - cbn [app]. rewrite <- ?app_assoc. reflexivity.
  - match goal with
    | H : atom_matches true (AChar 115%N) ?c = true |- to_upper ?c = _ =>
        apply N.eqb_eq in H; symmetry; exact H
    end.
  - apply Forall_not_in. eapply Forall_impl; [|eassumption].
    exact not_gt_not_gt.
Qed.

Lemma span_exec_second (c : code_unit) (s rest : jsstring) (caps : captures) :
  exec_at spanTagPattern (LT :: c :: s) = Some (rest, caps) ->
  to_upper c = 83%N.
Proof.
  intros E. apply exec_at_sound in E as (w & E & M).
  apply span_matches_shape in M
    as (c1 & c2 & c3 & c4 & attrs & content & d1 & d2 & d3 & d4 & -> & H & _).
  cbn [app] in E. injection E as -> _. exact H.
Qed.

Lemma font_exec_second (c : code_unit) (s rest : jsstring) (caps : captures) :
  exec_at fontTagPattern (LT :: c :: s) = Some (rest, caps) ->
  to_upper c = 70%N.
Proof.
  intros E. apply exec_at_sound in E as (w & E & M).
  cbv [fontTagPattern wrapperTagPattern source ignoreCase seqs lit js map
       list_ascii_of_string star lazy_star] in M.
  inv_matches.
  repeat match goal with
  | H : atom_matches true (AChar ?x) ?c = true |- _ =>
      apply atom_char_exact in H; [subst c|reflexivity|reflexivity]
  end.
  cbn [app] in E. injection E as -> _.
  match goal with
  | H : atom_matches true (AChar 102%N) ?c = true |- to_upper ?c = _ =>
      apply N.eqb_eq in H; symmetry; exact H
  end.
Qed.

(** The span pattern at a span without attributes around content without
    [<]: the match is the whole wrapper, the group is the content. *)
Lemma span_exec_plain (content : jsstring) :
  ~ In LT content ->
  exec_at spanTagPattern (js "<span>" ++ content ++ js "</span>") =
  Some ([], [(1, content)]).
Proof.
  intros Hc.
  assert (M0 : matches true (source spanTagPattern) []
                 (js "<span>" ++ content ++ js "</span>") [(1, content)]).
  { cbv [spanTagPattern wrapperTagPattern source seqs lit js map
         list_ascii_of_string star lazy_star].
    match goal with
    | |- matches _ ?r _ _ _ =>
        change (matches true r []
                  ([LT] ++ ([115] ++ [112] ++ [97] ++ [110])%N ++ [] ++
                   [GT] ++ content ++ ([LT] ++ [SLASH]) ++
                   ([115] ++ [112] ++ [97] ++ [110])%N ++ [GT])
                  [(1, content)])
    end.
    repeat (econstructor; try eassumption); try reflexivity;
      try (cbn; lia).
    apply Forall_forall. intros d _. apply any_char_all. }
  pose proof (@exec_at_complete spanTagPattern _ [] _ M0) as Hex.
  rewrite app_nil_r in Hex.
  destruct (exec_at spanTagPattern (js "<span>" ++ content ++ js "</span>"))
    as [[rest caps]|] eqn:E; [|contradiction].
  apply exec_at_sound in E as (w & E & M).
  apply span_matches_shape in M
    as (c1 & c2 & c3 & c4 & attrs & ct & d1 & d2 & d3 & d4 & -> & _ & Ha & ->).
  change (js "<span>" ++ content ++ js "</span>")
    with (LT :: 115 :: 112 :: 97 :: 110 :: [] ++ GT :: content ++
          LT :: SLASH :: js "span>")%N in E.
  cbn [app] in E. repeat (rewrite <- app_assoc in E; cbn [app] in E).
  injection E as _ _ _ _ E.
  destruct (@split_at_first GT [] _ attrs _ (fun H => H) Ha E) as [_ E1].
  clear E. rename E1 into E. symmetry in E.
  apply split_first_occurrence in E as [[-> E]|(y & _ & E)]; [|
    |exact Hc].
  - change (js "span>") with [115; 112; 97; 110; 62]%N in E.
    inversion E; subst. reflexivity.
  - exfalso.
    assert (H : In LT (SLASH :: js "span>")).
    { rewrite E. apply in_or_app. right. left. reflexivity. }
    cbn in H. unfold LT, SLASH in H. intuition discriminate.
Qed.

(** *** The table-cell pattern *)

Lemma tableCell_matches_shape (caps : captures) (w : jsstring)
    (caps1 : captures) :
  matches true (source tableCellPattern) caps w caps1 ->
  exists t1 d1 before p1 content p2 after t2 d2,
    w = LT :: t1 :: d1 :: GT :: before ++ LT :: p1 :: GT :: content ++
        LT :: SLASH :: p2 :: GT :: after ++ LT :: SLASH :: t2 :: d2 :: [GT] /\
    to_upper p2 = 80%N /\
    Forall (fun c => is_space c = true) before /\
    Forall (fun c => is_space c = true) after /\
    caps1 = (1, content) :: caps.
Proof.
  intros M.
  cbv [tableCellPattern source seqs lit js map list_ascii_of_string star
       lazy_star] in M.
  inv_matches.
  repeat match goal with
  | H : atom_matches true (AChar ?x) ?c = true |- _ =>
      apply atom_char_exact in H; [subst c|reflexivity|reflexivity]
  end.
  match goal with
  | |- exists t1 d1 before p1 content p2 after t2 d2,
         ([_] ++ [?x1] ++ [?x2] ++ [_]) ++ ?b ++ ([_] ++ [?x3] ++ [_]) ++
         ?ct ++ ([_] ++ [_] ++ [?x4] ++ [_]) ++ ?a ++
         [_] ++ [_] ++ [?x5] ++ [?x6] ++ [_] = _ /\ _ =>
      exists x1, x2, b, x3, ct, x4, a, x5, x6
  end.
  split; [|split; [|split; [|split; [|reflexivity]]]].
  - cbn [app]. rewrite <- ?app_assoc. reflexivity.
  - match goal with
    | |- to_upper ?c = _ =>
        match goal with
        | H : atom_matches true (AChar 112%N) c = true |- _ =>
            apply N.eqb_eq in H; symmetry; exact H
        end
    end.
  - eapply Forall_impl; [|eassumption]. exact (atom_space_any true).
  - eapply Forall_impl; [|eassumption]. exact (atom_space_any true).
Qed.

(** The table-cell pattern at a cell whose paragraph holds no [<] and no
    line terminator: the match is the whole cell, the group is the content
    of the paragraph. *)
Lemma tableCell_exec_cell (before content after : jsstring) :
  Forall (fun c => is_space c = true) before ->
  Forall (fun c => is_space c = true) after ->
  ~ In LT content ->
  Forall (fun c => atom_matches true ADot c = true) content ->
  exec_at tableCellPattern (table_cell before content after) =
  Some ([], [(1, content)]).
Proof.
  intros Hb Ha Hc Hdot.
  assert (M0 : matches true (source tableCellPattern) []
                 (table_cell before content after) [(1, content)]).
  { cbv [tableCellPattern source seqs lit js map list_ascii_of_string star
         lazy_star].
    match goal with
    | |- matches _ ?r _ _ _ =>
        change (matches true r []
                  (([LT] ++ [116] ++ [100] ++ [GT])%N ++ before ++
                   ([LT] ++ [112] ++ [GT])%N ++ content ++
                   ([LT] ++ [SLASH] ++ [112] ++ [GT])%N ++ after ++
                   ([LT] ++ [SLASH] ++ [116] ++ [100] ++ [GT])%N)
                  [(1, content)])
    end.
    repeat (econstructor; try eassumption); try reflexivity;
      try (cbn; lia);
      (eapply Forall_impl; [|eassumption]); exact (space_atom true). }
  pose proof (@exec_at_complete tableCellPattern _ [] _ M0) as Hex.
  rewrite app_nil_r in Hex.
  destruct (exec_at tableCellPattern (table_cell before content after))
    as [[rest caps]|] eqn:E; [|contradiction].
  apply exec_at_sound in E as (w & E & M).
  apply tableCell_matches_shape in M
    as (t1 & d1 & b & p1 & ct & p2 & a & t2 & d2 & -> & Hp & Hb1 & Ha1 & ->).
  assert (NL : forall ws, Forall (fun c => is_space c = true) ws ->
                          ~ In LT ws).
  { intros ws H. apply Forall_not_in. eapply Forall_impl; [|exact H].
    exact space_not_lt. }
  change (table_cell before content after)
    with (LT :: 116 :: 100 :: GT :: before ++ LT :: 112 :: GT :: content ++
          LT :: SLASH :: 112 :: GT :: after ++
          LT :: SLASH :: 116 :: 100 :: [GT])%N in E.
  cbn [app] in E. repeat (rewrite <- app_assoc in E; cbn [app] in E).
  injection E as _ _ E.
  apply split_at_first in E as [_ E]; [|apply NL; assumption..].
  injection E as _ E. symmetry in E.
  apply split_first_occurrence in E as [[-> E]|(y & _ & E)]; [| |exact Hc].
  - injection E as _ E.
    apply split_at_first in E as [_ E]; [|apply NL; assumption..].
    inversion E; subst. reflexivity.
  - exfalso.
    change (SLASH :: 112%N :: GT :: after ++ LT :: SLASH :: 116%N :: 100%N :: [GT])
      with ((SLASH :: 112%N :: GT :: after) ++
            LT :: SLASH :: 116%N :: 100%N :: [GT]) in E.
    symmetry in E.
    apply split_first_occurrence in E as [[_ E]|(y1 & _ & E)].
    + injection E as E _. subst p2. discriminate Hp.
    + assert (H : In LT [SLASH; 116; 100; GT]%N).
      { rewrite E. apply in_or_app. right. left. reflexivity. }
      cbn in H. unfold LT, SLASH, GT in H. intuition discriminate.
    + intros [H|[H|[H|H]]]; try discriminate H.
      exact (NL _ Ha H).
Qed.

(** *** A table cell with one plain paragraph *)

Lemma space_no (c : code_unit) (ws : jsstring) :
  is_space c = false -> Forall (fun d => is_space d = true) ws -> ~ In c ws.
Proof.
  intros Hc Hws Hin. rewrite Forall_forall in Hws.
  rewrite (Hws _ Hin) in Hc. discriminate Hc.
Qed.

Ltac literals :=
  repeat match goal with
  | |- context [js ?s] =>
      let v := eval vm_compute in (js s) in change (js s) with v
  end.

Ltac not_in :=
  literals; repeat first [rewrite in_app_iff | progress cbn [In]];
  unfold LT, GT, SLASH, EQUALS, LF in *;
  intuition (try discriminate; eauto).

Lemma table_cell_segments (before content after : jsstring) :
  table_cell before content after =
  LT :: (js "td>" ++ before) ++ LT :: (js "p>" ++ content) ++
  LT :: (js "/p>" ++ after) ++ LT :: js "/td>" ++ [].
Proof.
  unfold table_cell. cbn [app]. rewrite <- ?app_assoc. reflexivity.
Qed.

Section Cell.

Variables before content after : jsstring.
Hypothesis Hbefore : padding before = true.
Hypothesis Hafter : padding after = true.
Hypothesis Hcontent : plain content = true.

Lemma cell_no_empty_tag : test emptyTagPattern (table_cell before content after) = false.
Proof.
  destruct (plain_inv _ Hcontent) as (Hlt & _ & _ & _ & Hsp).
  pose proof (padding_space _ Hbefore) as Hb.
  pose proof (padding_space _ Hafter) as Ha.
  pose proof (space_no LT eq_refl Hb) as Hb1.
  pose proof (space_no LT eq_refl Ha) as Ha1.
  rewrite table_cell_segments.
  rewrite test_segment; [|reflexivity|not_in|].
  rewrite test_segment; [|reflexivity|not_in|].
  rewrite test_segment; [|reflexivity|not_in|].
  rewrite test_segment; [|reflexivity|not_in|].
  - reflexivity.
  - apply emptyTag_exec_close.
  - apply emptyTag_exec_close.
  - match goal with |- ?e = None => destruct e as [[rest caps]|] eqn:E end;
      [|reflexivity].
    exfalso.
    change (LT :: (js "p>" ++ content) ++ ?r)
      with (LT :: js "p" ++ GT :: content ++ r) in E.
    apply emptyTag_exec_open in E as [E _]; [auto|not_in|exact Hlt].
  - match goal with |- ?e = None => destruct e as [[rest caps]|] eqn:E end;
      [|reflexivity].
    exfalso.
    change (LT :: (js "td>" ++ before) ++ LT :: (js "p>" ++ content) ++ ?r)
      with (LT :: js "td" ++ GT :: before ++
            LT :: 112%N :: GT :: content ++ r) in E.
    apply emptyTag_exec_open in E as [_ (post1 & E)];
      [discriminate E|not_in|exact Hb1].
Qed.

Lemma cell_no_wrapper :
  test spanTagPattern (table_cell before content after) = false /\ test fontTagPattern (table_cell before content after) = false.
Proof.
  destruct (plain_inv _ Hcontent) as (Hlt & _).
  pose proof (space_no LT eq_refl (padding_space _ Hbefore)) as Hb1.
  pose proof (space_no LT eq_refl (padding_space _ Hafter)) as Ha1.
  rewrite table_cell_segments.
  split.
  - repeat (rewrite test_segment; [|reflexivity|not_in|]);
      [reflexivity|..];
      match goal with |- ?e = None => destruct e as [[rest caps]|] eqn:E end;
      try reflexivity;
      apply span_exec_second in E; discriminate E.
  - repeat (rewrite test_segment; [|reflexivity|not_in|]);
      [reflexivity|..];
      match goal with |- ?e = None => destruct e as [[rest caps]|] eqn:E end;
      try reflexivity;
      apply font_exec_second in E; discriminate E.
Qed.

Lemma cell_no_equals : ~ In EQUALS (table_cell before content after).
Proof.
  destruct (plain_inv _ Hcontent) as (_ & Heq & _).
  pose proof (space_no EQUALS eq_refl (padding_space _ Hbefore)) as Hb1.
  pose proof (space_no EQUALS eq_refl (padding_space _ Hafter)) as Ha1.
  unfold table_cell. not_in.
Qed.

Lemma cell_no_blank_line : test multipleLineBreaksPattern (table_cell before content after) = false.
Proof.
  destruct (plain_inv _ Hcontent) as (_ & _ & _ & Hlf & _).
  assert (E : (table_cell before content after) =
              js "<td>" ++ before ++
              LT :: (js "p>" ++ content ++ js "</p>") ++ after ++
              LT :: js "/td>").
  { unfold table_cell. rewrite <- ?app_assoc. reflexivity. }
  rewrite E.
  rewrite test_blank_skip by not_in.
  rewrite test_blank_padding; [|exact Hbefore|reflexivity].
  change (LT :: ?a ++ ?r) with ((LT :: a) ++ r).
  rewrite test_blank_skip by not_in.
  rewrite test_blank_padding; [|exact Hafter|reflexivity].
  reflexivity.
Qed.

Lemma cell_unwrapped :
  replace tableCellPattern [TText (js "<td>"); TGroup 1; TText (js "</td>")]
    (table_cell before content after) =
  js "<td>" ++ content ++ js "</td>".
Proof.
  destruct (plain_inv _ Hcontent) as (Hlt & _ & Hdot & _).
  pose proof (@tableCell_exec_cell before content after
                (padding_space _ Hbefore) (padding_space _ Hafter) Hlt Hdot)
    as E.
  rewrite <- (app_nil_r (table_cell before content after)) in E |- *.
  rewrite (@replace_match tableCellPattern _ (table_cell before content after) [] [(1, content)]);
    [| |exact E].
  - cbn [substitute flat_map capture Nat.eqb]. rewrite !app_nil_r.
    reflexivity.
  - discriminate.
Qed.

(** The paragraph that is the content of a table cell is unwrapped. *)
Lemma clean_table_cell :
  clean (table_cell before content after) = js "<td>" ++ content ++ js "</td>".
Proof.
  assert (Ha : forall re, In re attributePatterns -> test re (table_cell before content after) = false).
  { intros re Hre. apply test_without_equals; [exact Hre|].
    exact cell_no_equals. }
  unfold clean.
  rewrite (replace_no_match _ _ _ cell_no_empty_tag).
  rewrite (replace_no_match styleAttributePattern _ _ (Ha styleAttributePattern ltac:(cbn; auto 6))).
  rewrite (replace_no_match idAttributePattern _ _ (Ha idAttributePattern ltac:(cbn; auto 6))).
  rewrite (replace_no_match classAttributePattern _ _ (Ha classAttributePattern ltac:(cbn; auto 6))).
  rewrite (replace_no_match targetAttributePattern _ _ (Ha targetAttributePattern ltac:(cbn; auto 6))).
  rewrite (replace_no_match borderAttributePattern _ _ (Ha borderAttributePattern ltac:(cbn; auto 6))).
  rewrite (replace_no_match _ _ _ (proj1 cell_no_wrapper)).
  rewrite (replace_no_match _ _ _ (proj2 cell_no_wrapper)).
  rewrite (replace_no_match _ _ _ cell_no_blank_line).
  exact cell_unwrapped.
Qed.

End Cell.

(** *** The span of the example around plain content *)

Section Span.

Variable content : jsstring.
Hypothesis Hcontent : plain content = true.

Ltac skip_prefix :=
  repeat (rewrite replace_no_match_here by (vm_compute; reflexivity)).

Lemma span_no_empty_tag :
  test emptyTagPattern (span_wrapper content) = false.
Proof.
  destruct (plain_inv _ Hcontent) as (Hlt & _ & _ & _ & Hsp).
  assert (E : span_wrapper content =
              LT :: (js "span class=" ++ dq ++ js "x" ++ dq ++ js " style=" ++
                     dq ++ js "color:red" ++ dq) ++ GT :: content ++
              LT :: js "/span>" ++ []).
  { unfold span_wrapper. cbn [app]. rewrite <- ?app_assoc. reflexivity. }
  rewrite E.
  match goal with
  | |- test _ (LT :: ?t ++ GT :: content ++ ?r) = _ =>
      change (LT :: t ++ GT :: content ++ r)
        with (LT :: (t ++ GT :: content) ++ r)
  end.
  rewrite test_segment; [|reflexivity|unfold dq, DQUOTE; not_in|].
  rewrite test_segment; [|reflexivity|not_in|].
  - reflexivity.
  - apply emptyTag_exec_close.
  - match goal with |- ?e = None => destruct e as [[rest caps]|] eqn:E1 end;
      [|reflexivity].
    exfalso. rewrite <- app_assoc in E1. cbn [app] in E1.
    apply emptyTag_exec_open in E1 as [E1 _];
      [auto|unfold dq, DQUOTE; not_in|exact Hlt].
Qed.

Lemma plain_tail_no_equals (tail : jsstring) :
  ~ In EQUALS tail -> ~ In EQUALS (GT :: content ++ tail).
Proof.
  destruct (plain_inv _ Hcontent) as (_ & Heq & _). intros Ht. not_in.
Qed.

Lemma span_style_stripped :
  replace styleAttributePattern [] (span_wrapper content) =
  js "<span class=" ++ dq ++ js "x" ++ dq ++ js ">" ++ content ++ js "</span>".
Proof.
  unfold span_wrapper, dq, DQUOTE. literals. cbn [app].
  skip_prefix.
  match goal with
  | |- context [replace ?re ?tpl ?s] =>
      change (replace re tpl s)
        with (replace re tpl
                ((js " style=" ++ dq ++ js "color:red" ++ dq) ++
                 GT :: content ++ js "</span>"))
  end.
  assert (E : exists caps,
             exec_at styleAttributePattern
               ((js " style=" ++ dq ++ js "color:red" ++ dq) ++
                GT :: content ++ js "</span>") =
             Some (GT :: content ++ js "</span>", caps))
    by (eexists; vm_compute; reflexivity).
  destruct E as (caps & E).
  rewrite (@replace_match styleAttributePattern []
             (js " style=" ++ dq ++ js "color:red" ++ dq)
             (GT :: content ++ js "</span>") caps);
    [|discriminate|exact E].
  cbn [substitute flat_map app].
  rewrite replace_no_match.
  - reflexivity.
  - apply test_without_equals; [cbn; auto|].
    apply plain_tail_no_equals. not_in.
Qed.

Lemma span_id_kept :
  replace idAttributePattern []
    (js "<span class=" ++ dq ++ js "x" ++ dq ++ js ">" ++ content ++
     js "</span>") =
  js "<span class=" ++ dq ++ js "x" ++ dq ++ js ">" ++ content ++ js "</span>".
Proof.
  destruct (plain_inv _ Hcontent) as (_ & Heq & _).
  unfold dq, DQUOTE. literals. cbn [app].
  skip_prefix.
  rewrite replace_no_match; [reflexivity|].
  apply test_without_equals; [cbn; auto|not_in].
Qed.

Lemma span_class_stripped :
  replace classAttributePattern []
    (js "<span class=" ++ dq ++ js "x" ++ dq ++ js ">" ++ content ++
     js "</span>") =
  js "<span>" ++ content ++ js "</span>".
Proof.
  unfold dq, DQUOTE. literals. cbn [app].
  skip_prefix.
  match goal with
  | |- context [replace ?re ?tpl ?s] =>
      change (replace re tpl s)
        with (replace re tpl
                ((js " class=" ++ dq ++ js "x" ++ dq) ++
                 GT :: content ++ js "</span>"))
  end.
  assert (E : exists caps,
             exec_at classAttributePattern
               ((js " class=" ++ dq ++ js "x" ++ dq) ++
                GT :: content ++ js "</span>") =
             Some (GT :: content ++ js "</span>", caps))
    by (eexists; vm_compute; reflexivity).
  destruct E as (caps & E).
  rewrite (@replace_match classAttributePattern []
             (js " class=" ++ dq ++ js "x" ++ dq)
             (GT :: content ++ js "</span>") caps);
    [|discriminate|exact E].
  cbn [substitute flat_map app].
  rewrite replace_no_match.
  - reflexivity.
  - apply test_without_equals; [cbn; auto|].
    apply plain_tail_no_equals. not_in.
Qed.

Lemma span_unwrapped :
  replace spanTagPattern [TGroup 1] (js "<span>" ++ content ++ js "</span>") =
  content.
Proof.
  destruct (plain_inv _ Hcontent) as (Hlt & _).
  pose proof (@span_exec_plain content Hlt) as E.
  rewrite <- (app_nil_r (js "<span>" ++ content ++ js "</span>")) in E |- *.
  rewrite (@replace_match spanTagPattern _ _ [] [(1, content)]);
    [| |exact E].
  - cbn [substitute flat_map capture Nat.eqb]. rewrite !app_nil_r.
    reflexivity.
  - discriminate.
Qed.

(** The attributes of the span are stripped, then the wrapper is deleted
    and its content kept. *)
Lemma clean_span_wrapper : clean (span_wrapper content) = content.
Proof.
  destruct (plain_inv _ Hcontent) as (Hlt & Heq & _ & Hlf & _).
  assert (Ha : forall re, In re attributePatterns ->
                 test re (js "<span>" ++ content ++ js "</span>") = false).
  { intros re Hre. apply test_without_equals; [exact Hre|]. not_in. }
  unfold clean.
  rewrite (replace_no_match _ _ _ span_no_empty_tag).
  rewrite span_style_stripped, span_id_kept, span_class_stripped.
  rewrite (replace_no_match targetAttributePattern _ _
             (Ha targetAttributePattern ltac:(cbn; auto 6))).
  rewrite (replace_no_match borderAttributePattern _ _
             (Ha borderAttributePattern ltac:(cbn; auto 6))).
  rewrite span_unwrapped.
  rewrite (replace_no_match fontTagPattern _ content)
    by (apply test_without_lt; [reflexivity|exact Hlt]).
  rewrite (replace_no_match multipleLineBreaksPattern _ content).
  - apply replace_no_match, test_without_lt; [reflexivity|exact Hlt].
  - rewrite <- (app_nil_r content), test_blank_skip by exact Hlf.
    reflexivity.
Qed.

End Span.

End Content.

(** C8: the class and style attributes are stripped and the span wrapper is
    then deleted, its content kept as it is.  This holds for the text of
    the example and for every plain content in its place; the text after
    the attribute rules is the span without attributes, which the wrapper
    rule then unwraps.  The attributes are stripped before the wrappers are
    deleted: an attribute value that holds [>] is gone before the wrapper
    rule looks for the end of the opening tag, and an attribute that
    appears only once a wrapper is gone stays. *)
Theorem span_wrapper_unwrapped :
  cleanHtmlContent
    (VString (js "<span class=" ++ dq ++ js "x" ++ dq ++ js " style=" ++ dq ++
              js "color:red" ++ dq ++ js ">Bold</span>")) =
  inl (VString (js "Bold"))
  /\
  (forall content,
     plain content = true ->
     cleanHtmlContent (VString (span_wrapper content)) =
     inl (VString content))
  /\
  (forall html,
     clean html = run (skipn 6 cleanSteps) (run (firstn 6 cleanSteps) html))
  /\
  (forall content,
     plain content = true ->
     run (firstn 6 cleanSteps) (span_wrapper content) =
       js "<span>" ++ content ++ js "</span>" /\
     run (firstn 1 (skipn 6 cleanSteps))
       (js "<span>" ++ content ++ js "</span>") = content)
  /\
  cleanHtmlContent
    (VString (js "<span class=" ++ dq ++ js ">" ++ dq ++ js " style=" ++ dq ++
              js ">" ++ dq ++ js ">Bold</span>")) =
  inl (VString (js "Bold"))
  /\
  cleanHtmlContent (VString (js " sty<span>le</span>='a'")) =
  inl (VString (js " style='a'")).
Proof.
  split; [vm_compute; reflexivity|].
  split; [|split; [reflexivity|split; [|split; vm_compute; reflexivity]]].
  - intros content H. rewrite cleanHtmlContent_string.
    rewrite (@clean_span_wrapper content H).
    destruct content as [|c t]; [discriminate H|reflexivity].
  - intros content H.
    assert (Ha : forall re, In re attributePatterns ->
                   test re (js "<span>" ++ content ++ js "</span>") = false).
    { intros re Hre. apply test_without_equals; [exact Hre|].
      destruct (plain_inv _ H) as (_ & Heq & _).
      rewrite !in_app_iff. intros [E|[E|E]]; [|auto|];
        vm_compute in E; intuition discriminate. }
    unfold run, cleanSteps. cbn [firstn skipn fold_left fst snd].
    rewrite (replace_no_match _ _ _ (@span_no_empty_tag content H)).
    rewrite (@span_style_stripped content H), (@span_id_kept content H),
      (@span_class_stripped content H).
    rewrite (replace_no_match targetAttributePattern _ _
               (Ha targetAttributePattern ltac:(cbn; auto 6))).
    rewrite (replace_no_match borderAttributePattern _ _
               (Ha borderAttributePattern ltac:(cbn; auto 6))).
    split; [reflexivity|apply (@span_unwrapped content H)].
Qed.

Lemma span_wrapper_unwrapped_witness :
  plain (js "Bold text") = true /\
  cleanHtmlContent (VString (span_wrapper (js "Bold text"))) =
  inl (VString (js "Bold text")).
Proof.
  split; [reflexivity|].
  apply (proj1 (proj2 span_wrapper_unwrapped) (js "Bold text")).
  reflexivity.
Defined.




(** * Further properties *)

(** ** Objects *)

Section Objects.

Local Open Scope string_scope.
Local Open Scope list_scope.

Lemma lookup_assign_same (name : string) (v : value) (o : object) :
  lookup name (assign name v o) = v.
Proof.
  induction o as [|[k w] o IH]; cbn.
  - rewrite String.eqb_refl. reflexivity.
  - destruct (String.eqb k name) eqn:E; cbn; rewrite E; auto.
Qed.

Lemma lookup_assign_other (name other : string) (v : value) (o : object) :
  other <> name -> lookup other (assign name v o) = lookup other o.
Proof.
  intros Hne. induction o as [|[k w] o IH]; cbn.
  - destruct (String.eqb_spec name other); [congruence|reflexivity].
  - destruct (String.eqb_spec k name) as [->|Hk]; cbn.
    + destruct (String.eqb_spec name other); [congruence|reflexivity].
    + destruct (String.eqb k other); auto.
Qed.

Lemma keys_assign_present (name : string) (v : value) (o : object) :
  In name (keys o) -> keys (assign name v o) = keys o.
Proof.
  induction o as [|[k w] o IH]; cbn; [tauto|].
  intros [->|Hin].
  - rewrite String.eqb_refl. reflexivity.
  - destruct (String.eqb k name); cbn; [reflexivity|]. f_equal. apply IH, Hin.
Qed.

End Objects.

(** ** What the operations do with the world *)

Section Operations.

Local Open Scope string_scope.
Local Open Scope list_scope.

Variable this : ZendeskClient.t.

Lemma extends_refl (w : world) : extends w w [] [].
Proof. unfold extends. rewrite !app_nil_r. auto. Qed.

Lemma extends_trans (w w1 w2 : world) (m1 m2 : list request)
    (o1 o2 : list console_entry) :
  extends w w1 m1 o1 -> extends w1 w2 m2 o2 ->
  extends w w2 (m1 ++ m2) (o1 ++ o2).
Proof.
  intros (T1 & C1 & O1) (T2 & C2 & O2). unfold extends.
  rewrite T2, T1, C2, C1, O2, O1, !app_assoc. auto.
Qed.

Lemma console_write_extends (e : console_entry) (w : world) :
  console_write e w = (inl tt, snd (console_write e w)) /\
  extends w (snd (console_write e w)) [] [e].
Proof. unfold console_write, extends. cbn. rewrite app_nil_r. auto. Qed.

(** [makeRequest] issues one call; it returns the data of the response, or
    writes the error to the console and throws it. *)
Lemma makeRequest_run (url : jsstring) (params : object) (w : world) :
  let req := request_of this url params in
  exists w1,
    match transport w (length (calls w)) req with
    | inl data =>
        makeRequest this url params w = (inl data, w1) /\
        extends w w1 [req] []
    | inr error =>
        makeRequest this url params w = (inr error, w1) /\
        extends w w1 [req]
          [ConsoleError [PText (js "Request error:"); PValue error]]
    end.
Proof.
  intros req. unfold makeRequest, try_catch, bind, axios_get, console_write,
    throw, ret. cbn. fold req.
  destruct (transport w (length (calls w)) req) as [data|error];
    eexists; (split; [reflexivity|]); unfold extends; cbn;
    rewrite ?app_nil_r; auto.
Qed.

Lemma search_request_parts (p : search_params) :
  request_of this (url (search_request this p))
    (params (search_request this p)) = search_request this p.
Proof. reflexivity. Qed.

Lemma article_request_parts (p : article_params) :
  request_of this (url (article_request this p))
    (params (article_request this p)) = article_request this p.
Proof. reflexivity. Qed.

(** Whatever the transport answers, [searchArticles] issues exactly one
    call, the search request, and writes to the console only the error of a
    failed call. *)
Lemma searchArticles_world (p : search_params) (w : world) :
  exists out,
    extends w (snd (searchArticles this p w)) [search_request this p] out.
Proof.
  unfold searchArticles, bind.
  destruct (makeRequest_run (url (search_request this p))
              (params (search_request this p)) w) as (w1 & H).
  rewrite search_request_parts in H.
  destruct (transport w (length (calls w)) (search_request this p))
    as [data|error]; destruct H as [-> Hext].
  - exists []. unfold lift.
    destruct (get_property data "results") as [results|e]; cbn;
      [|exact Hext].
    destruct results; try exact Hext.
    destruct data; try exact Hext.
    destruct (map_throwing filterSearchResult elements); exact Hext.
  - eexists. exact Hext.
Qed.

Lemma getArticle_world (p : article_params) (w : world) :
  exists out,
    extends w (snd (getArticle this p w)) [article_request this p] out.
Proof.
  unfold getArticle, bind.
  destruct (makeRequest_run (url (article_request this p))
              (params (article_request this p)) w) as (w1 & H).
  rewrite article_request_parts in H.
  destruct (transport w (length (calls w)) (article_request this p))
    as [data|error]; destruct H as [-> Hext].
  - exists []. unfold lift.
    destruct (get_property data "article") as [article|e]; cbn;
      [|exact Hext].
    destruct (truthy article); try exact Hext.
    destruct data; try exact Hext.
    destruct (filterArticle article); exact Hext.
  - eexists. exact Hext.
Qed.

End Operations.

(** ** The results of [searchArticles] and [getArticle] *)

Section Results.

Local Open Scope string_scope.
Local Open Scope list_scope.

Variable this : ZendeskClient.t.

Lemma lookup_defined (name : string) (o : object) :
  lookup name o <> VUndefined -> In name (keys o).
Proof.
  induction o as [|[k v] o IH]; cbn; [congruence|].
  destruct (String.eqb_spec k name); auto.
Qed.

Lemma map_throwing_objects (Rs : list object) :
  map_throwing filterSearchResult (map VObject Rs) =
  inl (map (fun R => VObject (map (fun name => (name, lookup name R)) allowList))
         Rs).
Proof.
  induction Rs as [|R Rs IH]; [reflexivity|].
  cbn [map map_throwing]. rewrite IH. reflexivity.
Qed.

Lemma filteredFields_throws (article : value) (e : value) :
  filteredFields article = inr e ->
  e = TypeError /\ (article = VUndefined \/ article = VNull).
Proof.
  destruct article; cbn; intros H; try discriminate H;
    injection H as <-; auto.
Qed.

Lemma map_throwing_throws (articles : list value) :
  (exists a, In a articles /\ (a = VUndefined \/ a = VNull)) ->
  map_throwing filterSearchResult articles = inr TypeError.
Proof.
  induction articles as [|a l IH]; intros (b & Hin & Hb); [destruct Hin|].
  cbn [map_throwing]. unfold filterSearchResult at 1.
  destruct (filteredFields a) as [o|e] eqn:E.
  - rewrite IH; [reflexivity|]. exists b. split; [|exact Hb].
    destruct Hin as [->|Hin]; [|exact Hin].
    destruct Hb as [->| ->]; discriminate E.
  - apply filteredFields_throws in E as [-> _]. reflexivity.
Qed.

(** X1: A successful search returns the payload with every member of [results]
    replaced by its projection, in the same order; the other properties of
    the payload (count, next_page, previous_page, ...) and the order of its
    properties are untouched; one call has been issued and nothing written
    to the console. *)
Theorem search_passes_payload_through (p : search_params) (w : world)
    (o : object) (Rs : list object) :
  transport w (length (calls w)) (search_request this p) = inl (VObject o) ->
  lookup "results" o = VArray (map VObject Rs) ->
  exists o1 w1,
    searchArticles this p w = (inl (VObject o1), w1) /\
    lookup "results" o1 =
      VArray (map (fun R =>
                     VObject (map (fun name => (name, lookup name R)) allowList))
                Rs) /\
    (forall name, name <> "results" -> lookup name o1 = lookup name o) /\
    keys o1 = keys o /\
    extends w w1 [search_request this p] [].
Proof.
  intros Ht Hr. unfold searchArticles, bind.
  destruct (makeRequest_run this (url (search_request this p))
              (params (search_request this p)) w) as (w1 & H).
  rewrite search_request_parts, Ht in H. destruct H as [-> Hext].
  cbn [lift get_property ret]. rewrite Hr, map_throwing_objects.
  cbn [lift ret]. eexists. exists w1. split; [reflexivity|].
  split; [apply lookup_assign_same|]. split; [|split; [|exact Hext]].
  - intros name Hne. apply lookup_assign_other, Hne.
  - apply keys_assign_present, lookup_defined. rewrite Hr. discriminate.
Qed.

(** X2: A payload whose [results] is not an array (or is missing) is returned
    as it is. *)
Theorem search_without_results (p : search_params) (w : world)
    (data results : value) :
  transport w (length (calls w)) (search_request this p) = inl data ->
  get_property data "results" = inl results ->
  (forall articles, results <> VArray articles) ->
  fst (searchArticles this p w) = inl data.
Proof.
  intros Ht Hr Hn. unfold searchArticles, bind.
  destruct (makeRequest_run this (url (search_request this p))
              (params (search_request this p)) w) as (w1 & H).
  rewrite search_request_parts, Ht in H. destruct H as [-> _].
  rewrite Hr. cbn [lift ret].
  destruct results; try reflexivity. exfalso. exact (Hn _ eq_refl).
Qed.

(** X3: The payload [null], or a member of [results] that is [null], makes the
    search throw a TypeError: nothing is returned. *)
Theorem search_null_throws (p : search_params) (w : world) (data : value) :
  transport w (length (calls w)) (search_request this p) = inl data ->
  (data = VNull \/
   exists o articles,
     data = VObject o /\ lookup "results" o = VArray articles /\
     In VNull articles) ->
  fst (searchArticles this p w) = inr TypeError.
Proof.
  intros Ht Hd. unfold searchArticles, bind.
  destruct (makeRequest_run this (url (search_request this p))
              (params (search_request this p)) w) as (w1 & H).
  rewrite search_request_parts, Ht in H. destruct H as [-> _].
  destruct Hd as [->|(o & articles & -> & Hr & Hin)]; [reflexivity|].
  cbn [lift get_property ret]. rewrite Hr.
  rewrite map_throwing_throws; [reflexivity|].
  exists VNull. auto.
Qed.

(** X4: [getArticle] replaces [article] by its projection with the cleaned body
    and leaves the rest of the payload untouched; one call has been issued
    and nothing written to the console. *)
Theorem article_passes_payload_through (p : article_params) (w : world)
    (o R : object) (body : jsstring) :
  transport w (length (calls w)) (article_request this p) = inl (VObject o) ->
  lookup "article" o = VObject R ->
  lookup "body" R = VString body ->
  exists o1 w1,
    getArticle this p w = (inl (VObject o1), w1) /\
    lookup "article" o1 =
      VObject (map (fun name => (name, lookup name R)) allowList ++
               [("body",
                 VString (match body with [] => [] | _ => Html.clean body end))])
    /\
    (forall name, name <> "article" -> lookup name o1 = lookup name o) /\
    extends w w1 [article_request this p] [].
Proof.
  intros Ht Ha Hb. unfold getArticle, bind.
  destruct (makeRequest_run this (url (article_request this p))
              (params (article_request this p)) w) as (w1 & H).
  rewrite article_request_parts, Ht in H. destruct H as [-> Hext].
  cbn [lift get_property ret]. rewrite Ha. cbn [truthy].
  unfold filterArticle. rewrite filteredFields_object.
  cbn [get_property]. rewrite Hb, cleanHtmlContent_string.
  cbn [lift ret]. eexists. exists w1. split; [reflexivity|].
  split; [apply lookup_assign_same|]. split; [|exact Hext].
  intros name Hne. apply lookup_assign_other, Hne.
Qed.

(** X5: A payload whose [article] is missing, [null] or otherwise falsy is
    returned as it is: nothing is projected and nothing cleaned. *)
Theorem article_missing (p : article_params) (w : world)
    (data article : value) :
  transport w (length (calls w)) (article_request this p) = inl data ->
  get_property data "article" = inl article ->
  truthy article = false ->
  fst (getArticle this p w) = inl data.
Proof.
  intros Ht Ha Hf. unfold getArticle, bind.
  destruct (makeRequest_run this (url (article_request this p))
              (params (article_request this p)) w) as (w1 & H).
  rewrite article_request_parts, Ht in H. destruct H as [-> _].
  rewrite Ha. cbn [lift ret]. rewrite Hf. reflexivity.
Qed.

End Results.

Lemma search_passes_payload_through_witness :
  exists o1,
    fst (searchArticles (constructor example_config)
           (omitted (VString (js "billing")))
           (answering_world (VObject example_page))) = inl (VObject o1) /\
    keys o1 = keys example_page.
Proof.
  destruct (@search_passes_payload_through (constructor example_config)
              (omitted (VString (js "billing")))
              (answering_world (VObject example_page))
              example_page [example_hit] eq_refl eq_refl)
    as (o1 & w1 & H & _ & _ & Hk & _).
  exists o1. rewrite H. split; [reflexivity|exact Hk].
Defined.

Lemma search_without_results_witness :
  fst (searchArticles (constructor example_config)
         (omitted (VString (js "billing")))
         (answering_world (VObject example_reply))) =
  inl (VObject example_reply).
Proof.
  apply (@search_without_results (constructor example_config)
           (omitted (VString (js "billing")))
           (answering_world (VObject example_reply))
           (VObject example_reply) VUndefined eq_refl eq_refl).
  intros articles H. discriminate H.
Defined.

Lemma search_null_throws_witness :
  fst (searchArticles (constructor example_config)
         (omitted (VString (js "billing")))
         (answering_world VNull)) = inr TypeError.
Proof.
  apply (@search_null_throws (constructor example_config)
           (omitted (VString (js "billing")))
           (answering_world VNull) VNull eq_refl).
  left. reflexivity.
Defined.

Lemma article_passes_payload_through_witness :
  exists o1,
    fst (getArticle (constructor example_config) example_id
           (answering_world (VObject example_reply))) = inl (VObject o1) /\
    lookup "body"
      match lookup "article" o1 with VObject R => R | _ => [] end =
    VString (js "Hello").
Proof.
  destruct (@article_passes_payload_through (constructor example_config)
              example_id (answering_world (VObject example_reply))
              example_reply example_article (js "<p></p>Hello")
              eq_refl eq_refl eq_refl)
    as (o1 & w1 & H & Ha & _).
  exists o1. rewrite H, Ha. split; reflexivity.
Defined.

Lemma article_missing_witness :
  fst (getArticle (constructor example_config) example_id
         (answering_world (VObject example_page))) =
  inl (VObject example_page).
Proof.
  exact (@article_missing (constructor example_config) example_id
           (answering_world (VObject example_page))
           (VObject example_page) VUndefined eq_refl eq_refl eq_refl).
Defined.

(** ** One command of the console *)

Section Console.

Local Open Scope string_scope.
Local Open Scope list_scope.

Variable this : ZendeskClient.t.

Lemma search_request_auth (p : search_params) :
  req_auth (search_request this p) = credentials this /\
  url (search_request this p) = baseUrl this ++ js "/articles/search.json".
Proof. split; reflexivity. Qed.

Lemma article_request_auth (p : article_params) :
  req_auth (article_request this p) = credentials this /\
  url (article_request this p) =
    baseUrl this ++ js "/articles/" ++ to_string (id p) ++ js ".json".
Proof. split; reflexivity. Qed.

Ltac after_write :=
  unfold console_write, ret; cbn [fst snd].

(** X6: A command never throws: an error of the operation is caught, written to
    the console, and the loop asks again.  The command issues at most one
    request; the request goes to an address under the base URL with the
    credentials of the client.  Only quit (in any case) closes the loop, and
    it changes nothing. *)
Theorem console_command_is_safe (input : jsstring) (w : world) :
  exists w1 more out,
    handle_input this input w =
      (inl (if jseqb (toLowerCase input) (js "quit") then Close
            else AskQuestion), w1) /\
    extends w w1 more out /\
    length more <= 1 /\
    Forall (fun r => req_auth r = credentials this /\
                     exists path, url r = baseUrl this ++ path) more /\
    (jseqb (toLowerCase input) (js "quit") = true -> w1 = w).
Proof.
  unfold handle_input, try_catch, bind.
  destruct (jseqb (toLowerCase input) (js "quit")).
  { exists w, [], []. split; [reflexivity|]. split; [apply extends_refl|].
    split; [cbn; lia|]. split; [constructor|auto]. }
  set (parts := split input).
  assert (Hlog : forall line,
    exists w1 more out,
      (let (r, w0) := console_write (ConsoleLog line) w in
       match r with
       | inl _ => ret AskQuestion w0
       | inr e => (inr e, w0)
       end) = (inl AskQuestion, w1) /\
      extends w w1 more out /\ length more <= 1 /\
      Forall (fun r => req_auth r = credentials this /\
                       exists path, url r = baseUrl this ++ path) more /\
      (false = true -> w1 = w)).
  { intros line. eexists. exists [], [ConsoleLog line].
    split; [reflexivity|]. split; [apply console_write_extends|].
    split; [cbn; lia|]. split; [constructor|discriminate]. }
  assert (Hop : forall (m : M value) (req : request),
    (exists out, extends w (snd (m w)) [req] out) ->
    req_auth req = credentials this ->
    (exists path, url req = baseUrl this ++ path) ->
    exists w1 more out,
      (let (r, w0) :=
         (let (r, w0) :=
            (let (r, w0) := m w in
             match r with
             | inl v => console_write (ConsoleLog [PJson v]) w0
             | inr e => (inr e, w0)
             end) in
          match r with
          | inl _ => ret AskQuestion w0
          | inr e => (inr e, w0)
          end) in
       match r with
       | inl a => (inl a, w0)
       | inr e =>
           (let (r0, w2) :=
              console_write
                (ConsoleError [PText (LF :: js "Error:"); PValue e]) w0 in
            match r0 with
            | inl _ => ret AskQuestion w2
            | inr e0 => (inr e0, w2)
            end)
       end) = (inl AskQuestion, w1) /\
      extends w w1 more out /\ length more <= 1 /\
      Forall (fun r => req_auth r = credentials this /\
                       exists path, url r = baseUrl this ++ path) more /\
      (false = true -> w1 = w)).
  { intros m req (out & Hext) Hauth Hurl.
    destruct (m w) as [[v|e] w0]; cbn [snd] in Hext.
    - eexists. exists [req], (out ++ [ConsoleLog [PJson v]]).
      split; [reflexivity|]. split.
      + rewrite <- (app_nil_r [req]).
        eapply extends_trans; [exact Hext|apply console_write_extends].
      + split; [cbn; lia|]. split; [|discriminate].
        constructor; [split; assumption|constructor].
    - eexists. exists [req],
        (out ++ [ConsoleError [PText (LF :: js "Error:"); PValue e]]).
      split; [reflexivity|]. split.
      + rewrite <- (app_nil_r [req]).
        eapply extends_trans; [exact Hext|apply console_write_extends].
      + split; [cbn; lia|]. split; [|discriminate].
        constructor; [split; assumption|constructor]. }
  destruct (jseqb (toLowerCase (hd [] parts)) (js "search")).
  - destruct (Nat.ltb (length parts) 2); [apply Hlog|].
    apply Hop with (req := search_request this (chat_search_params this parts)).
    + apply searchArticles_world.
    + reflexivity.
    + eexists. reflexivity.
  - destruct (jseqb (toLowerCase (hd [] parts)) (js "article")).
    + destruct (Nat.ltb (length parts) 2); [apply Hlog|].
      apply Hop with
        (req := article_request this (chat_article_params this parts)).
      * apply getArticle_world.
      * reflexivity.
      * eexists. reflexivity.
    + apply Hlog.
Qed.

Lemma split_app (a b : jsstring) :
  ~ In 32%N a -> split (a ++ 32%N :: b) = a :: split b.
Proof.
  induction a as [|c a IH]; intros Ha; cbn [app split].
  - reflexivity.
  - destruct (N.eqb_spec c 32) as [->|_].
    + exfalso. apply Ha. left. reflexivity.
    + rewrite IH; [reflexivity|]. intros Hin. apply Ha. right. exact Hin.
Qed.

Lemma split_one (a : jsstring) : ~ In 32%N a -> split a = [a].
Proof.
  intros Ha. apply split_no_space. intros c Hc ->. contradiction.
Qed.

Lemma lower_no_space (word target : jsstring) :
  toLowerCase word = target -> ~ In 32%N target -> ~ In 32%N word.
Proof.
  intros <- Ht Hin. apply Ht.
  apply (in_map RegExp.to_lower) in Hin. exact Hin.
Qed.

(** X7: [search <keyword>], the command word in any case, issues the request
    that [searchArticles({query: keyword})] builds: default locale, page 1,
    20 results per page. *)
Theorem console_search_keyword (command keyword : jsstring) (w : world) :
  toLowerCase command = js "search" ->
  ~ In 32%N keyword ->
  calls (snd (handle_input this (command ++ 32%N :: keyword) w)) =
  calls w ++ [search_request this (omitted (VString keyword))].
Proof.
  intros Hc Hk.
  assert (Hn : ~ In 32%N command).
  { apply (lower_no_space _ Hc). vm_compute. intros H.
    repeat (destruct H as [H|H]; [discriminate H|]). exact H. }
  assert (Hs : split (command ++ 32%N :: keyword) = [command; keyword]).
  { rewrite (split_app _ _ Hn), (split_one _ Hk). reflexivity. }
  rewrite console_search_request.
  - rewrite Hs. reflexivity.
  - rewrite Hs. cbn [hd]. rewrite Hc. reflexivity.
  - rewrite Hs. reflexivity.
Qed.

(** X8: A line that is not a search or article command with at least one
    argument issues no request; it writes at most one line. *)
Theorem console_without_request (input : jsstring) (w : world) :
  let parts := split input in
  let command := toLowerCase (hd [] parts) in
  negb (jseqb command (js "search") || jseqb command (js "article"))
  || Nat.ltb (length parts) 2 = true ->
  exists out,
    extends w (snd (handle_input this input w)) [] out /\ length out <= 1.
Proof.
  intros parts command H.
  unfold handle_input, try_catch, bind. fold parts. fold command.
  destruct (jseqb (toLowerCase input) (js "quit")).
  { exists []. split; [apply extends_refl|cbn; lia]. }
  assert (Hlog : forall line,
    exists out,
      extends w
        (snd (let (r, w0) :=
                (let (r, w0) := console_write (ConsoleLog line) w in
                 match r with
                 | inl _ => ret AskQuestion w0
                 | inr e => (inr e, w0)
                 end) in
              match r with
              | inl a => (inl a, w0)
              | inr e =>
                  (let (r0, w2) :=
                     console_write
                       (ConsoleError [PText (LF :: js "Error:"); PValue e])
                       w0 in
                   match r0 with
                   | inl _ => ret AskQuestion w2
                   | inr e0 => (inr e0, w2)
                   end)
              end)) [] out /\ length out <= 1).
  { intros line. exists [ConsoleLog line].
    split; [apply console_write_extends|cbn; lia]. }
  destruct (jseqb command (js "search")).
  - cbn [orb negb] in H. rewrite H. apply Hlog.
  - destruct (jseqb command (js "article")).
    + cbn [orb negb] in H. rewrite H. apply Hlog.
    + apply Hlog.
Qed.

End Console.

Lemma console_search_keyword_witness :
  toLowerCase (js "Search") = js "search" /\
  ~ In 32%N (js "billing") /\
  calls (snd (handle_input (constructor example_config) (js "Search" ++ 32%N :: js "billing")
                failing_world)) =
  calls failing_world ++
  [search_request (constructor example_config) (omitted (VString (js "billing")))].
Proof.
  assert (H1 : toLowerCase (js "Search") = js "search") by reflexivity.
  assert (H2 : ~ In 32%N (js "billing")).
  { vm_compute. intros H.
    repeat (destruct H as [H|H]; [discriminate H|]). exact H. }
  split; [exact H1|]. split; [exact H2|].
  exact (console_search_keyword (constructor example_config) (js "Search") (js "billing") failing_world
           H1 H2).
Defined.

Lemma console_without_request_witness :
  exists out,
    extends failing_world (snd (handle_input (constructor example_config) (js "help") failing_world))
      [] out /\ length out <= 1.
Proof.
  apply (console_without_request (constructor example_config) (js "help") failing_world). reflexivity.
Defined.


(** ** Splitting a line into words *)

Section Words.

(** X9: [input.split(" ").join(" ")] is [input]; no word holds a space, and
    there is one more word than there are spaces: two spaces in a row
    delimit an empty word. *)
Theorem split_join (input : jsstring) :
  join [32%N] (split input) = input /\
  Forall (fun word => ~ In 32%N word) (split input) /\
  length (split input) = S (count_occ N.eq_dec input 32%N).
Proof.
  induction input as [|c t (IH1 & IH2 & IH3)].
  - repeat split. constructor; [tauto|constructor].
  - cbn [split count_occ]. destruct (N.eqb_spec c 32) as [->|Hc].
    + destruct (N.eq_dec 32 32) as [_|Hn]; [|contradiction].
      split; [|split].
      * cbn [join]. destruct (split t) as [|p ps] eqn:E.
        -- cbn in IH3. discriminate IH3.
        -- cbn [app]. f_equal. exact IH1.
      * constructor; [tauto|exact IH2].
      * cbn. f_equal. exact IH3.
    + destruct (N.eq_dec c 32) as [E|_]; [contradiction|].
      destruct (split t) as [|p ps] eqn:E; [cbn in IH3; discriminate IH3|].
      split; [|split].
      * rewrite <- IH1. destruct ps; reflexivity.
      * inversion IH2; subst. constructor; [|assumption].
        intros [->|Hin]; [contradiction|]. contradiction.
      * exact IH3.
Qed.

End Words.

(** ** Numbers and their decimal text *)

Section ParseIntFacts.

Local Open Scope Z_scope.

Lemma digits_end (rest : jsstring) (a : Z) :
  ends_number rest -> ParseInt.digits 10 rest (Some a) = Some a.
Proof.
  destruct rest as [|c t]; [reflexivity|]. intros (H & _). cbn [ParseInt.digits].
  rewrite H. reflexivity.
Qed.

Lemma digits_acc (d : Decimal.uint) (rest : jsstring) (acc : positive) :
  ends_number rest ->
  ParseInt.digits 10 (js (NilEmpty.string_of_uint d) ++ rest) (Some (Z.pos acc))
  = Some (Z.pos (Pos.of_uint_acc d acc)).
Proof.
  intros Hr. revert acc.
  induction d as [|d IH|d IH|d IH|d IH|d IH|d IH|d IH|d IH|d IH|d IH];
    intros acc;
    [apply digits_end, Hr|..];
    cbn [NilEmpty.string_of_uint Pos.of_uint_acc];
    change (js (String ?c ?s)) with (N_of_ascii c :: js s);
    cbn [app ParseInt.digits];
    match goal with
    | |- context [ParseInt.digit 10 ?c] =>
        let v := eval vm_compute in (ParseInt.digit 10 c) in
        change (ParseInt.digit 10 c) with v
    end;
    cbv iota beta; rewrite <- IH; do 2 f_equal; lia.
Qed.

Ltac digit_step :=
  change (js (String ?c ?s)) with (N_of_ascii c :: js s);
  cbn [app ParseInt.digits];
  match goal with
  | |- context [ParseInt.digit 10 ?c] =>
      let v := eval vm_compute in (ParseInt.digit 10 c) in
      change (ParseInt.digit 10 c) with v
  end;
  cbv iota beta.

Lemma digits_zero (d : Decimal.uint) (rest : jsstring) :
  ends_number rest ->
  ParseInt.digits 10 (js (NilEmpty.string_of_uint d) ++ rest) (Some 0)
  = Some (Z.of_N (Pos.of_uint d)).
Proof.
  intros Hr.
  induction d as [|d IH|d IH|d IH|d IH|d IH|d IH|d IH|d IH|d IH|d IH];
    [apply digits_end, Hr|..];
    cbn [NilEmpty.string_of_uint Pos.of_uint]; digit_step;
    [exact IH|..]; apply (digits_acc d _ _ Hr).
Qed.

Lemma digits_none (d : Decimal.uint) (rest : jsstring) :
  d <> Decimal.Nil ->
  ends_number rest ->
  ParseInt.digits 10 (js (NilEmpty.string_of_uint d) ++ rest) None
  = Some (Z.of_N (Pos.of_uint d)).
Proof.
  intros Hd Hr. destruct d; [contradiction|..];
    cbn [NilEmpty.string_of_uint Pos.of_uint]; digit_step;
    [apply (digits_zero d _ Hr)|..]; apply (digits_acc d _ _ Hr).
Qed.

Lemma unsigned_prefix (d : Decimal.uint) (rest : jsstring) :
  d <> Decimal.Nil ->
  ends_number rest ->
  let s := js (NilEmpty.string_of_uint d) ++ rest in
  ParseInt.trim_start s = s /\
  ParseInt.strip_sign s = (1, s) /\
  ParseInt.strip_prefix s = (10, s).
Proof.
  intros Hd Hr. destruct d as [|d|d|d|d|d|d|d|d|d|d]; [contradiction|..];
    (destruct d; [destruct rest as [|c t];
                  [|destruct Hr as (_ & Hx & HX);
                    apply N.eqb_neq in Hx, HX]|..]);
    cbn [NilEmpty.string_of_uint];
    repeat change (js (String ?c ?s)) with (N_of_ascii c :: js s);
    try change (js EmptyString) with (@nil code_unit);
    cbn -[js]; rewrite ?Hx, ?HX; repeat split; reflexivity.
Qed.

Lemma parseInt_decimal (z : Z) (rest : jsstring) :
  ends_number rest ->
  ParseInt.parseInt (VString (to_string (VNumber (Int z)) ++ rest)) = Int z.
Proof.
  intros Hr. unfold ParseInt.parseInt. cbn [to_string number_to_string].
  destruct z as [|p|p]; cbn [Z.to_int NilZero.string_of_int].
  - change (js (NilZero.string_of_uint (Decimal.D0 Decimal.Nil)))
      with (js (NilEmpty.string_of_uint (Decimal.D0 Decimal.Nil))).
    unfold ParseInt.parse.
    destruct (@unsigned_prefix (Decimal.D0 Decimal.Nil) rest) as (-> & -> & ->);
      [discriminate|exact Hr|].
    rewrite digits_none; [reflexivity|discriminate|exact Hr].
  - pose proof (Unsigned.to_uint_nonnil p) as Hn.
    replace (NilZero.string_of_uint (Pos.to_uint p))
      with (NilEmpty.string_of_uint (Pos.to_uint p))
      by (destruct (Pos.to_uint p); [contradiction|reflexivity..]).
    unfold ParseInt.parse.
    destruct (@unsigned_prefix (Pos.to_uint p) rest) as (-> & -> & ->);
      [exact Hn|exact Hr|].
    rewrite digits_none, Unsigned.of_to; [reflexivity|exact Hn|exact Hr].
  - pose proof (Unsigned.to_uint_nonnil p) as Hn.
    replace (NilZero.string_of_uint (Pos.to_uint p))
      with (NilEmpty.string_of_uint (Pos.to_uint p))
      by (destruct (Pos.to_uint p); [contradiction|reflexivity..]).
    change (js (String "-" ?s)) with (45%N :: js s).
    unfold ParseInt.parse. cbn [app ParseInt.trim_start].
    change (RegExp.is_space 45%N) with false. cbv iota.
    cbn [ParseInt.strip_sign]. change (N.eqb 45 45) with true. cbv iota.
    destruct (@unsigned_prefix (Pos.to_uint p) rest) as (_ & _ & ->);
      [exact Hn|exact Hr|].
    rewrite digits_none, Unsigned.of_to; [reflexivity|exact Hn|exact Hr].
Qed.

(** X10: [parseInt] reads back the decimal text of an integer, whatever follows
    it: [parseInt(String(z) + rest)] is [z]. *)
Theorem parseInt_to_string (z : Z) (rest : jsstring) :
  safe_integer z ->
  ends_number rest ->
  ParseInt.parseInt (VString (to_string (VNumber (Int z)) ++ rest)) = Int z.
Proof. intros _ Hr. apply parseInt_decimal, Hr. Qed.

Lemma parseInt_to_string_witness :
  safe_integer 12 /\ ends_number (js "px") /\
  ParseInt.parseInt (VString (to_string (VNumber (Int 12)) ++ js "px")) =
  Int 12.
Proof.
  assert (H1 : safe_integer 12) by (unfold safe_integer; cbn; lia).
  assert (H2 : ends_number (js "px")).
  { cbn. repeat split; discriminate. }
  split; [exact H1|]. split; [exact H2|].
  exact (@parseInt_to_string 12 (js "px") H1 H2).
Defined.

End ParseIntFacts.

(** ** The article command *)

Section ArticleCommand.

Local Open Scope string_scope.
Local Open Scope list_scope.

Lemma uint_no_space (d : Decimal.uint) :
  ~ In 32%N (js (NilEmpty.string_of_uint d)).
Proof.
  induction d; cbn [NilEmpty.string_of_uint];
    [intros []|..];
    change (js (String ?c ?s)) with (N_of_ascii c :: js s);
    intros [H|H]; try discriminate H; contradiction.
Qed.

Lemma number_text_no_space (z : Z) :
  ~ In 32%N (to_string (VNumber (Int z))).
Proof.
  cbn [to_string number_to_string].
  destruct z as [|p|p]; cbn [Z.to_int NilZero.string_of_int].
  - vm_compute. intros [H|[]]. discriminate H.
  - pose proof (Unsigned.to_uint_nonnil p) as Hn.
    replace (NilZero.string_of_uint (Pos.to_uint p))
      with (NilEmpty.string_of_uint (Pos.to_uint p))
      by (destruct (Pos.to_uint p); [contradiction|reflexivity..]).
    apply uint_no_space.
  - pose proof (Unsigned.to_uint_nonnil p) as Hn.
    replace (NilZero.string_of_uint (Pos.to_uint p))
      with (NilEmpty.string_of_uint (Pos.to_uint p))
      by (destruct (Pos.to_uint p); [contradiction|reflexivity..]).
    change (js (String "-" ?s)) with (45%N :: js s).
    intros [H|H]; [discriminate H|]. revert H. apply uint_no_space.
Qed.

Variable this : ZendeskClient.t.

Lemma console_article_request (input : jsstring) (w : world) :
  jseqb (toLowerCase input) (js "quit") = false ->
  jseqb (toLowerCase (hd [] (split input))) (js "search") = false ->
  jseqb (toLowerCase (hd [] (split input))) (js "article") = true ->
  Nat.ltb (length (split input)) 2 = false ->
  calls (snd (handle_input this input w)) =
  calls w ++ [article_request this (chat_article_params this (split input))].
Proof.
  intros Hq Hs Ha Hl. unfold handle_input, try_catch, bind.
  rewrite Hq, Hs, Ha, Hl.
  destruct (getArticle_world this (chat_article_params this (split input)) w)
    as (out & _ & Hc & _).
  destruct (getArticle this (chat_article_params this (split input)) w)
    as [[v|e] w1]; cbn [snd] in Hc; cbn; rewrite Hc; reflexivity.
Qed.

(** X11: [article <id>], the command word in any case and the id in decimal
    digits, requests [{base}/articles/<id>.json] with the default locale:
    the request of [getArticle({id})]. *)
Theorem console_article_id (command : jsstring) (z : Z) (w : world) :
  toLowerCase command = js "article" ->
  safe_integer z ->
  let word := to_string (VNumber (Int z)) in
  let request :=
    article_request this
      {| id := VNumber (Int z); article_locale := VUndefined |} in
  calls (snd (handle_input this (command ++ 32%N :: word) w)) =
    calls w ++ [request] /\
  url request = baseUrl this ++ js "/articles/" ++ word ++ js ".json".
Proof.
  intros Hc Hz word request. split; [|reflexivity].
  subst request. assert (Hw : word = to_string (VNumber (Int z))) by reflexivity.
  clearbody word. subst word.
  assert (Hn : ~ In 32%N command).
  { apply (lower_no_space _ Hc). vm_compute. intros H.
    repeat (destruct H as [H|H]; [discriminate H|]). exact H. }
  set (word := to_string (VNumber (Int z))).
  assert (Hs : split (command ++ 32%N :: word) = [command; word]).
  { rewrite (split_app _ _ Hn).
    unfold word. rewrite (split_one _ (number_text_no_space z)).
    reflexivity. }
  rewrite console_article_request.
  - rewrite Hs. unfold chat_article_params, part. cbn [nth_error].
    pose proof (@parseInt_decimal z [] I) as Hp.
    rewrite app_nil_r in Hp. fold word in Hp. rewrite Hp. reflexivity.
  - destruct (jseqb (toLowerCase (command ++ 32%N :: word)) (js "quit"))
      eqn:E; [|reflexivity].
    apply jseqb_eq in E. apply (f_equal (@length _)) in E.
    unfold toLowerCase in E. rewrite length_map, length_app in E.
    apply (f_equal (@length _)) in Hc. unfold toLowerCase in Hc.
    rewrite length_map in Hc. cbn in E, Hc. lia.
  - rewrite Hs. cbn [hd]. rewrite Hc. reflexivity.
  - rewrite Hs. cbn [hd]. rewrite Hc. reflexivity.
  - rewrite Hs. reflexivity.
Qed.

End ArticleCommand.

Lemma console_article_id_witness :
  toLowerCase (js "ARTICLE") = js "article" /\
  safe_integer 360001234 /\
  calls (snd (handle_input (constructor example_config)
                (js "ARTICLE" ++ 32%N :: js "360001234") failing_world)) =
  [article_request (constructor example_config)
     {| id := VNumber (Int 360001234); article_locale := VUndefined |}].
Proof.
  assert (H1 : toLowerCase (js "ARTICLE") = js "article") by reflexivity.
  assert (H2 : safe_integer 360001234) by (unfold safe_integer; cbn; lia).
  split; [exact H1|]. split; [exact H2|].
  exact (proj1 (@console_article_id (constructor example_config)
                  (js "ARTICLE") 360001234 failing_world H1 H2)).
Defined.

(** ** The tool server *)

Section ToolServer.

Local Open Scope string_scope.
Local Open Scope list_scope.

Import Server.

Lemma started_locale (e : env) (server : Server.t) :
  start e = Running server ->
  this_defaultLocale (zendeskClient server) = DEFAULT_LOCALE server.
Proof.
  unfold start.
  destruct (is_empty _ || is_empty _ || is_empty _); [discriminate|].
  intros [= <-]. cbn.
  destruct (e "DEFAULT_LOCALE") as [[|c l]|]; reflexivity.
Qed.

(** X12: The server starts exactly when the three credentials are set and not
    empty; it then uses them for the base URL and the Basic auth of its
    client, and its default locale is DEFAULT_LOCALE, or "en" when that is
    unset or empty.  Otherwise the process exits with code 1. *)
Theorem start_requires_credentials (e : env) :
  match start e with
  | Running server =>
      exists subdomain email apiToken,
        set_to (e "ZENDESK_SUBDOMAIN") subdomain /\
        set_to (e "ZENDESK_EMAIL") email /\
        set_to (e "ZENDESK_API_TOKEN") apiToken /\
        baseUrl (zendeskClient server) =
          js "https://" ++ subdomain ++ js ".zendesk.com/api/v2/help_center" /\
        credentials (zendeskClient server) =
          {| username := email ++ js "/token"; password := apiToken |} /\
        DEFAULT_LOCALE server = env_or (e "DEFAULT_LOCALE") (js "en") /\
        this_defaultLocale (zendeskClient server) = DEFAULT_LOCALE server
  | Exit code _ =>
      code = 1%Z /\
      (env_or (e "ZENDESK_SUBDOMAIN") [] = [] \/
       env_or (e "ZENDESK_EMAIL") [] = [] \/
       env_or (e "ZENDESK_API_TOKEN") [] = [])
  end.
Proof.
  unfold start, set_to.
  destruct (e "ZENDESK_SUBDOMAIN") as [[|c1 s1]|]; cbn [env_or is_empty orb];
    try (split; [reflexivity|auto]).
  destruct (e "ZENDESK_EMAIL") as [[|c2 s2]|]; cbn [env_or is_empty orb];
    try (split; [reflexivity|auto]).
  destruct (e "ZENDESK_API_TOKEN") as [[|c3 s3]|]; cbn [env_or is_empty orb];
    try (split; [reflexivity|auto]).
  exists (c1 :: s1), (c2 :: s2), (c3 :: s3).
  repeat (split; [split; [reflexivity|discriminate]|]).
  cbn [zendeskClient DEFAULT_LOCALE].
  repeat (split; [reflexivity|]).
  cbn. destruct (e "DEFAULT_LOCALE") as [[|c l]|]; reflexivity.
Qed.

Lemma tool_search_request (this : ZendeskClient.t) (p : search_params) :
  search_request this
    {| query := query p;
       locale := default_to (VString (this_defaultLocale this)) (locale p);
       page := default_to (VNumber (Int 1)) (page p);
       per_page := default_to (VNumber (Int 20)) (per_page p) |} =
  search_request this p.
Proof.
  unfold search_request. cbn [query locale page per_page].
  destruct (locale p), (page p), (per_page p); reflexivity.
Qed.

Lemma tool_article_request (this : ZendeskClient.t) (p : article_params) :
  article_request this
    {| id := id p;
       article_locale :=
         default_to (VString (this_defaultLocale this)) (article_locale p) |} =
  article_request this p.
Proof.
  unfold article_request. cbn [id article_locale].
  destruct (article_locale p); reflexivity.
Qed.

(** X13: A tool of a started server never throws: it answers with the JSON text
    of what the client operation returns for the same arguments, or with
    the error of the operation after "Search error: " or "Article retrieval
    error: "; the defaults the handler applies are those of the client, and
    the world is left as the operation leaves it. *)
Theorem tools_never_throw (e : env) (server : Server.t)
    (sp : search_params) (ap : article_params) (w : world) :
  start e = Running server ->
  searchArticlesTool server sp w =
    (inl (tool_outcome (js "Search error: ")
            (fst (searchArticles (zendeskClient server) sp w))),
     snd (searchArticles (zendeskClient server) sp w))
  /\
  getArticleTool server ap w =
    (inl (tool_outcome (js "Article retrieval error: ")
            (fst (getArticle (zendeskClient server) ap w))),
     snd (getArticle (zendeskClient server) ap w)).
Proof.
  intros Hs. apply started_locale in Hs. split.
  - unfold searchArticlesTool, try_catch, bind, ret. rewrite <- Hs.
    unfold searchArticles at 1. rewrite tool_search_request.
    fold (searchArticles (zendeskClient server) sp).
    destruct (searchArticles (zendeskClient server) sp w) as [[data|error] w1];
      reflexivity.
  - unfold getArticleTool, try_catch, bind, ret. rewrite <- Hs.
    unfold getArticle at 1. rewrite tool_article_request.
    fold (getArticle (zendeskClient server) ap).
    destruct (getArticle (zendeskClient server) ap w) as [[data|error] w1];
      reflexivity.
Qed.

End ToolServer.

Lemma tools_never_throw_witness :
  exists server,
    Server.start example_env = Server.Running server /\
    Server.searchArticlesTool server (omitted (VString (js "billing")))
      failing_world =
    (inl (tool_outcome (js "Search error: ") (inr network_error)),
     snd (searchArticles (Server.zendeskClient server)
            (omitted (VString (js "billing"))) failing_world)).
Proof.
  eexists. split; [reflexivity|].
  exact (proj1 (@tools_never_throw example_env _
                  (omitted (VString (js "billing")))
                  {| id := VNumber (Int 999); article_locale := VUndefined |}
                  failing_world eq_refl)).
Defined.

(** ** [cleanHtmlContent] only removes *)

Section Shrinking.

Import RegExp Match Html.

Ltac inv_matches :=
  repeat match goal with
  | H : matches _ (Seq _ _) _ _ _ |- _ => inversion H; subst; clear H
  | H : matches _ (Atom _) _ _ _ |- _ => inversion H; subst; clear H
  | H : matches _ (Group _ _) _ _ _ |- _ => inversion H; subst; clear H
  | H : matches _ (Rep _ _ _) _ _ _ |- _ => inversion H; subst; clear H
  | H : matches _ (Backref _) _ _ _ |- _ => inversion H; subst; clear H
  end.

Lemma clean_run (s : jsstring) : clean s = run cleanSteps s.
Proof. reflexivity. Qed.

Lemma shrinking_replace (step : regexp * template) (s : jsstring) :
  shrinking step ->
  length (replace (fst step) (snd step) s) <= length s /\
  (test (fst step) s = true ->
   length (replace (fst step) (snd step) s) < length s).
Proof.
  destruct step as [re tpl]. intros [Hmin Hshort]. cbn [fst snd] in *.
  apply replace_ind with (P := fun s y =>
    length y <= length s /\ (test re s = true -> length y < length s)).
  - exact Hmin.
  - split; [cbn; lia|]. rewrite test_nil by exact Hmin. discriminate.
  - intros c t E [IH1 IH2]. split; [cbn; lia|].
    cbn [test]. rewrite E. intros Ht. cbn. apply IH2 in Ht. lia.
  - intros w rest caps Hw E M [IH1 _].
    apply Hshort in M. rewrite !length_app. split; intros; lia.
Qed.

Lemma run_shrinks (steps : list (regexp * template)) (s : jsstring) :
  Forall shrinking steps ->
  length (run steps s) <= length s /\
  (length (run steps s) = length s ->
   run steps s = s /\ Forall (fun step => test (fst step) s = false) steps).
Proof.
  intros Hs. revert s. induction Hs as [|step steps Hstep _ IH]; intros s.
  - cbn. auto.
  - cbn [run fold_left].
    fold (run steps (replace (fst step) (snd step) s)).
    destruct (shrinking_replace s Hstep) as [L1 S1].
    destruct (IH (replace (fst step) (snd step) s)) as [L2 F2].
    split; [lia|]. intros E.
    assert (T : test (fst step) s = false).
    { destruct (test (fst step) s); [|reflexivity].
      specialize (S1 eq_refl). lia. }
    assert (R : replace (fst step) (snd step) s = s)
      by (apply replace_no_match, T).
    rewrite R in *. destruct (F2 E) as [F3 F4].
    split; [exact F3|]. constructor; assumption.
Qed.

Lemma run_no_match (steps : list (regexp * template)) (s : jsstring) :
  Forall (fun step => test (fst step) s = false) steps -> run steps s = s.
Proof.
  induction 1 as [|step steps Hstep _ IH]; [reflexivity|].
  cbn [run fold_left]. rewrite (replace_no_match _ _ _ Hstep). exact IH.
Qed.

Lemma shrinking_text (re : regexp) (tpl : template) (text : jsstring) :
  template_text tpl = Some text ->
  length text < min_length (source re) ->
  shrinking (re, tpl).
Proof.
  intros Ht Hl. split; cbn [fst snd]; [lia|].
  intros w caps M. apply matches_min_length in M.
  rewrite (substitute_text tpl Ht). lia.
Qed.

Ltac shrinking_by_inversion :=
  split; cbn [fst snd]; [cbn; lia|];
  let w := fresh "w" in
  let caps := fresh "caps" in
  let M := fresh "M" in
  intros w caps M;
  cbv [spanTagPattern fontTagPattern wrapperTagPattern tableCellPattern
       source ignoreCase seqs lit js map list_ascii_of_string
       star plus lazy_star] in M;
  inv_matches;
  cbn [substitute flat_map capture Nat.eqb app];
  repeat first [rewrite length_app | progress cbn [length]];
  change (length (js "<td>")) with 4; change (length (js "</td>")) with 5;
  lia.

Lemma shrinking_span : shrinking (spanTagPattern, [TGroup 1]).
Proof. shrinking_by_inversion. Qed.

Lemma shrinking_font : shrinking (fontTagPattern, [TGroup 1]).
Proof. shrinking_by_inversion. Qed.

Lemma shrinking_tableCell :
  shrinking
    (tableCellPattern, [TText (js "<td>"); TGroup 1; TText (js "</td>")]).
Proof. shrinking_by_inversion. Qed.

Lemma shrinking_cleanSteps : Forall shrinking cleanSteps.
Proof.
  unfold cleanSteps.
  repeat (constructor;
          [first [apply shrinking_text with (text := []);
                    [reflexivity|cbn; lia]
                 |apply shrinking_text with (text := [LF]);
                    [reflexivity|cbn; lia]
                 |exact shrinking_span|exact shrinking_font
                 |exact shrinking_tableCell]|]).
  constructor.
Qed.

Lemma free_of_steps (x : jsstring) :
  free_of cleanPatterns x = true <->
  Forall (fun step => test (fst step) x = false) cleanSteps.
Proof.
  change cleanPatterns with (map fst cleanSteps).
  unfold free_of. rewrite forallb_forall, Forall_forall. split.
  - intros H step Hin. apply negb_true_iff, H, in_map, Hin.
  - intros H re Hin. apply in_map_iff in Hin as (step & <- & Hin).
    apply negb_true_iff, H, Hin.
Qed.

(** X14: The cleaned text is never longer than the text: every replacement of
    [cleanHtmlContent] puts less than it takes. *)
Theorem clean_never_lengthens (html : jsstring) :
  exists cleaned,
    cleanHtmlContent (VString html) = inl (VString cleaned) /\
    length cleaned <= length html.
Proof.
  rewrite cleanHtmlContent_string. eexists. split; [reflexivity|].
  destruct html as [|c t]; [reflexivity|].
  rewrite clean_run. apply run_shrinks, shrinking_cleanSteps.
Qed.

(** X15: [cleanHtmlContent] returns a text unchanged exactly when none of its
    ten patterns matches anywhere in the text. *)
Theorem clean_unchanged_iff (html : jsstring) :
  cleanHtmlContent (VString html) = inl (VString html) <->
  free_of cleanPatterns html = true.
Proof.
  rewrite cleanHtmlContent_string, free_of_steps.
  destruct html as [|c t].
  - split; [intros _|reflexivity].
    apply free_of_steps. vm_compute. reflexivity.
  - rewrite clean_run. split.
    + intros [= H].
      destruct (run_shrinks (c :: t) shrinking_cleanSteps) as [_ F].
      apply F. exact (f_equal (@length _) H).
    + intros H. rewrite (run_no_match _ H). reflexivity.
Qed.

End Shrinking.

(** ** No blank line is left *)

Section BlankLines.

Import RegExp Match Html.

Ltac inv_matches :=
  repeat match goal with
  | H : matches _ (Seq _ _) _ _ _ |- _ => inversion H; subst; clear H
  | H : matches _ (Atom _) _ _ _ |- _ => inversion H; subst; clear H
  | H : matches _ (Group _ _) _ _ _ |- _ => inversion H; subst; clear H
  | H : matches _ (Rep _ _ _) _ _ _ |- _ => inversion H; subst; clear H
  | H : matches _ (Backref _) _ _ _ |- _ => inversion H; subst; clear H
  end.

Lemma test_false_suffix (re : regexp) (w rest : jsstring) :
  test re (w ++ rest) = false -> test re rest = false.
Proof.
  induction w as [|c w IH]; [auto|]. cbn [app]. intros H.
  apply IH. eapply test_false_tail, H.
Qed.

Lemma blank_after_text (u v : jsstring) :
  ~ In LF u ->
  test multipleLineBreaksPattern v = false ->
  test multipleLineBreaksPattern (u ++ v) = false.
Proof.
  intros Hu Hv. induction u as [|c u IH]; [exact Hv|].
  cbn [app test].
  destruct (exec_at multipleLineBreaksPattern (c :: u ++ v))
    as [[rest caps]|] eqn:E.
  - apply blank_exec_first in E. exfalso. apply Hu. left. auto.
  - apply IH. intros Hin. apply Hu. right. exact Hin.
Qed.

Lemma dot_not_lf (c : code_unit) :
  atom_matches true ADot c = true -> c <> LF.
Proof. intros H ->. discriminate H. Qed.

Lemma tableCell_substitute (w : jsstring) (caps : captures) :
  matches true (source tableCellPattern) [] w caps ->
  exists content,
    substitute [TText (js "<td>"); TGroup 1; TText (js "</td>")] caps =
      LT :: js "td>" ++ content ++ js "</td>" /\
    ~ In LF content.
Proof.
  intros M.
  cbv [tableCellPattern source seqs lit js map list_ascii_of_string
       star lazy_star] in M.
  inv_matches.
  match goal with
  | H : Forall (fun c => atom_matches true ADot c = true) ?x |- _ =>
      exists x; split;
      [cbn [substitute flat_map capture Nat.eqb]; rewrite app_nil_r;
       reflexivity|];
      intros Hin; rewrite Forall_forall in H; apply H in Hin;
      discriminate Hin
  end.
Qed.

(** The table-cell rule creates no blank-line run. *)
Lemma tableCell_keeps_blank_free (y : jsstring) :
  let z :=
    replace tableCellPattern
      [TText (js "<td>"); TGroup 1; TText (js "</td>")] y in
  (~ blank_prefix y -> ~ blank_prefix z) /\
  (test multipleLineBreaksPattern y = false ->
   test multipleLineBreaksPattern z = false).
Proof.
  apply replace_ind with (P := fun y z =>
    (~ blank_prefix y -> ~ blank_prefix z) /\
    (test multipleLineBreaksPattern y = false ->
     test multipleLineBreaksPattern z = false)).
  - cbn. lia.
  - auto.
  - intros c t _ [IH1 IH2].
    set (z := replace tableCellPattern _ t) in *.
    split.
    + intros Hx Hz. apply blank_prefix_inv in Hz as [->|[Hc Hz]].
      * apply Hx. exists [], t. split; [constructor|reflexivity].
      * revert Hz. apply IH1. intros Ht. apply Hx.
        apply blank_prefix_cons; assumption.
    + intros Ht. pose proof (test_false_here _ _ Ht) as Hhere.
      apply test_false_tail in Ht. cbn [test]. rewrite (IH2 Ht).
      destruct (exec_at multipleLineBreaksPattern (c :: z))
        as [[rest caps]|] eqn:Ez; [|reflexivity].
      exfalso. pose proof Ez as Hc. apply blank_exec_first in Hc. subst c.
      apply blank_exec_prefix in Ez. revert Ez. apply IH1.
      intros Hb. apply blank_prefix_exec in Hb. contradiction.
  - intros w rest caps _ _ M [_ IH2].
    destruct (tableCell_substitute M) as (content & -> & Hc).
    split.
    + intros _ Hz. cbn [app] in Hz.
      apply blank_prefix_inv in Hz as [Hz|[Hz _]]; discriminate Hz.
    + intros Ht. apply test_false_suffix in Ht.
      change (LT :: js "td>" ++ content ++ js "</td>")
        with ((LT :: js "td>") ++ content ++ js "</td>").
      rewrite <- !app_assoc.
      apply blank_after_text;
        [vm_compute; intros H;
         repeat (destruct H as [H|H]; [discriminate H|]); exact H|].
      apply blank_after_text; [exact Hc|].
      apply blank_after_text;
        [vm_compute; intros H;
         repeat (destruct H as [H|H]; [discriminate H|]); exact H|].
      exact (IH2 Ht).
Qed.

(** X16: The cleaned text holds no blank line: nowhere a line feed, white space
    only and another line feed. *)
Theorem clean_leaves_no_blank_line (html : jsstring) :
  exists cleaned,
    cleanHtmlContent (VString html) = inl (VString cleaned) /\
    test multipleLineBreaksPattern cleaned = false.
Proof.
  rewrite cleanHtmlContent_string. eexists. split; [reflexivity|].
  destruct html as [|c t]; [reflexivity|].
  unfold clean. apply tableCell_keeps_blank_free.
  apply collapse_no_blank_prefix.
Qed.

End BlankLines.
